(** * Job-Hunter: discovery, filtering and retry, verified against the sources

    A shallow embedding of
      - src/scout/jobScout.ts   (source adapters, heuristics, [discoverJobs]),
      - src/config/userConfig.ts ([loadConfig], [evaluateFilters]),
      - src/analyzer/claude.ts   ([callWithRetry]),
      - src/server.ts            (the handlers of GET /api/scout and of
                                  PATCH /api/applications/:id, [esc]),
      - src/log/appLog.ts        ([loadLog], [logApplication], [updateEntry]),
      - src/report/htmlReport.ts ([escapeHtml], the name of the report),
      - src/parsers              ([parsePDF], [extractPostingDate],
                                  [scrapeJD]),
    followed by the properties the specification states about them and
    by further properties of the code.

    Conventions of the embedding.
      - A JavaScript string is a [string] holding its text in UTF-8, so the
        literals of the sources that are not ASCII stay as they are written.
        [chars] gives the characters of a text and [units] its length in
        UTF-16 code units, the length of the source string; white space
        and line ends are those of ECMAScript, whatever the number of
        bytes they take.  Searching for a text ([includes], the literal
        separators of the expressions) goes byte by byte, which finds the
        same places as going code unit by code unit.
      - A JavaScript number that the code computes from time stamps is a
        [jsnum]: an integer or NaN.  [Math.floor (a / 86_400_000)] is the
        floor division of [Z]: inside the range of time values
        (|t| <= 8.64e15) the quotient of the doubles has the same floor.
      - [null] is [None]; an optional field that may also be [null] is an
        [option (option _)], the outer [None] standing for [undefined].
      - Library calls of the runtime ([new Date(s).getTime()], [new URL(s)],
        [s.toLowerCase()]) are operations of the class [Runtime]; the file
        system and the network are read through explicit arguments: the
        parsed configuration file, the history [loadLog()] returns, the
        answer to each request.  [Date.now()] is the argument [now]; one run reads
        the same instant at every call. *)

From Stdlib Require Import ZArith Ascii String Bool Lia DecimalString.
From stdpp Require Import base option list gmap strings.

Local Open Scope Z_scope.

(* ===================================================================== *)
(** ** The JavaScript runtime *)
(* ===================================================================== *)

Module JS.

(** Numbers produced by date arithmetic. *)
Inductive jsnum : Type :=
| Num (z : Z)
| NaN.

(** [Math.max(0, x)] *)
Definition max0 (x : jsnum) : jsnum :=
  match x with
  | Num z => Num (Z.max 0 z)
  | NaN => NaN
  end.

(** [Math.floor(x / d)] for an integer [x] and a positive integer [d]. *)
Definition floor_div (x : jsnum) (d : Z) : jsnum :=
  match x with
  | Num z => Num (z / d)
  | NaN => NaN
  end.

(** [a - b] where [b] is the result of [getTime()]: NaN for an invalid date. *)
Definition minus_time (a : Z) (b : option Z) : jsnum :=
  match b with
  | Some t => Num (a - t)
  | None => NaN
  end.

(** [x ?? null] *)
Definition nullish {A : Type} (x : option (option A)) : option A :=
  match x with
  | Some v => v
  | None => None
  end.

(** What the program asks of its host: the date parser, the URL parser
    and the case mapping of Unicode. *)
Class Runtime : Type := {
  (** [new Date(s).getTime()]: milliseconds since the epoch, [None] for NaN *)
  Date_getTime : string -> option Z;
  (** [new URL(s).hostname]; [None] when the constructor throws *)
  URL_hostname : string -> option string;
  (** [s.toLowerCase()] *)
  toLowerCase : string -> string
}.

(** *** Bytes *)

Definition is_upper (c : ascii) : bool :=
  let n := nat_of_ascii c in (Nat.leb 65 n && Nat.leb n 90)%bool.

Definition is_lower (c : ascii) : bool :=
  let n := nat_of_ascii c in (Nat.leb 97 n && Nat.leb n 122)%bool.

Definition is_digit (c : ascii) : bool :=
  let n := nat_of_ascii c in (Nat.leb 48 n && Nat.leb n 57)%bool.

Definition lower_char (c : ascii) : ascii :=
  if is_upper c then ascii_of_nat (nat_of_ascii c + 32) else c.

Definition upper_char (c : ascii) : ascii :=
  if is_lower c then ascii_of_nat (nat_of_ascii c - 32) else c.

(** [\w] *)
Definition is_word (c : ascii) : bool :=
  (is_upper c || is_lower c || is_digit c || Ascii.eqb c "_")%bool.

(** A byte that continues a character of more than one byte. *)
Definition is_continuation (b : ascii) : bool :=
  let n := nat_of_ascii b in (Nat.leb 128 n && Nat.ltb n 192)%bool.

(** *** Strings as bytes *)

Fixpoint str_map (f : ascii -> ascii) (s : string) : string :=
  match s with
  | EmptyString => EmptyString
  | String c r => String (f c) (str_map f r)
  end.

Fixpoint str_forall (p : ascii -> bool) (s : string) : bool :=
  match s with
  | EmptyString => true
  | String c r => p c && str_forall p r
  end.

(** The letters A to Z made small, every other byte kept: the folding a
    regular expression with the flag [i] applies to the ASCII letters of
    its pattern. *)
Definition lower_ascii : string -> string := str_map lower_char.

(** [s.includes(k)] *)
Fixpoint includes (s k : string) : bool :=
  String.prefix k s ||
  match s with
  | EmptyString => false
  | String _ r => includes r k
  end.

(** The first [n] bytes of [s]. *)
Fixpoint slice0 (n : nat) (s : string) : string :=
  match n, s with
  | S m, String c r => String c (slice0 m r)
  | _, _ => EmptyString
  end.

(** *** Strings as characters

    The characters of a text: each byte that does not continue a
    character, with the continuation bytes that follow it.  A character
    of the Basic Multilingual Plane is one code unit of the JavaScript
    string and takes one to three bytes; a character beyond it is a
    surrogate pair, two code units, and takes four bytes. *)

Definition starts_inside (s : string) : bool :=
  match s with
  | String b _ => is_continuation b
  | EmptyString => false
  end.

Fixpoint chars (s : string) : list string :=
  match s with
  | EmptyString => []
  | String b r =>
      match chars r with
      | c :: cs =>
          if starts_inside c then String b c :: cs
          else String b EmptyString :: c :: cs
      | [] => [String b EmptyString]
      end
  end.

Definition glue (l : list string) : string := foldr String.append EmptyString l.

(** The code units of a character. *)
Definition code_units (c : string) : nat :=
  match c with
  | String b _ => if Nat.leb 240 (nat_of_ascii b) then 2 else 1
  | EmptyString => 0
  end.

(** [s.length] *)
Definition units (s : string) : nat := sum_list (code_units <$> chars s).

(** The bytes of the character with code point [cp]. *)
Definition utf8 (cp : N) : string :=
  if (cp <? 128)%N then String (ascii_of_N cp) EmptyString
  else if (cp <? 2048)%N then
    String (ascii_of_N (192 + cp / 64))
      (String (ascii_of_N (128 + cp mod 64)) EmptyString)
  else if (cp <? 65536)%N then
    String (ascii_of_N (224 + cp / 4096))
      (String (ascii_of_N (128 + (cp / 64) mod 64))
         (String (ascii_of_N (128 + cp mod 64)) EmptyString))
  else
    String (ascii_of_N (240 + cp / 262144))
      (String (ascii_of_N (128 + (cp / 4096) mod 64))
         (String (ascii_of_N (128 + (cp / 64) mod 64))
            (String (ascii_of_N (128 + cp mod 64)) EmptyString))).

(** The code point of a character of four bytes. *)
Definition code_point4 (c : string) : N :=
  match c with
  | String b0 (String b1 (String b2 (String b3 _))) =>
      ((N_of_ascii b0 - 240) * 262144 + (N_of_ascii b1 - 128) * 4096
       + (N_of_ascii b2 - 128) * 64 + (N_of_ascii b3 - 128))%N
  | _ => 0%N
  end.

(** The first code unit of a surrogate pair, as a character of its own:
    the three bytes of the code point 0xD800 + (cp - 0x10000) / 0x400. *)
Definition high_surrogate (c : string) : string :=
  let hi := (55296 + (code_point4 c - 65536) / 1024)%N in
  String (ascii_of_N 237)
    (String (ascii_of_N (128 + (hi / 64) mod 64))
       (String (ascii_of_N (128 + hi mod 64)) EmptyString)).

(** WhiteSpace of ECMAScript: TAB, VT, FF, SP, NBSP, the space separators
    U+1680, U+2000 to U+200A, U+202F, U+205F, U+3000, and U+FEFF. *)
Definition white_space : list N :=
  [9; 11; 12; 32; 160; 5760; 8192; 8193; 8194; 8195; 8196; 8197; 8198; 8199;
   8200; 8201; 8202; 8239; 8287; 12288; 65279]%N.

(** LineTerminator of ECMAScript: LF, CR, U+2028, U+2029. *)
Definition line_terminators : list N := [10; 13; 8232; 8233]%N.

(** what [.] refuses *)
Definition is_line_terminator (c : string) : bool :=
  bool_decide (c ∈ utf8 <$> line_terminators).

(** [\s], and what [trim] removes: white space and line terminators *)
Definition is_space (c : string) : bool :=
  bool_decide (c ∈ utf8 <$> (white_space ++ line_terminators)).

Fixpoint drop_spaces (l : list string) : list string :=
  match l with
  | c :: r => if is_space c then drop_spaces r else l
  | [] => []
  end.

Fixpoint drop_spaces_end (l : list string) : list string :=
  match l with
  | [] => []
  | c :: r =>
      match drop_spaces_end r with
      | [] => if is_space c then [] else [c]
      | r' => c :: r'
      end
  end.

(** [s.trim()] *)
Definition trim (s : string) : string :=
  glue (drop_spaces_end (drop_spaces (chars s))).

(** The characters that hold the first [n] code units; a surrogate pair
    cut in two leaves its first half. *)
Fixpoint take_units (n : nat) (l : list string) {struct l} : list string :=
  match l, n with
  | c :: r, S m =>
      match code_units c, m with
      | 2%nat, O => [high_surrogate c]
      | 2%nat, S m' => c :: take_units m' r
      | _, _ => c :: take_units m r
      end
  | _, _ => []
  end.

(** [s.slice(0, n)] *)
Definition slice_to (n : nat) (s : string) : string :=
  glue (take_units n (chars s)).

(** [l.join(sep)] *)
Fixpoint join (sep : string) (l : list string) : string :=
  match l with
  | [] => ""
  | [x] => x
  | x :: r => x +:+ sep +:+ join sep r
  end.

(** [s.split(c)] on a one-character separator: never the empty list. *)
Fixpoint split (sep : ascii) (s : string) : list string :=
  match s with
  | EmptyString => [""]
  | String c r =>
      if Ascii.eqb c sep then "" :: split sep r
      else match split sep r with
           | x :: xs => String c x :: xs
           | [] => [String c ""]
           end
  end.

(** [String(n)] for an integer *)
Definition Z_to_string (z : Z) : string :=
  NilZero.string_of_int (Z.to_int z).

Definition jsnum_to_string (x : jsnum) : string :=
  match x with
  | Num z => Z_to_string z
  | NaN => "NaN"
  end.

(** *** The regular expressions of the sources

    [/SEP(.{lo,hi})$/] with a literal separator: the leftmost place where
    the separator stands and is followed, up to the end of the input, by
    between [lo] and [hi] code units none of which ends a line.  The flag
    [i] compares the separator without regard to case; the separators of
    the sources are ASCII, and no other character folds to an ASCII
    letter. *)

Definition char_eq (ci : bool) (a b : ascii) : bool :=
  if ci then Ascii.eqb (lower_char a) (lower_char b) else Ascii.eqb a b.

Fixpoint after_literal (ci : bool) (lit s : string) : option string :=
  match lit, s with
  | EmptyString, _ => Some s
  | String a lit', String b s' =>
      if char_eq ci a b then after_literal ci lit' s' else None
  | String _ _, EmptyString => None
  end.

Definition dots_to_end (lo hi : nat) (s : string) : bool :=
  Nat.leb lo (units s) && Nat.leb (units s) hi
  && forallb (fun c => negb (is_line_terminator c)) (chars s).

Definition suffix_here (ci : bool) (lit : string) (lo hi : nat) (s : string)
  : option string :=
  match after_literal ci lit s with
  | Some rest => if dots_to_end lo hi rest then Some rest else None
  | None => None
  end.

(** [s.match(/LIT(.{lo,hi})$/)], giving the first group *)
Fixpoint match_suffix (ci : bool) (lit : string) (lo hi : nat) (s : string)
  : option string :=
  match suffix_here ci lit lo hi s with
  | Some g => Some g
  | None =>
      match s with
      | EmptyString => None
      | String _ r => match_suffix ci lit lo hi r
      end
  end.

End JS.

Import JS.

(* ===================================================================== *)
(** ** src/types.ts *)
(* ===================================================================== *)

(** The raw listing an adapter returns ([interface RawResult]). *)
Module RawResult.
Record t : Type := mk {
  url : string;
  title : string;
  snippet : string;
  site : string;
  age_days : option (option jsnum)   (* age_days?: number | null *)
}.
End RawResult.

Module DiscoveryResult.
Record t : Type := mk {
  url : string;
  title : string;
  company : option string;
  site : string;
  snippet : string;
  age_days : option jsnum;
  has_salary : bool;
  ghost_preflag : bool;
  already_seen : bool;
  seen_days_ago : option jsnum
}.
End DiscoveryResult.

(** The fields of an [ApplicationEntry] that discovery reads. *)
Module ApplicationEntry.
Record t : Type := mk {
  id : string;
  company : string;
  role : string;
  url : string;
  date : string
}.
End ApplicationEntry.

Module FilterCheck.
Record t : Type := mk {
  name : string;
  passed : bool;
  reason : string
}.
End FilterCheck.

Inductive WorkMode : Type := remote | hybrid | onsite | any.

#[export] Instance WorkMode_eq_dec : EqDecision WorkMode.
Proof. solve_decision. Defined.

Module UserConfig.
Record t : Type := mk {
  min_match_score : option Z;
  max_ghost_score : option Z;
  max_age_days : option Z;
  require_salary : option bool;
  work_mode : option WorkMode;
  role_keywords : option (list string);
  search_sites : option (list string)
}.
(** the object [{}] *)
Definition empty : t := mk None None None None None None None.
End UserConfig.

(** The fields of an [AnalysisResult] that the filters read, and its
    identification. *)
Module AnalysisResult.
Record t : Type := mk {
  company : string;
  role : string;
  match_score : Z;
  salary : option string;
  ghost_score : Z
}.
End AnalysisResult.

(** What a call leaves behind: either its value or the exception thrown. *)
Inductive outcome (A E : Type) : Type :=
| Returned (a : A)
| Thrown (e : E).
Arguments Returned {A E} a.
Arguments Thrown {A E} e.

(** What the process does to the outside, in order. *)
Inductive Event : Type :=
| Get (endpoint : string)              (* axios.get *)
| Pause (ms : Z)                       (* setTimeout *)
| Log (site : string) (results : nat)  (* console.log *)
| Warn (site : string) (msg : string). (* console.warn *)

(* ===================================================================== *)
(** ** src/scout/jobScout.ts *)
(* ===================================================================== *)

Module Scout.

(** *** What the network answers *)

(** The texts cheerio reads in one [<item>] of the feed. *)
Record RssItem : Type := {
  item_title : string;
  item_link : string;
  item_guid : string;
  item_description : string;
  item_pubDate : string;
  item_dcDate : string
}.

(** One entry of [hasPart]: [LdBroken] is an entry on which reading
    [item.url] or splitting it throws ([null], a url that is no string). *)
Inductive LdItem : Type :=
| LdBroken
| LdPart (url : option string).

(** One [<script type="application/ld+json">] block. *)
Inductive LdScript : Type :=
| LdInvalid                           (* JSON.parse throws *)
| LdOther                             (* no CollectionPage with an array hasPart *)
| LdCollection (hasPart : list LdItem).

(** One element of [results] in a SearXNG answer: each field is a string or
    nullish ([None]). *)
Record SearxHit : Type := {
  hit_url : option string;
  hit_title : option string;
  hit_content : option string
}.

(** [(r.data)?.results ?? []]: [SearxBad] is a value on which [slice], [map]
    or a field access throws. *)
Inductive SearxData : Type :=
| SearxBad
| SearxHits (results : list SearxHit).

(** The body of a 2xx answer, as each adapter reads it. *)
Record Body : Type := {
  rss_items : list RssItem;
  ld_scripts : list LdScript;
  searx_data : SearxData
}.

Inductive Reply : Type :=
| Failed (msg : string)                (* axios.get rejects: time-out, non-2xx *)
| Answered (b : Body).

(** [net i k]: the answer to request number [k] issued while the site at
    position [i] of the configured list is handled. *)
Definition Network : Type := nat -> nat -> Reply.

(** *** Heuristics *)

Definition strip_www (s : string) : string :=
  match after_literal false "www." s with
  | Some r => r
  | None => s
  end.

(** [normalizeSite] *)
Definition normalizeSite `{Runtime} (site : string) : string :=
  if includes site "://" then
    match URL_hostname site with
    | Some hostname => strip_www hostname
    | None => strip_www site
    end
  else strip_www site.

Definition starts_ci (lit s : string) : bool :=
  bool_decide (is_Some (after_literal true lit s)).

(** [k\b] *)
Definition k_boundary (s : string) : bool :=
  match after_literal true "k" s with
  | Some EmptyString => true
  | Some (String c _) => negb (is_word c)
  | None => false
  end.

(** [(?:k\b|PLN|pln|zł|EUR|eur|USD|\$|€)] under the flag [i]: the one
    letter of the pattern that is not ASCII, ł, also stands for Ł. *)
Definition unit_here (s : string) : bool :=
  k_boundary s || starts_ci "PLN" s || starts_ci "pln" s || starts_ci "zł" s
  || starts_ci "zŁ" s
  || starts_ci "EUR" s || starts_ci "eur" s || starts_ci "USD" s
  || starts_ci "$" s || starts_ci "€" s.

(** [\d] on a character *)
Definition is_digit_char (c : string) : bool :=
  match c with
  | String b EmptyString => is_digit b
  | _ => false
  end.

(** [[\d\s]*(?:...)] on the characters that follow the first digit *)
Fixpoint amount_tail (l : list string) : bool :=
  unit_here (glue l) ||
  match l with
  | c :: r => (is_digit_char c || is_space c) && amount_tail r
  | [] => false
  end.

Definition salary_here (s : string) : bool :=
  match s with
  | String c r => is_digit c && amount_tail (chars r)
  | EmptyString => false
  end
  || starts_ci "b2b" s || starts_ci "uop" s || starts_ci "salary" s
  || starts_ci "wynagrodzenie" s.

Fixpoint test_anywhere (here : string -> bool) (s : string) : bool :=
  here s ||
  match s with
  | String _ r => test_anywhere here r
  | EmptyString => false
  end.

(** [hasSalary] *)
Definition hasSalary (text : string) : bool := test_anywhere salary_here text.

Definition ghost_phrases : list string :=
  ["talent pool"; "pula talent"; "various clients"; "multiple position";
   "ongoing recruitment"; "ciągły nabór"; "always looking"; "pipeline";
   "future opportunit"; "speculative"].

(** [isGhostPreflag] *)
Definition isGhostPreflag `{Runtime} (title snippet : string) : bool :=
  let t := toLowerCase (title +:+ " " +:+ snippet) in
  existsb (fun f => includes t f) ghost_phrases.

(** [extractCompany] *)
Definition extractCompany (title : string) : option string :=
  match match_suffix false " @ " 2 60 title with
  | Some atMatch => Some (trim atMatch)
  | None =>
      match match_suffix true " at " 2 40 title with
      | Some atLower => Some (trim atLower)
      | None =>
          match match_suffix false "|" 2 40 title with
          | Some pipeMatch => Some (trim pipeMatch)
          | None => None
          end
      end
  end.

(** [rssDateToAgeDays].  Neither [new Date(dateStr)] nor [getTime()] throws
    on a string, so the [catch] branch that returns [null] is never entered:
    an unreadable date makes [ms] NaN, and NaN goes through [Math.floor] and
    [Math.max]. *)
Definition rssDateToAgeDays `{Runtime} (now : Z) (dateStr : string)
  : option jsnum :=
  let ms := minus_time now (Date_getTime dateStr) in
  Some (max0 (floor_div ms 86400000)).

(** [w.charAt(0).toUpperCase() + w.slice(1)] on a word of a slug, the
    segment of an address: its letters are ASCII. *)
Definition capitalize (w : string) : string :=
  match w with
  | String c r => String (upper_char c) r
  | EmptyString => EmptyString
  end.

Definition nonempty (s : string) : bool :=
  match s with EmptyString => false | _ => true end.

(** [parts.slice(0, -2)] *)
Definition drop_last2 {A : Type} (l : list A) : list A :=
  take (length l - 2) l.

(** [slugToTitle] *)
Definition slugToTitle (slug : string) : string :=
  let parts := List.filter nonempty (split "-" slug) in
  let meaningful :=
    if Nat.ltb 2 (length parts) then drop_last2 parts else parts in
  join " " (map capitalize meaningful).

(** *** Text cleaning used by the feed adapter *)

Fixpoint has_char (c : ascii) (s : string) : bool :=
  match s with
  | EmptyString => false
  | String d r => Ascii.eqb d c || has_char c r
  end.

(** [[^>]+>] can start at the head of [s] *)
Definition tag_follows (s : string) : bool :=
  match s with
  | String d r => negb (Ascii.eqb d ">") && has_char ">" r
  | EmptyString => false
  end.

(** [.replace(/<[^>]+>/g, ' ')]; [inside] holds while a tag is skipped. *)
Fixpoint strip_tags (inside : bool) (s : string) : string :=
  match s with
  | EmptyString => EmptyString
  | String c r =>
      if inside then
        if Ascii.eqb c ">" then strip_tags false r else strip_tags true r
      else if Ascii.eqb c "<" && tag_follows r then
        String " " (strip_tags true r)
      else String c (strip_tags false r)
  end.

(** [in_run] holds inside a run of white space. *)
Fixpoint collapse_chars (in_run : bool) (l : list string) : list string :=
  match l with
  | [] => []
  | c :: r =>
      if is_space c then
        if in_run then collapse_chars true r
        else " " :: collapse_chars true r
      else c :: collapse_chars false r
  end.

(** [.replace(/\s+/g, ' ')] *)
Definition collapse_spaces (s : string) : string :=
  glue (collapse_chars false (chars s)).

Definition clean_snippet (rawDesc : string) : string :=
  slice_to 200 (trim (collapse_spaces (strip_tags false rawDesc))).

(** [a || b] on strings *)
Definition or_else (a b : string) : string := if nonempty a then a else b.

(** *** NoFluffJobs: the feed *)

(** The body of the [.each] callback: the listing pushed for one item. *)
Definition rss_entry `{Runtime} (now : Z) (kw : list string) (el : RssItem)
  : option RawResult.t :=
  let title := item_title el in
  let link := or_else (item_link el) (item_guid el) in
  if negb (nonempty link) || negb (nonempty title) then None
  else
    let snippet := clean_snippet (item_description el) in
    let pubDate := or_else (item_pubDate el) (item_dcDate el) in
    let searchText := toLowerCase (title +:+ " " +:+ snippet) in
    if existsb (fun k => includes searchText k) kw then
      Some (RawResult.mk link title snippet "nofluffjobs.com"
              (Some (rssDateToAgeDays now pubDate)))
    else None.

(** [fetchNoFluffJobsRSS] *)
Definition fetchNoFluffJobsRSS `{Runtime} (reply : Reply) (now : Z)
    (keywords : list string)
  : outcome (list RawResult.t) string * list Event :=
  let ev := [Get "https://nofluffjobs.com/rss"] in
  match reply with
  | Failed msg => (Thrown msg, ev)
  | Answered b =>
      let kw := map toLowerCase keywords in
      let results := omap (rss_entry now kw) (rss_items b) in
      (Returned (take 30 results), ev)
  end.

(** *** JustJoin.it: JSON-LD *)

(** [url.split('/').pop()] *)
Definition last_segment (url : string) : string :=
  List.last (split "/" url) "".

(** [.replace(/-+/g, ' ')]; [in_run] holds inside a run of hyphens. *)
Fixpoint hyphens_to_space (in_run : bool) (s : string) : string :=
  match s with
  | EmptyString => EmptyString
  | String c r =>
      if Ascii.eqb c "-" then
        if in_run then hyphens_to_space true r
        else String " " (hyphens_to_space true r)
      else String c (hyphens_to_space false r)
  end.

(** The [for] loop over [parsed.hasPart]; a throwing entry leaves the loop
    and the surrounding [catch] keeps what was pushed before. *)
Fixpoint collect_parts (kw : list string) (items : list LdItem)
  : list RawResult.t :=
  match items with
  | [] => []
  | LdBroken :: _ => []
  | LdPart u :: rest =>
      let url := default "" u in
      if negb (nonempty url) then collect_parts kw rest
      else
        let slug := last_segment url in
        if negb (existsb (fun k => includes slug k) kw) then
          collect_parts kw rest
        else
          RawResult.mk url (slugToTitle slug) (hyphens_to_space false slug)
            "justjoin.it" (Some None)
          :: collect_parts kw rest
  end.

Definition ld_script_results (kw : list string) (s : LdScript)
  : list RawResult.t :=
  match s with
  | LdInvalid => []
  | LdOther => []
  | LdCollection hasPart => collect_parts kw hasPart
  end.

(** [fetchJustJoinIt] *)
Definition fetchJustJoinIt `{Runtime} (reply : Reply)
    (keywords : list string)
  : outcome (list RawResult.t) string * list Event :=
  let ev := [Get "https://justjoin.it/"] in
  match reply with
  | Failed msg => (Thrown msg, ev)
  | Answered b =>
      let kw := map toLowerCase keywords in
      (Returned (concat (map (ld_script_results kw) (ld_scripts b))), ev)
  end.

(** *** SearXNG: the fallback *)

Definition SEARXNG_INSTANCES : list string :=
  ["https://searx.be"; "https://searxng.site"; "https://darmarit.org/searx"].

Definition searx_listing (site : string) (res : SearxHit) : RawResult.t :=
  RawResult.mk (default "" (hit_url res)) (default "" (hit_title res))
    (default "" (hit_content res)) site None.

(** [results.slice(0, 10).map(...).filter((res) => res.url)] *)
Definition searx_listings (site : string) (results : list SearxHit)
  : list RawResult.t :=
  List.filter (fun res => nonempty (RawResult.url res))
    (map (searx_listing site) (take 10 results)).

(** The [for] loop of [searchViaSearXNG] over the instances still to try;
    [k] numbers the request. *)
Fixpoint searx_loop (answer : nat -> Reply) (site : string) (k : nat)
    (instances : list string) : list RawResult.t * list Event :=
  match instances with
  | [] => ([], [])
  | instance :: rest =>
      let ev := Get (instance +:+ "/search") in
      let next := searx_loop answer site (S k) rest in
      match answer k with
      | Answered b =>
          match searx_data b with
          | SearxHits (hit :: more) =>
              (searx_listings site (hit :: more), [ev])
          | SearxHits [] => (fst next, ev :: snd next)
          | SearxBad => (fst next, ev :: snd next)
          end
      | Failed _ => (fst next, ev :: snd next)
      end
  end.

(** [searchViaSearXNG]: the query string only travels to the instance. *)
Definition searchViaSearXNG (answer : nat -> Reply) (site : string)
    (keywords : list string) : list RawResult.t * list Event :=
  searx_loop answer site 0 SEARXNG_INSTANCES.

(** *** The aggregator *)

(** The adapter chosen for a normalized site and what calling it yields. *)
Definition run_adapter `{Runtime} (answer : nat -> Reply) (now : Z)
    (keywords : list string) (site : string)
  : outcome (list RawResult.t) string * list Event :=
  if String.eqb site "nofluffjobs.com" then
    fetchNoFluffJobsRSS (answer 0%nat) now keywords
  else if String.eqb site "justjoin.it" then
    fetchJustJoinIt (answer 0%nat) keywords
  else
    let '(results, ev) := searchViaSearXNG answer site keywords in
    (Returned results, ev).

(** One turn of the loop over [sites]: [raw] and the events so far. *)
Definition visit_site `{Runtime} (net : Network) (now : Z)
    (keywords : list string) (i : nat) (rawSite : string)
    (st : list RawResult.t * list Event) : list RawResult.t * list Event :=
  let site := normalizeSite rawSite in
  match run_adapter (net i) now keywords site with
  | (Returned results, ev) =>
      (fst st ++ results, snd st ++ ev ++ [Log site (length results); Pause 600])
  | (Thrown msg, ev) =>
      (fst st, snd st ++ ev ++ [Warn site msg])
  end.

Fixpoint scout_loop `{Runtime} (net : Network) (now : Z)
    (keywords : list string) (i : nat) (sites : list string)
    (st : list RawResult.t * list Event) : list RawResult.t * list Event :=
  match sites with
  | [] => st
  | rawSite :: rest =>
      scout_loop net now keywords (S i) rest
        (visit_site net now keywords i rawSite st)
  end.

(** [raw] after the loop, and the events of the loop. *)
Definition gather `{Runtime} (net : Network) (now : Z)
    (keywords sites : list string) : list RawResult.t * list Event :=
  scout_loop net now keywords 0 sites ([], []).

(** [raw.filter(...)] with the set [seenRaw] filled on the way. *)
Fixpoint dedup (seenRaw : gset string) (raw : list RawResult.t)
  : list RawResult.t :=
  match raw with
  | [] => []
  | r :: rest =>
      if negb (nonempty (RawResult.url r))
         || bool_decide (RawResult.url r ∈ seenRaw)
      then dedup seenRaw rest
      else r :: dedup ({[RawResult.url r]} ∪ seenRaw) rest
  end.

(** The callback of [unique.map]. *)
Definition annotate `{Runtime} (log : list ApplicationEntry.t)
    (seenUrls : gset string) (now : Z) (r : RawResult.t)
  : DiscoveryResult.t :=
  let alreadySeen := bool_decide (RawResult.url r ∈ seenUrls) in
  let logEntry :=
    if alreadySeen then
      List.find (fun e => String.eqb (ApplicationEntry.url e) (RawResult.url r))
        log
    else None in
  let seenDaysAgo :=
    match logEntry with
    | Some e =>
        Some (floor_div
                (minus_time now (Date_getTime (ApplicationEntry.date e)))
                86400000)
    | None => None
    end in
  {| DiscoveryResult.url := RawResult.url r;
     DiscoveryResult.title := RawResult.title r;
     DiscoveryResult.company := extractCompany (RawResult.title r);
     DiscoveryResult.site := RawResult.site r;
     DiscoveryResult.snippet := RawResult.snippet r;
     DiscoveryResult.age_days := nullish (RawResult.age_days r);
     DiscoveryResult.has_salary :=
       hasSalary (RawResult.title r +:+ " " +:+ RawResult.snippet r);
     DiscoveryResult.ghost_preflag :=
       isGhostPreflag (RawResult.title r) (RawResult.snippet r);
     DiscoveryResult.already_seen := alreadySeen;
     DiscoveryResult.seen_days_ago := seenDaysAgo |}.

(** What [discoverJobs] does with [raw] once the loop is over. *)
Definition aggregate `{Runtime} (log : list ApplicationEntry.t) (now : Z)
    (raw : list RawResult.t) : list DiscoveryResult.t :=
  let seenUrls : gset string := list_to_set (ApplicationEntry.url <$> log) in
  let unique := dedup ∅ raw in
  annotate log seenUrls now <$> unique.

(** [discoverJobs]; [log] is what [loadLog()] returns, [now] what the clock
    shows, [net] what the network answers. *)
Definition discoverJobs `{Runtime} (log : list ApplicationEntry.t)
    (net : Network) (now : Z) (keywords sites : list string)
  : list DiscoveryResult.t * list Event :=
  let '(raw, ev) := gather net now keywords sites in
  (aggregate log now raw, ev).

End Scout.

(* ===================================================================== *)
(** ** src/config/userConfig.ts *)
(* ===================================================================== *)

Module Config.

(** The file [jobhunter.config.json] as [loadConfig] finds it. *)
Inductive ConfigFile : Type :=
| Absent                              (* existsSync is false *)
| Unusable                            (* reading or JSON.parse throws *)
| Parsed (c : UserConfig.t).

(** [loadConfig] *)
Definition loadConfig (file : ConfigFile) : UserConfig.t :=
  match file with
  | Absent => UserConfig.empty
  | Unusable => UserConfig.empty
  | Parsed c => c
  end.

Definition work_mode_name (m : WorkMode) : string :=
  match m with
  | remote => "remote"
  | hybrid => "hybrid"
  | onsite => "onsite"
  | any => "any"
  end.

(** [keywords[config.work_mode] ?? []] *)
Definition work_mode_keywords (m : WorkMode) : list string :=
  match m with
  | remote => ["remote"; "zdaln"; "home office"; "work from home"]
  | hybrid => ["hybrid"; "hybrydow"]
  | onsite => ["on-site"; "onsite"; "in office"; "stacjonarnie"; "biuro"]
  | any => []
  end.

Definition salaryKw : list string :=
  ["salary"; "wynagrodzenie"; "zł"; "pln"; "eur"; "usd"; "b2b"; "uop"; "umowa"].

(** [posting_age_days <= max] on a number that may be NaN *)
Definition age_le (age : jsnum) (max : Z) : bool :=
  match age with
  | Num a => Z.leb a max
  | NaN => false
  end.

(** [evaluateFilters]: every [let checks] is one [if] with its [push]. *)
Definition evaluateFilters `{Runtime} (config : UserConfig.t)
    (result : AnalysisResult.t)
    (jdText : string) (posting_age_days : option jsnum)
  : list FilterCheck.t :=
  let checks : list FilterCheck.t := [] in
  let checks :=
    match UserConfig.min_match_score config with
    | Some min_match_score =>
        let pass := Z.geb (AnalysisResult.match_score result) min_match_score in
        checks ++
        [FilterCheck.mk "Match Score" pass
           (Z_to_string (AnalysisResult.match_score result) +:+ " "
            +:+ (if pass then "≥" else "<") +:+ " "
            +:+ Z_to_string min_match_score)]
    | None => checks
    end in
  let checks :=
    match UserConfig.max_ghost_score config with
    | Some max_ghost_score =>
        let pass := Z.leb (AnalysisResult.ghost_score result) max_ghost_score in
        checks ++
        [FilterCheck.mk "Ghost Risk" pass
           (Z_to_string (AnalysisResult.ghost_score result) +:+ " "
            +:+ (if pass then "≤" else ">") +:+ " "
            +:+ Z_to_string max_ghost_score)]
    | None => checks
    end in
  let checks :=
    match UserConfig.max_age_days config with
    | Some max_age_days =>
        let pass :=
          match posting_age_days with
          | None => true
          | Some age => age_le age max_age_days
          end in
        checks ++
        [FilterCheck.mk "Freshness" pass
           match posting_age_days with
           | None => "Posting date unknown — cannot verify"
           | Some age =>
               jsnum_to_string age +:+ "d " +:+ (if pass then "≤" else ">")
               +:+ " " +:+ Z_to_string max_age_days +:+ "d"
           end]
    | None => checks
    end in
  let checks :=
    match UserConfig.work_mode config with
    | Some any => checks
    | Some work_mode =>
        let jdLower := toLowerCase jdText in
        let kws := work_mode_keywords work_mode in
        let found := List.find (fun k => includes jdLower k) kws in
        let pass := bool_decide (is_Some found) in
        checks ++
        [FilterCheck.mk "Work Mode" pass
           (if pass then work_mode_name work_mode +:+ " detected"
            else work_mode_name work_mode +:+ " required, not found in JD")]
    | None => checks
    end in
  let checks :=
    match UserConfig.require_salary config with
    | Some true =>
        let jdLower := toLowerCase jdText in
        let pass := existsb (fun k => includes jdLower k) salaryKw in
        checks ++
        [FilterCheck.mk "Salary Visible" pass
           (if pass then "Salary information detected in JD"
            else "No salary information found")]
    | _ => checks
    end in
  let checks :=
    match UserConfig.role_keywords config with
    | Some (k0 :: ks) =>
        let role_keywords := k0 :: ks in
        let jdLower := toLowerCase jdText in
        let matched :=
          List.filter (fun k => includes jdLower (toLowerCase k))
            role_keywords in
        let pass := Nat.ltb 0 (length matched) in
        checks ++
        [FilterCheck.mk "Role Keywords" pass
           (if pass then "Matched: " +:+ join ", " matched
            else "None of [" +:+ join ", " role_keywords +:+ "] found in JD")]
    | _ => checks
    end in
  checks.

End Config.

(* ===================================================================== *)
(** ** src/analyzer/claude.ts *)
(* ===================================================================== *)

Module Analyzer.

(** What [client.messages.create] can throw: an [APIError] of the SDK, whose
    [status] is absent on connection errors, or anything else. *)
Inductive Failure : Type :=
| APIError (status : option Z)
| OtherError (message : string).

(** What the retry executor does, in order. *)
Inductive Step : Type :=
| Attempt (n : nat)                   (* the call client.messages.create *)
| Wait (ms : Z).                      (* setTimeout(r, delay) *)

Definition RETRY_DELAYS_MS : list Z := [30000; 60000; 120000].

Definition isOverloaded (err : Failure) : bool :=
  match err with
  | APIError (Some status) => Z.eqb status 529
  | _ => false
  end.

Section Retry.
(** the answer type of the wrapped call *)
Context {Message : Type}.
(** [create n]: how the call issued at attempt [n] ends *)
Variable create : nat -> outcome Message Failure.

(** The [for] loop from [attempt] on; [turns] counts the turns left before
    [attempt] exceeds [RETRY_DELAYS_MS.length]. *)
Fixpoint retry_loop (turns attempt : nat)
  : outcome Message Failure * list Step :=
  match turns with
  | O => (Thrown (OtherError "Unreachable"), [])
  | S turns' =>
      match create attempt with
      | Returned m => (Returned m, [Attempt attempt])
      | Thrown err =>
          if isOverloaded err
             && Nat.ltb attempt (length RETRY_DELAYS_MS) then
            let delay := default 0 (RETRY_DELAYS_MS !! attempt) in
            let '(r, steps) := retry_loop turns' (S attempt) in
            (r, Attempt attempt :: Wait delay :: steps)
          else (Thrown err, [Attempt attempt])
      end
  end.

(** [callWithRetry] *)
Definition callWithRetry : outcome Message Failure * list Step :=
  retry_loop (S (length RETRY_DELAYS_MS)) 0.
End Retry.

(** The milliseconds spent waiting. *)
Fixpoint total_wait (steps : list Step) : Z :=
  match steps with
  | [] => 0
  | Wait ms :: rest => ms + total_wait rest
  | Attempt _ :: rest => total_wait rest
  end.

Fixpoint attempts_made (steps : list Step) : nat :=
  match steps with
  | [] => 0
  | Attempt _ :: rest => S (attempts_made rest)
  | Wait _ :: rest => attempts_made rest
  end.

End Analyzer.

(* ===================================================================== *)
(** ** src/server.ts: GET /api/scout *)
(* ===================================================================== *)

Module Server.

Inductive Response : Type :=
| Json (results : list DiscoveryResult.t)       (* res.json(results) *)
| Error (status : Z) (error : string).          (* res.status(..).json({error}) *)

Definition dq : string := String (ascii_of_nat 34) EmptyString.

Definition missing_sites_msg : string :=
  "Add " +:+ dq +:+ "search_sites" +:+ dq
  +:+ " to jobhunter.config.json first (e.g. [" +:+ dq +:+ "nofluffjobs.com"
  +:+ dq +:+ ", " +:+ dq +:+ "pracuj.pl" +:+ dq +:+ "])".

Definition missing_keywords_msg : string :=
  "Add " +:+ dq +:+ "role_keywords" +:+ dq
  +:+ " to jobhunter.config.json first".

(** [!list?.length] *)
Definition no_length {A : Type} (l : option (list A)) : bool :=
  match l with
  | Some (_ :: _) => false
  | _ => true
  end.

(** The handler of GET /api/scout.  The modelled [discoverJobs] throws
    nothing, so the [catch] that answers 500 has no case here. *)
Definition scout_handler `{Runtime} (file : Config.ConfigFile)
    (log : list ApplicationEntry.t) (net : Scout.Network) (now : Z)
  : Response * list Event :=
  let config := Config.loadConfig file in
  if no_length (UserConfig.search_sites config) then
    (Error 400 missing_sites_msg, [])
  else if no_length (UserConfig.role_keywords config) then
    (Error 400 missing_keywords_msg, [])
  else
    let '(results, ev) :=
      Scout.discoverJobs log net now
        (default [] (UserConfig.role_keywords config))
        (default [] (UserConfig.search_sites config)) in
    (Json results, ev).

End Server.

(* ===================================================================== *)
(** ** A host for the examples *)
(* ===================================================================== *)

Module Host.

Definition digit_val (c : ascii) : option Z :=
  if is_digit c then Some (Z.of_nat (nat_of_ascii c) - 48) else None.

Fixpoint digits_val (acc : Z) (s : string) : option Z :=
  match s with
  | EmptyString => Some acc
  | String c r =>
      match digit_val c with
      | Some d => digits_val (10 * acc + d) r
      | None => None
      end
  end.

Definition is_leap (y : Z) : bool :=
  (Z.eqb (y mod 4) 0 && negb (Z.eqb (y mod 100) 0)) || Z.eqb (y mod 400) 0.

Definition days_in_month (y m : Z) : Z :=
  if Z.eqb m 2 then (if is_leap y then 29 else 28)
  else if Z.eqb m 4 || Z.eqb m 6 || Z.eqb m 9 || Z.eqb m 11 then 30
  else 31.

(** Days from 1970-01-01 to the civil date [y-m-d]. *)
Definition days_from_civil (y m d : Z) : Z :=
  let y' := if Z.leb m 2 then y - 1 else y in
  let era := y' / 400 in
  let yoe := y' - era * 400 in
  let mp := (m + 9) mod 12 in
  let doy := (153 * mp + 2) / 5 + d - 1 in
  let doe := yoe * 365 + yoe / 4 - yoe / 100 + doy in
  era * 146097 + doe - 719468.

(** The date-only form [YYYY-MM-DD], read as midnight UTC; anything else
    is an invalid date. *)
Definition iso_date_ms (s : string) : option Z :=
  match s with
  | String y1 (String y2 (String y3 (String y4 (String "-"
      (String m1 (String m2 (String "-" (String d1 (String d2
        EmptyString))))))))) =>
      y ← digits_val 0 (String y1 (String y2 (String y3 (String y4 ""))));
      m ← digits_val 0 (String m1 (String m2 ""));
      d ← digits_val 0 (String d1 (String d2 ""));
      if Z.leb 1 m && Z.leb m 12 && Z.leb 1 d && Z.leb d (days_in_month y m)
      then Some (days_from_civil y m d * 86400000)
      else None
  | _ => None
  end.

Fixpoint until_delim (s : string) : string :=
  match s with
  | EmptyString => EmptyString
  | String c r =>
      if Ascii.eqb c "/" || Ascii.eqb c ":" || Ascii.eqb c "?"
         || Ascii.eqb c "#"
      then EmptyString
      else String (lower_char c) (until_delim r)
  end.

Fixpoint after_scheme (s : string) : option string :=
  match after_literal false "://" s with
  | Some r => Some r
  | None =>
      match s with
      | EmptyString => None
      | String _ r => after_scheme r
      end
  end.

(** The host of [scheme://host...]; no host, no URL. *)
Definition simple_hostname (s : string) : option string :=
  match after_scheme s with
  | Some r =>
      match until_delim r with
      | EmptyString => None
      | h => Some h
      end
  | None => None
  end.

(** The host of the examples folds the letters A to Z only. *)
Definition host : Runtime := {|
  Date_getTime := iso_date_ms;
  URL_hostname := simple_hostname;
  toLowerCase := lower_ascii
|}.

End Host.

(* ===================================================================== *)
(** ** src/log/appLog.ts *)
(* ===================================================================== *)

Inductive Verdict : Type := go | maybe | skip.

Inductive ApplicationStatus : Type :=
| new | applied | phone_screen | interview | offer | rejected.

#[export] Instance ApplicationStatus_eq_dec : EqDecision ApplicationStatus.
Proof. solve_decision. Defined.

(** [interface ApplicationEntry] with all its fields; [ApplicationEntry.t]
    above is what discovery reads of it. *)
Module StoredEntry.
Record t : Type := mk {
  id : string;
  company : string;
  role : string;
  url : string;
  date : string;
  match_score : Z;
  go_no_go : Verdict;
  report_file : string;
  cv_variant : option string;
  ghost_score : Z;
  posting_date : option string;
  posting_age_days : option jsnum;
  status : option ApplicationStatus;
  salary : option string
}.
End StoredEntry.

Module AppLog.

(** The file data/applications.json as [loadLog] finds it. *)
Inductive LogFile : Type :=
| NoFile                                (* existsSync is false *)
| Garbled                               (* JSON.parse throws *)
| Stored (entries : list StoredEntry.t).

(** What [JSON.stringify] keeps of a number: NaN is written as null. *)
Definition json_number (x : option jsnum) : option jsnum :=
  match x with
  | Some NaN => None
  | _ => x
  end.

(** An entry as it is read back once written. *)
Definition json_entry (e : StoredEntry.t) : StoredEntry.t :=
  {| StoredEntry.id := StoredEntry.id e;
     StoredEntry.company := StoredEntry.company e;
     StoredEntry.role := StoredEntry.role e;
     StoredEntry.url := StoredEntry.url e;
     StoredEntry.date := StoredEntry.date e;
     StoredEntry.match_score := StoredEntry.match_score e;
     StoredEntry.go_no_go := StoredEntry.go_no_go e;
     StoredEntry.report_file := StoredEntry.report_file e;
     StoredEntry.cv_variant := StoredEntry.cv_variant e;
     StoredEntry.ghost_score := StoredEntry.ghost_score e;
     StoredEntry.posting_date := StoredEntry.posting_date e;
     StoredEntry.posting_age_days :=
       json_number (StoredEntry.posting_age_days e);
     StoredEntry.status := StoredEntry.status e;
     StoredEntry.salary := StoredEntry.salary e |}.

(** [fs.writeFileSync(LOG_PATH, JSON.stringify(entries, null, 2))] *)
Definition write (entries : list StoredEntry.t) : LogFile :=
  Stored (json_entry <$> entries).

(** [loadLog] *)
Definition loadLog (file : LogFile) : list StoredEntry.t :=
  match file with
  | NoFile => []
  | Garbled => []
  | Stored entries => entries
  end.

(** [logApplication]: the file it leaves. *)
Definition logApplication (entry : StoredEntry.t) (file : LogFile) : LogFile :=
  let entries := loadLog file in
  write (entries ++ [entry]).

(** [entries.findIndex((e) => e.id === id)], [None] for -1 *)
Fixpoint findIndex (id : string) (entries : list StoredEntry.t) : option nat :=
  match entries with
  | [] => None
  | e :: rest =>
      if String.eqb (StoredEntry.id e) id then Some 0%nat
      else S <$> findIndex id rest
  end.

(** [{ ...entry, ...updates }] with [updates = { status }] *)
Definition with_status (status : ApplicationStatus) (e : StoredEntry.t)
  : StoredEntry.t :=
  {| StoredEntry.id := StoredEntry.id e;
     StoredEntry.company := StoredEntry.company e;
     StoredEntry.role := StoredEntry.role e;
     StoredEntry.url := StoredEntry.url e;
     StoredEntry.date := StoredEntry.date e;
     StoredEntry.match_score := StoredEntry.match_score e;
     StoredEntry.go_no_go := StoredEntry.go_no_go e;
     StoredEntry.report_file := StoredEntry.report_file e;
     StoredEntry.cv_variant := StoredEntry.cv_variant e;
     StoredEntry.ghost_score := StoredEntry.ghost_score e;
     StoredEntry.posting_date := StoredEntry.posting_date e;
     StoredEntry.posting_age_days := StoredEntry.posting_age_days e;
     StoredEntry.status := Some status;
     StoredEntry.salary := StoredEntry.salary e |}.

(** [updateEntry]: what it returns and the file it leaves. *)
Definition updateEntry (id : string) (status : ApplicationStatus)
    (file : LogFile) : bool * LogFile :=
  let entries := loadLog file in
  match findIndex id entries with
  | None => (false, file)
  | Some idx =>
      (true, write (alter (with_status status) idx entries))
  end.

(** What discovery reads of a stored entry. *)
Definition history_entry (e : StoredEntry.t) : ApplicationEntry.t :=
  {| ApplicationEntry.id := StoredEntry.id e;
     ApplicationEntry.company := StoredEntry.company e;
     ApplicationEntry.role := StoredEntry.role e;
     ApplicationEntry.url := StoredEntry.url e;
     ApplicationEntry.date := StoredEntry.date e |}.

End AppLog.

(* ===================================================================== *)
(** ** src/server.ts: the other routes *)
(* ===================================================================== *)

Module Routes.

Definition status_name (s : ApplicationStatus) : string :=
  match s with
  | new => "new"
  | applied => "applied"
  | phone_screen => "phone_screen"
  | interview => "interview"
  | offer => "offer"
  | rejected => "rejected"
  end.

Definition VALID_STATUSES : list ApplicationStatus :=
  [new; applied; phone_screen; interview; offer; rejected].

(** The status of [VALID_STATUSES] that a string names, if any. *)
Definition valid_status (status : string) : option ApplicationStatus :=
  List.find (fun s => String.eqb (status_name s) status) VALID_STATUSES.

Inductive PatchResponse : Type :=
| PatchOk                                     (* res.json({ ok: true }) *)
| PatchError (status : Z) (error : string)
| PatchThrows.            (* the handler throws; Express answers 500 *)

(** The handler of PATCH /api/applications/:id.  [body] is [req.body]:
    [None] when the request carried no body that [express.json()] parsed,
    so that [req.body] is undefined and reading [status] from it throws a
    TypeError; otherwise the field [status] of the body, [None] when it is
    absent or is no string (no such value is in [VALID_STATUSES]). *)
Definition patch_handler (id : string) (body : option (option string))
    (file : AppLog.LogFile) : PatchResponse * AppLog.LogFile :=
  match body with
  | None => (PatchThrows, file)
  | Some None => (PatchError 400 "Invalid status", file)
  | Some (Some s) =>
      if negb (Scout.nonempty s) then (PatchError 400 "Invalid status", file)
      else
      match valid_status s with
      | None => (PatchError 400 "Invalid status", file)
      | Some st =>
          match AppLog.updateEntry id st file with
          | (true, file') => (PatchOk, file')
          | (false, file') => (PatchError 404 "Application not found", file')
          end
      end
  end.

(** [computeAgeDays] of server.ts and index.ts; [today] is the local
    midnight that [new Date().setHours(0, 0, 0, 0)] returns. *)
Definition computeAgeDays `{Runtime} (today : Z) (postingDate : option string)
  : option jsnum :=
  match postingDate with
  | None => None
  | Some s =>
      if negb (Scout.nonempty s) then None
      else Some (floor_div (minus_time today (Date_getTime s)) 86400000)
  end.

End Routes.

(* ===================================================================== *)
(** ** src/report/htmlReport.ts *)
(* ===================================================================== *)

Module Report.

Definition dquote : ascii := ascii_of_nat 34.
Definition squote : ascii := ascii_of_nat 39.

(** [s.replace(/c/g, by)] for a single character [c] *)
Fixpoint replace_char (c : ascii) (by_ : string) (s : string) : string :=
  match s with
  | EmptyString => EmptyString
  | String d r =>
      if Ascii.eqb d c then by_ +:+ replace_char c by_ r
      else String d (replace_char c by_ r)
  end.

(** [escapeHtml] *)
Definition escapeHtml (str : string) : string :=
  replace_char squote "&#39;"
    (replace_char dquote "&quot;"
       (replace_char ">" "&gt;"
          (replace_char "<" "&lt;"
             (replace_char "&" "&amp;" str)))).

(** [esc] of the page script in server.ts *)
Definition esc (s : string) : string :=
  replace_char dquote "&quot;"
    (replace_char ">" "&gt;"
       (replace_char "<" "&lt;"
          (replace_char "&" "&amp;" s))).

(** [scoreColor] *)
Definition scoreColor (score : Z) : string :=
  if Z.geb score 75 then "#22c55e"
  else if Z.geb score 60 then "#f59e0b"
  else "#ef4444".

(** [ghostScoreColor] *)
Definition ghostScoreColor (score : Z) : string :=
  if Z.ltb score 30 then "#22c55e"
  else if Z.ltb score 60 then "#f59e0b"
  else "#ef4444".

(** [ageColor] *)
Definition ageColor (days : option Z) : string :=
  match days with
  | None => "#64748b"
  | Some d =>
      if Z.leb d 3 then "#22c55e"
      else if Z.leb d 7 then "#f59e0b"
      else "#ef4444"
  end.

Definition is_slug_char (c : ascii) : bool := is_lower c || is_digit c.

(** [.replace(/[^a-z0-9]+/g, '-')]; [in_run] holds inside a run. *)
Fixpoint hyphenate (in_run : bool) (s : string) : string :=
  match s with
  | EmptyString => EmptyString
  | String c r =>
      if is_slug_char c then String c (hyphenate false r)
      else if in_run then hyphenate true r
      else String "-" (hyphenate true r)
  end.

(** what [/^-/] removes *)
Definition strip_leading_hyphen (s : string) : string :=
  match s with
  | String c r => if Ascii.eqb c "-" then r else s
  | EmptyString => EmptyString
  end.

(** what [/-$/] removes *)
Fixpoint strip_trailing_hyphen (s : string) : string :=
  match s with
  | EmptyString => EmptyString
  | String c EmptyString => if Ascii.eqb c "-" then EmptyString else s
  | String c r => String c (strip_trailing_hyphen r)
  end.

(** The slug of [generateReport], also computed in server.ts and index.ts:
    [company.toLowerCase().replace(/[^a-z0-9]+/g, '-').replace(/^-|-$/g, '')] *)
Definition slug `{Runtime} (company : string) : string :=
  strip_trailing_hyphen
    (strip_leading_hyphen (hyphenate false (toLowerCase company))).

(** The name of the report file in the output directory. *)
Definition report_name `{Runtime} (company date : string) : string :=
  "report-" +:+ slug company +:+ "-" +:+ date +:+ ".html".

End Report.

(* ===================================================================== *)
(** ** src/parsers/jdScraper.ts *)
(* ===================================================================== *)

Module Scraper.

(** [s] has the characters the pattern asks for: a digit where [true]
    stands, a hyphen where [false] stands. *)
Fixpoint fits (pattern : list bool) (s : string) : bool :=
  match pattern, s with
  | [], EmptyString => true
  | true :: pattern', String c r => is_digit c && fits pattern' r
  | false :: pattern', String c r => Ascii.eqb c "-" && fits pattern' r
  | _, _ => false
  end.

(** [\d{4}-\d{2}-\d{2}] *)
Definition date_pattern : list bool :=
  [true; true; true; true; false; true; true; false; true; true].

Definition date_here (s : string) : option string :=
  let d := slice0 10 s in
  if fits date_pattern d then Some d else None.

(** [normalizeDate]: [raw.match(/\d{4}-\d{2}-\d{2}/)] *)
Fixpoint normalizeDate (raw : string) : option string :=
  match date_here raw with
  | Some d => Some d
  | None =>
      match raw with
      | EmptyString => None
      | String _ r => normalizeDate r
      end
  end.

(** One JSON-LD block of the page, as [extractPostingDate] reads it. *)
Inductive LdDate : Type :=
| LdUnparsable                        (* JSON.parse throws *)
| LdNoDate                            (* datePosted is not a string *)
| LdDatePosted (datePosted : string).

(** What the page holds: the JSON-LD blocks in order, the attributes the
    date is looked for in ([None] when the element or attribute is
    missing), the text of the elements each selector of [scrapeJD] finds
    once the noise is removed ([None] when it finds none), the text of the
    body. *)
Record Page : Type := {
  ld_blocks : list LdDate;
  og_published_time : option string;
  time_datetime : option string;
  meta_date : option string;
  selected : list (option string);
  body_text : string
}.

(** The [.each] over the JSON-LD blocks, [found] being what it holds. *)
Fixpoint ld_each (found : option string) (blocks : list LdDate)
  : option string :=
  match blocks with
  | [] => found
  | block :: rest =>
      match found with
      | Some _ => ld_each found rest
      | None =>
          match block with
          | LdDatePosted datePosted => ld_each (normalizeDate datePosted) rest
          | _ => ld_each None rest
          end
      end
  end.

(** [if (attr) { const d = normalizeDate(attr); if (d) return d; }] *)
Definition date_of_attr (attr : option string) : option string :=
  match attr with
  | Some s => if Scout.nonempty s then normalizeDate s else None
  | None => None
  end.

(** [extractPostingDate] *)
Definition extractPostingDate (page : Page) : option string :=
  match ld_each None (ld_blocks page) with
  | Some found => Some found
  | None =>
      match date_of_attr (og_published_time page) with
      | Some d => Some d
      | None =>
          match date_of_attr (time_datetime page) with
          | Some d => Some d
          | None =>
              match date_of_attr (meta_date page) with
              | Some d => Some d
              | None => None
              end
          end
      end
  end.

(** [.replace(/\s+/g, ' ').trim()] *)
Definition squash (text : string) : string :=
  trim (Scout.collapse_spaces text).

(** The loop over the selectors: the text returned inside it, if any. *)
Fixpoint first_long_text (texts : list (option string)) : option string :=
  match texts with
  | [] => None
  | Some raw :: rest =>
      let text := squash raw in
      if Nat.ltb 200 (units text) then Some (slice_to 15000 text)
      else first_long_text rest
  | None :: rest => first_long_text rest
  end.

Record ScrapeResult : Type := {
  text : string;
  posting_date : option string
}.

(** [scrapeJD] on the page a successful request returns. *)
Definition scrapeJD (page : Page) : ScrapeResult :=
  let posting_date := extractPostingDate page in
  match first_long_text (selected page) with
  | Some text => {| text := text; posting_date := posting_date |}
  | None =>
      {| text := slice_to 10000 (squash (body_text page));
         posting_date := posting_date |}
  end.

End Scraper.

(* ===================================================================== *)
(** ** src/parsers/cvParser.ts *)
(* ===================================================================== *)

Module CvParser.

Definition LF : ascii := ascii_of_nat 10.
Definition CR : ascii := ascii_of_nat 13.
Definition TAB : ascii := ascii_of_nat 9.

(** [.replace(/\r\n/g, '\n')] *)
Fixpoint crlf_to_lf (s : string) : string :=
  match s with
  | EmptyString => EmptyString
  | String c r =>
      match r with
      | String d r' =>
          if Ascii.eqb c CR && Ascii.eqb d LF then String LF (crlf_to_lf r')
          else String c (crlf_to_lf r)
      | EmptyString => String c EmptyString
      end
  end.

(** [.replace(/\n{3,}/g, '\n\n')]; [run] counts the line feeds just
    passed. *)
Fixpoint squeeze_newlines (run : nat) (s : string) : string :=
  match s with
  | EmptyString => EmptyString
  | String c r =>
      if Ascii.eqb c LF then
        if Nat.ltb run 2 then String c (squeeze_newlines (S run) r)
        else squeeze_newlines (S run) r
      else String c (squeeze_newlines 0 r)
  end.

Definition is_blank (c : ascii) : bool := Ascii.eqb c " " || Ascii.eqb c TAB.

(** [.replace(/[ \t]+/g, ' ')]; [in_run] holds inside a run. *)
Fixpoint collapse_blanks (in_run : bool) (s : string) : string :=
  match s with
  | EmptyString => EmptyString
  | String c r =>
      if is_blank c then
        if in_run then collapse_blanks true r
        else String " " (collapse_blanks true r)
      else String c (collapse_blanks false r)
  end.

(** What [parsePDF] makes of the text the PDF parser extracts. *)
Definition clean_text (text : string) : string :=
  trim (collapse_blanks false (squeeze_newlines 0 (crlf_to_lf text))).

End CvParser.

(* ===================================================================== *)
(** ** Vocabulary of the specification *)
(* ===================================================================== *)

Module Spec.

(** [sep] is the literal [lit], letter case set aside when [ci] holds. *)
Fixpoint literal_eq (ci : bool) (lit sep : string) : bool :=
  match lit, sep with
  | EmptyString, EmptyString => true
  | String a lit', String b sep' => char_eq ci a b && literal_eq ci lit' sep'
  | _, _ => false
  end.

(** A character that ends a line: LF, CR, U+2028 or U+2029. *)
Definition line_end (c : string) : Prop := c ∈ utf8 <$> line_terminators.

(** A white-space character: one of [white_space], or a line end. *)
Definition white (c : string) : Prop :=
  c ∈ utf8 <$> white_space ∨ line_end c.

(** A title that follows a convention: it ends with the separator and a
    company name of [lo] to [hi] code units on the same line. *)
Definition convention (ci : bool) (lit : string) (lo hi : nat)
    (title company : string) : Prop :=
  ∃ pre sep,
    title = pre +:+ sep +:+ company
    ∧ literal_eq ci lit sep = true
    ∧ (lo ≤ units company ≤ hi)%nat
    ∧ Forall (fun c => ¬ line_end c) (chars company).

(** [c] is [g] with the white space at both ends removed: what stands
    before and after [c] in [g] is white space, and [c] neither begins
    nor ends with a white-space character. *)
Definition trimmed (g c : string) : Prop :=
  ∃ l r,
    chars g = l ++ chars c ++ r
    ∧ g = glue l +:+ c +:+ glue r
    ∧ Forall white l ∧ Forall white r
    ∧ (∀ w rest, chars c = w :: rest → ¬ white w)
    ∧ (∀ pre w, chars c = pre ++ [w] → ¬ white w).

(** "Title @ Company" *)
Definition at_sign : string -> string -> Prop := convention false " @ " 2 60.
(** "Title at Company", in any letter case *)
Definition at_word : string -> string -> Prop := convention true " at " 2 40.
(** "Title | Company" *)
Definition pipe : string -> string -> Prop := convention false "|" 2 40.

(** The company a convention captures: the one after its first separator
    that fits, which is the longest. *)
Definition captured (conv : string -> string -> Prop)
    (title company : string) : Prop :=
  conv title company
  ∧ ∀ other, conv title other →
      (String.length other ≤ String.length company)%nat.

(** The six filter rules, in the order of the specification. *)
Inductive Rule : Type :=
| MatchScore | GhostRisk | Freshness | WorkModeRule | SalaryVisible
| RoleKeywords.

Definition rule_order : list Rule :=
  [MatchScore; GhostRisk; Freshness; WorkModeRule; SalaryVisible;
   RoleKeywords].

Definition rule_name (r : Rule) : string :=
  match r with
  | MatchScore => "Match Score"
  | GhostRisk => "Ghost Risk"
  | Freshness => "Freshness"
  | WorkModeRule => "Work Mode"
  | SalaryVisible => "Salary Visible"
  | RoleKeywords => "Role Keywords"
  end.

(** The rule a configuration activates. *)
Definition activated (c : UserConfig.t) (r : Rule) : bool :=
  match r with
  | MatchScore => bool_decide (UserConfig.min_match_score c ≠ None)
  | GhostRisk => bool_decide (UserConfig.max_ghost_score c ≠ None)
  | Freshness => bool_decide (UserConfig.max_age_days c ≠ None)
  | WorkModeRule =>
      bool_decide (UserConfig.work_mode c ≠ None
                   ∧ UserConfig.work_mode c ≠ Some any)
  | SalaryVisible => bool_decide (UserConfig.require_salary c = Some true)
  | RoleKeywords =>
      bool_decide (UserConfig.role_keywords c ≠ None
                   ∧ UserConfig.role_keywords c ≠ Some [])
  end.

(** A call that ends with the overload signal: an [APIError] of status 529. *)
Definition overloaded {Message : Type}
    (o : outcome Message Analyzer.Failure) : Prop :=
  o = Thrown (Analyzer.APIError (Some 529)).

(** The delays of the specification, in milliseconds. *)
Definition backoff : list Z := [30 * 1000; 60 * 1000; 120 * 1000].

(** What an executor that needs [n] retries does: attempt, wait, attempt,
    ..., with the delays of [backoff] in that order. *)
Fixpoint plan_from (delays : list Z) (k n : nat) : list Analyzer.Step :=
  match n, delays with
  | S n', d :: delays' =>
      Analyzer.Attempt k :: Analyzer.Wait d :: plan_from delays' (S k) n'
  | _, _ => [Analyzer.Attempt k]
  end.

Definition plan (n : nat) : list Analyzer.Step := plan_from backoff 0 n.

(** What a meta-search instance yields: its results when the request
    succeeds and carries at least one, nothing otherwise (time-out, non-2xx
    answer, malformed body, empty result list). *)
Definition yields (r : Scout.Reply) : option (list Scout.SearxHit) :=
  match r with
  | Scout.Answered b =>
      match Scout.searx_data b with
      | Scout.SearxHits (hit :: more) => Some (hit :: more)
      | _ => None
      end
  | Scout.Failed _ => None
  end.

(** The listing made of one result of an instance: its url, title and
    content, an absent field read as the empty string, under the site
    that was asked for and with no age. *)
Definition listing_of (site : string) (hit : Scout.SearxHit) : RawResult.t :=
  {| RawResult.url := default "" (Scout.hit_url hit);
     RawResult.title := default "" (Scout.hit_title hit);
     RawResult.snippet := default "" (Scout.hit_content hit);
     RawResult.site := site;
     RawResult.age_days := None |}.

(** The request sent to a meta-search instance. *)
Definition search_request (instance : string) : Event :=
  Get (instance +:+ "/search").

(** The outcome of the adapter of the site at position [i]: the feed and
    the JSON-LD adapter read the first answer the network gives for that
    position, the meta-search reads one answer for each instance it
    asks. *)
Definition adapter_outcome `{Runtime} (net : Scout.Network) (now : Z)
    (keywords : list string) (i : nat) (rawSite : string)
  : outcome (list RawResult.t) string :=
  let site := Scout.normalizeSite rawSite in
  if decide (site = "nofluffjobs.com") then
    fst (Scout.fetchNoFluffJobsRSS (net i 0%nat) now keywords)
  else if decide (site = "justjoin.it") then
    fst (Scout.fetchJustJoinIt (net i 0%nat) keywords)
  else Returned (fst (Scout.searchViaSearXNG (net i) site keywords)).

(** What the site at position [i] contributes to the run: the listings
    of its adapter, none when the adapter throws. *)
Definition contribution `{Runtime} (net : Scout.Network) (now : Z)
    (keywords : list string) (i : nat) (rawSite : string)
  : list RawResult.t :=
  match adapter_outcome net now keywords i rawSite with
  | Returned results => results
  | Thrown _ => []
  end.

(** What the site at position [i] adds to the listings and to the events. *)
Definition site_step `{Runtime} (net : Scout.Network) (now : Z)
    (keywords : list string) (i : nat) (rawSite : string)
  : list RawResult.t * list Event :=
  Scout.visit_site net now keywords i rawSite ([], []).

(** The sites whose adapter was run to its end, told by the line the
    aggregator prints or the warning it issues for each. *)
Definition visited (ev : list Event) : list string :=
  omap (fun e => match e with
                 | Log site _ => Some site
                 | Warn site _ => Some site
                 | _ => None
                 end) ev.

(** The distinct elements of a list, each at the place of its first
    occurrence. *)
Fixpoint first_seen (urls : list string) : list string :=
  match urls with
  | [] => []
  | u :: rest => u :: filter (fun v => v ≠ u) (first_seen rest)
  end.

(** [i] is the position of the first occurrence of [u]. *)
Definition first_at (urls : list string) (u : string) (i : nat) : Prop :=
  urls !! i = Some u ∧ ∀ k, (k < i)%nat → urls !! k ≠ Some u.

(** [x] is the first element of [l] whose key is [u]. *)
Definition first_where {A : Type} (key : A → string) (l : list A)
    (u : string) (x : A) : Prop :=
  ∃ i, l !! i = Some x ∧ key x = u
       ∧ ∀ k y, (k < i)%nat → l !! k = Some y → key y ≠ u.

(** The whole days from the instant [t] to the instant [now], both in
    milliseconds: the floor of their difference in days. *)
Definition whole_days (now t : Z) : Z := (now - t) / (24 * 60 * 60 * 1000).

(** No result carries a negative [seen_days_ago]. *)
Definition never_negative (out : list DiscoveryResult.t) : Prop :=
  ∀ d n, d ∈ out → DiscoveryResult.seen_days_ago d = Some (Num n) → 0 ≤ n.

(** A list the configuration does not give, or gives empty. *)
Definition missing_or_empty {A : Type} (l : option (list A)) : Prop :=
  l = None ∨ l = Some [].

(** The feed item [el] with other time stamps. *)
Definition with_dates (el : Scout.RssItem) (pubDate dcDate : string)
  : Scout.RssItem :=
  {| Scout.item_title := Scout.item_title el;
     Scout.item_link := Scout.item_link el;
     Scout.item_guid := Scout.item_guid el;
     Scout.item_description := Scout.item_description el;
     Scout.item_pubDate := pubDate;
     Scout.item_dcDate := dcDate |}.

End Spec.

(* ===================================================================== *)
(** ** A discovery run used in the examples *)
(* ===================================================================== *)

Module Examples.

(** 2026-11-02T12:00:00Z *)
Definition now : Z := 1793620800000.

Definition keywords : list string := ["QA"].

Definition sites : list string :=
  ["nofluffjobs.com"; "https://www.justjoin.it/"; "pracuj.pl"].

(** A feed entry without a publication date. *)
Definition feed_item : Scout.RssItem :=
  {| Scout.item_title := "QA Engineer @ Acme";
     Scout.item_link := "https://nofluffjobs.com/job/qa-acme";
     Scout.item_guid := "";
     Scout.item_description := "<p>Test automation, 15k PLN</p>";
     Scout.item_pubDate := "";
     Scout.item_dcDate := "" |}.

Definition hit (url title : string) : Scout.SearxHit :=
  {| Scout.hit_url := Some url;
     Scout.hit_title := Some title;
     Scout.hit_content := None |}.

Definition hits : list Scout.SearxHit :=
  [hit "https://nofluffjobs.com/job/qa-acme" "QA Engineer @ Acme";
   hit "https://pracuj.pl/praca/qa-1" "QA Specialist | Initech";
   {| Scout.hit_url := None; Scout.hit_title := Some "QA";
      Scout.hit_content := None |}].

Definition body (items : list Scout.RssItem) (found : list Scout.SearxHit)
  : Scout.Body :=
  {| Scout.rss_items := items;
     Scout.ld_scripts := [];
     Scout.searx_data := Scout.SearxHits found |}.

(** The feed answers, justjoin.it times out, the first meta-search instance
    is down and the second one answers. *)
Definition net : Scout.Network :=
  fun i k =>
    match i, k with
    | 0%nat, 0%nat => Scout.Answered (body [feed_item] [])
    | 1%nat, 0%nat => Scout.Failed "timeout of 20000ms exceeded"
    | 2%nat, 0%nat => Scout.Failed "Request failed with status code 502"
    | 2%nat, 1%nat => Scout.Answered (body [] hits)
    | _, _ => Scout.Failed "connect ECONNREFUSED"
    end.

Definition entry (url date : string) : ApplicationEntry.t :=
  {| ApplicationEntry.id := "1793361600000";
     ApplicationEntry.company := "Initech";
     ApplicationEntry.role := "QA Specialist";
     ApplicationEntry.url := url;
     ApplicationEntry.date := date |}.

(** Logged three days before [now]. *)
Definition log : list ApplicationEntry.t :=
  [entry "https://pracuj.pl/praca/qa-1" "2026-10-30"].

(** Logged with a date eight days after [now]. *)
Definition future_log : list ApplicationEntry.t :=
  [entry "https://pracuj.pl/praca/qa-1" "2026-11-10"].

Definition config : UserConfig.t :=
  {| UserConfig.min_match_score := Some 50;
     UserConfig.max_ghost_score := Some 40;
     UserConfig.max_age_days := Some 10;
     UserConfig.require_salary := Some true;
     UserConfig.work_mode := Some remote;
     UserConfig.role_keywords := Some keywords;
     UserConfig.search_sites := Some sites |}.

(** A call that is overloaded twice and then answers. *)
Definition overloaded_twice : nat → outcome string Analyzer.Failure :=
  fun n =>
    if Nat.ltb n 2 then Thrown (Analyzer.APIError (Some 529))
    else Returned "message".

(** A call that is refused. *)
Definition refused : nat → outcome string Analyzer.Failure :=
  fun _ => Thrown (Analyzer.APIError (Some 401)).

(** A call that is always overloaded. *)
Definition always_overloaded : nat → outcome string Analyzer.Failure :=
  fun _ => Thrown (Analyzer.APIError (Some 529)).

(** The listing the feed adapter makes of [feed_item], the same
    address as the meta-search finds it for pracuj.pl, and the result
    [discoverJobs] makes of the first of the two. *)
Definition feed_found : RawResult.t :=
  {| RawResult.url := "https://nofluffjobs.com/job/qa-acme";
     RawResult.title := "QA Engineer @ Acme";
     RawResult.snippet := "Test automation, 15k PLN";
     RawResult.site := "nofluffjobs.com";
     RawResult.age_days := Some (Some NaN) |}.

Definition echo_found : RawResult.t :=
  {| RawResult.url := "https://nofluffjobs.com/job/qa-acme";
     RawResult.title := "QA Engineer @ Acme";
     RawResult.snippet := "";
     RawResult.site := "pracuj.pl";
     RawResult.age_days := None |}.

Definition fresh_result : DiscoveryResult.t :=
  {| DiscoveryResult.url := "https://nofluffjobs.com/job/qa-acme";
     DiscoveryResult.title := "QA Engineer @ Acme";
     DiscoveryResult.company := Some "Acme";
     DiscoveryResult.site := "nofluffjobs.com";
     DiscoveryResult.snippet := "Test automation, 15k PLN";
     DiscoveryResult.age_days := Some NaN;
     DiscoveryResult.has_salary := true;
     DiscoveryResult.ghost_preflag := false;
     DiscoveryResult.already_seen := false;
     DiscoveryResult.seen_days_ago := None |}.

(** The listing the meta-search finds for pracuj.pl, and the result
    [discoverJobs] makes of it with the history [log]. *)
Definition found : RawResult.t :=
  {| RawResult.url := "https://pracuj.pl/praca/qa-1";
     RawResult.title := "QA Specialist | Initech";
     RawResult.snippet := "";
     RawResult.site := "pracuj.pl";
     RawResult.age_days := None |}.

Definition seen_result : DiscoveryResult.t :=
  {| DiscoveryResult.url := "https://pracuj.pl/praca/qa-1";
     DiscoveryResult.title := "QA Specialist | Initech";
     DiscoveryResult.company := Some "Initech";
     DiscoveryResult.site := "pracuj.pl";
     DiscoveryResult.snippet := "";
     DiscoveryResult.age_days := None;
     DiscoveryResult.has_salary := false;
     DiscoveryResult.ghost_preflag := false;
     DiscoveryResult.already_seen := true;
     DiscoveryResult.seen_days_ago := Some (Num 3) |}.

(** The same listing in the run that reads [future_log]. *)
Definition late_result : DiscoveryResult.t :=
  {| DiscoveryResult.url := "https://pracuj.pl/praca/qa-1";
     DiscoveryResult.title := "QA Specialist | Initech";
     DiscoveryResult.company := Some "Initech";
     DiscoveryResult.site := "pracuj.pl";
     DiscoveryResult.snippet := "";
     DiscoveryResult.age_days := None;
     DiscoveryResult.has_salary := false;
     DiscoveryResult.ghost_preflag := false;
     DiscoveryResult.already_seen := true;
     DiscoveryResult.seen_days_ago := Some (Num (-8)) |}.

End Examples.

(* ===================================================================== *)
(** ** Further vocabulary *)
(* ===================================================================== *)

Module Notions.

(** A byte followed by continuation bytes. *)
Definition char_shaped (c : string) : bool :=
  match c with
  | String _ r => str_forall is_continuation r
  | EmptyString => false
  end.

(** A list of characters as [chars] makes them: each is a byte with the
    continuation bytes that follow it, and none but the first begins with
    a continuation byte. *)
Definition linked (l : list string) : bool :=
  forallb char_shaped l && forallb (fun c => negb (starts_inside c)) (tail l).

(** Every white-space character of the list is a blank, and no two
    blanks are neighbours; [after_space] tells that a blank precedes. *)
Fixpoint spaced (after_space : bool) (l : list string) : bool :=
  match l with
  | [] => true
  | c :: r =>
      if is_space c then
        String.eqb c " " && negb after_space && spaced true r
      else spaced false r
  end.

(** The white space of [s] is single blanks. *)
Definition single_spaced (after_space : bool) (s : string) : bool :=
  spaced after_space (chars s).

(** The first character of [s] is no white space. *)
Definition starts_clean (s : string) : bool :=
  match chars s with
  | c :: _ => negb (is_space c)
  | [] => true
  end.

(** The last character of [s] is no white space. *)
Definition ends_clean (s : string) : bool :=
  match last (chars s) with
  | Some c => negb (is_space c)
  | None => true
  end.

(** The tokens that make [hasSalary] answer true on their own. *)
Definition salary_tokens : list string :=
  ["b2b"; "uop"; "salary"; "wynagrodzenie"].

(** A result with what the history adds to it taken away. *)
Definition forget_seen (d : DiscoveryResult.t) : DiscoveryResult.t :=
  {| DiscoveryResult.url := DiscoveryResult.url d;
     DiscoveryResult.title := DiscoveryResult.title d;
     DiscoveryResult.company := DiscoveryResult.company d;
     DiscoveryResult.site := DiscoveryResult.site d;
     DiscoveryResult.snippet := DiscoveryResult.snippet d;
     DiscoveryResult.age_days := DiscoveryResult.age_days d;
     DiscoveryResult.has_salary := DiscoveryResult.has_salary d;
     DiscoveryResult.ghost_preflag := DiscoveryResult.ghost_preflag d;
     DiscoveryResult.already_seen := false;
     DiscoveryResult.seen_days_ago := None |}.

Definition is_get (e : Event) : bool :=
  match e with Get _ => true | _ => false end.

Definition is_pause (e : Event) : bool :=
  match e with Pause _ => true | _ => false end.

Definition is_warn (e : Event) : bool :=
  match e with Warn _ _ => true | _ => false end.

(** The events one site leaves in a run: one to three requests, then
    either the line printed for the site and the pause of 600 ms, or the
    warning. *)
Definition site_trace (site : string) (ev : list Event) : Prop :=
  ∃ requests,
    (1 ≤ length requests ≤ 3)%nat
    ∧ Forall (fun e => ∃ url, e = Get url) requests
    ∧ ((∃ n, ev = requests ++ [Log site n; Pause 600])
       ∨ (∃ msg, ev = requests ++ [Warn site msg])).

(** How many events of a kind a run leaves. *)
Definition count (kind : Event → bool) (ev : list Event) : nat :=
  length (List.filter kind ev).

(** The verdict of each rule on its own: whether the rule, if the
    configuration activates it, is satisfied. *)
Definition match_ok (c : UserConfig.t) (r : AnalysisResult.t) : Prop :=
  ∀ m, UserConfig.min_match_score c = Some m → m ≤ AnalysisResult.match_score r.

Definition ghost_ok (c : UserConfig.t) (r : AnalysisResult.t) : Prop :=
  ∀ g, UserConfig.max_ghost_score c = Some g → AnalysisResult.ghost_score r ≤ g.

Definition fresh_ok (c : UserConfig.t) (age : option jsnum) : Prop :=
  ∀ a, UserConfig.max_age_days c = Some a →
       age = None ∨ ∃ n, age = Some (Num n) ∧ n ≤ a.

Definition mode_ok `{Runtime} (c : UserConfig.t) (jdText : string) : Prop :=
  ∀ m, UserConfig.work_mode c = Some m → m ≠ any →
       ∃ k, k ∈ Config.work_mode_keywords m
            ∧ includes (toLowerCase jdText) k = true.

Definition salary_ok `{Runtime} (c : UserConfig.t) (jdText : string)
  : Prop :=
  UserConfig.require_salary c = Some true →
  ∃ k, k ∈ Config.salaryKw ∧ includes (toLowerCase jdText) k = true.

Definition keywords_ok `{Runtime} (c : UserConfig.t) (jdText : string)
  : Prop :=
  ∀ ks, UserConfig.role_keywords c = Some ks → ks ≠ [] →
        ∃ k, k ∈ ks ∧ includes (toLowerCase jdText) (toLowerCase k) = true.

(** Two stored entries for the examples; the age of the second one is
    NaN. *)
Definition stored_initech : StoredEntry.t :=
  {| StoredEntry.id := "1793361600000";
     StoredEntry.company := "Initech";
     StoredEntry.role := "QA Specialist";
     StoredEntry.url := "https://pracuj.pl/praca/qa-1";
     StoredEntry.date := "2026-10-30";
     StoredEntry.match_score := 74;
     StoredEntry.go_no_go := go;
     StoredEntry.report_file := "output/report-initech-2026-10-30.html";
     StoredEntry.cv_variant := None;
     StoredEntry.ghost_score := 20;
     StoredEntry.posting_date := Some "2026-10-28";
     StoredEntry.posting_age_days := Some (Num 2);
     StoredEntry.status := None;
     StoredEntry.salary := None |}.

Definition stored_globex : StoredEntry.t :=
  {| StoredEntry.id := "1793448000000";
     StoredEntry.company := "Globex";
     StoredEntry.role := "QA Lead";
     StoredEntry.url := "https://justjoin.it/job-offer/globex-qa-lead";
     StoredEntry.date := "2026-10-31";
     StoredEntry.match_score := 61;
     StoredEntry.go_no_go := maybe;
     StoredEntry.report_file := "output/report-globex-2026-10-31.html";
     StoredEntry.cv_variant := Some "qa";
     StoredEntry.ghost_score := 55;
     StoredEntry.posting_date := Some "2026-99-99";
     StoredEntry.posting_age_days := Some NaN;
     StoredEntry.status := Some applied;
     StoredEntry.salary := Some "20000 PLN B2B" |}.

(** The entity that stands for a character in escaped text, or the
    character itself. *)
Definition escape_char (c : ascii) : string :=
  if Ascii.eqb c "&" then "&amp;"
  else if Ascii.eqb c "<" then "&lt;"
  else if Ascii.eqb c ">" then "&gt;"
  else if Ascii.eqb c Report.dquote then "&quot;"
  else if Ascii.eqb c Report.squote then "&#39;"
  else String c EmptyString.

(** [s] begins with the literal [lit]. *)
Definition begins (lit s : string) : bool :=
  match after_literal false lit s with Some _ => true | None => false end.

(** The character an entity at the head of [s] stands for, with the
    number of characters that follow its ampersand. *)
Definition entity (s : string) : option (ascii * nat) :=
  if begins "&amp;" s then Some ("&"%char, 4%nat)
  else if begins "&lt;" s then Some ("<"%char, 3%nat)
  else if begins "&gt;" s then Some (">"%char, 3%nat)
  else if begins "&quot;" s then Some (Report.dquote, 5%nat)
  else if begins "&#39;" s then Some (Report.squote, 4%nat)
  else None.

(** Reading escaped text back; [skip] counts the characters of an entity
    still to pass. *)
Fixpoint unescape (skip : nat) (s : string) : string :=
  match s with
  | EmptyString => EmptyString
  | String c r =>
      match skip with
      | S n => unescape n r
      | O =>
          match entity s with
          | Some (ch, len) => String ch (unescape len r)
          | None => String c (unescape 0 r)
          end
      end
  end.

(** A character that markup gives a meaning to. *)
Definition is_markup (c : ascii) : bool :=
  Ascii.eqb c "<" || Ascii.eqb c ">" || Ascii.eqb c Report.dquote
  || Ascii.eqb c Report.squote.

(** Slug characters and hyphens only, no hyphen next to a hyphen;
    [after_hyphen] tells that a hyphen precedes [s]. *)
Fixpoint hyphen_spaced (after_hyphen : bool) (s : string) : bool :=
  match s with
  | EmptyString => true
  | String c r =>
      if Ascii.eqb c "-" then negb after_hyphen && hyphen_spaced true r
      else Report.is_slug_char c && hyphen_spaced false r
  end.

(** The last character of [s] is a hyphen. *)
Fixpoint ends_with_hyphen (s : string) : bool :=
  match s with
  | EmptyString => false
  | String c EmptyString => Ascii.eqb c "-"
  | String _ r => ends_with_hyphen r
  end.

(** What one JSON-LD block offers as a posting date. *)
Definition ld_candidate (block : Scraper.LdDate) : option string :=
  match block with
  | Scraper.LdDatePosted datePosted => Scraper.normalizeDate datePosted
  | _ => None
  end.

Fixpoint first_some (l : list (option string)) : option string :=
  match l with
  | [] => None
  | Some x :: _ => Some x
  | None :: rest => first_some rest
  end.

(** The places of a page a posting date is looked for in, in order. *)
Definition candidates (page : Scraper.Page) : list (option string) :=
  (ld_candidate <$> Scraper.ld_blocks page)
  ++ [Scraper.og_published_time page ≫= Scraper.normalizeDate;
      Scraper.time_datetime page ≫= Scraper.normalizeDate;
      Scraper.meta_date page ≫= Scraper.normalizeDate].

(** A page whose only date is one no calendar has. *)
Definition undated_page : Scraper.Page :=
  {| Scraper.ld_blocks :=
       [Scraper.LdUnparsable; Scraper.LdDatePosted "2024-99-99T08:00:00Z"];
     Scraper.og_published_time := Some "2024-05-01";
     Scraper.time_datetime := None;
     Scraper.meta_date := None;
     Scraper.selected := [None; Some "QA Engineer"];
     Scraper.body_text := "  QA   Engineer  at Initech  " |}.

(** No tabulation, and no blank next to a blank; [after_blank] tells that
    a blank precedes [s]. *)
Fixpoint blank_spaced (after_blank : bool) (s : string) : bool :=
  match s with
  | EmptyString => true
  | String c r =>
      if Ascii.eqb c CvParser.TAB then false
      else if Ascii.eqb c " " then negb after_blank && blank_spaced true r
      else blank_spaced false r
  end.

(** No three line feeds in a row; [run] counts the line feeds that
    precede [s]. *)
Fixpoint lf_runs (run : nat) (s : string) : bool :=
  match s with
  | EmptyString => true
  | String c r =>
      if Ascii.eqb c CvParser.LF then Nat.ltb run 2 && lf_runs (S run) r
      else lf_runs 0 r
  end.

Definition three_line_feeds : string :=
  String CvParser.LF (String CvParser.LF (String CvParser.LF EmptyString)).

(** A page of justjoin.it for the examples: two offers, an entry that
    cannot be read, and an offer after it. *)
Definition jj_reply : Scout.Reply :=
  Scout.Answered
    {| Scout.rss_items := [];
       Scout.ld_scripts :=
         [Scout.LdInvalid;
          Scout.LdCollection
            [Scout.LdPart
               (Some "https://justjoin.it/job-offer/acme-qa-engineer-warszawa-testing");
             Scout.LdPart
               (Some "https://justjoin.it/job-offer/initech-java-developer-krakow-java");
             Scout.LdBroken;
             Scout.LdPart
               (Some "https://justjoin.it/job-offer/globex-qa-lead-gdansk-testing")]];
       Scout.searx_data := Scout.SearxHits [] |}.

Definition jj_listing : RawResult.t :=
  {| RawResult.url :=
       "https://justjoin.it/job-offer/acme-qa-engineer-warszawa-testing";
     RawResult.title := "Acme Qa Engineer";
     RawResult.snippet := "acme qa engineer warszawa testing";
     RawResult.site := "justjoin.it";
     RawResult.age_days := Some None |}.

Definition feed_listing : RawResult.t :=
  {| RawResult.url := "https://nofluffjobs.com/job/qa-acme";
     RawResult.title := "QA Engineer @ Acme";
     RawResult.snippet := "Test automation, 15k PLN";
     RawResult.site := "nofluffjobs.com";
     RawResult.age_days := Some (Some NaN) |}.

End Notions.

(* ===================================================================== *)
(** ** Properties *)
(* ===================================================================== *)

Import Scout Config Analyzer Server Spec Notions.

(** *** The heuristics *)

(** The texts the specification gives, and a few more. *)
Example hasSalary_examples :
  hasSalary "16000-25000 PLN B2B" = true
  ∧ hasSalary "competitive package" = false
  ∧ hasSalary "up to 15k net" = true
  ∧ hasSalary "15kg of paperwork" = false
  ∧ hasSalary "Stawka: 100 ZŁ" = true
  ∧ hasSalary ("12 000" +:+ utf8 160 +:+ "zł") = true.
Proof. repeat split; reflexivity. Qed.

Example isGhostPreflag_examples :
  @isGhostPreflag Host.host "QA"
    "ongoing recruitment for future opportunities" = true
  ∧ @isGhostPreflag Host.host "QA Engineer"
      "Build the test suite of our billing API" = false.
Proof. split; reflexivity. Qed.

Example slugToTitle_example :
  slugToTitle "acme-senior-qa-engineer-warszawa-testing"
  = "Acme Senior Qa Engineer".
Proof. reflexivity. Qed.

Example clean_snippet_example :
  clean_snippet "<p>Test   automation,<br/>15k PLN</p>"
  = "Test automation, 15k PLN".
Proof. reflexivity. Qed.

(** *** Strings *)

Lemma app_cons (c : ascii) (s t : string) :
  String c s +:+ t = String c (s +:+ t).
Proof. reflexivity. Qed.

Lemma app_empty_l (t : string) : "" +:+ t = t.
Proof. reflexivity. Qed.

Lemma app_length (s t : string) :
  String.length (s +:+ t) = (String.length s + String.length t)%nat.
Proof.
  induction s as [|c s IH]; [reflexivity|].
  rewrite app_cons. cbn [String.length]. by rewrite IH.
Qed.

Lemma app_same_length_inv (p q s t : string) :
  p +:+ s = q +:+ t → String.length s = String.length t → s = t.
Proof.
  revert q. induction p as [|c p IH]; intros q Heq Hlen.
  - destruct q as [|d q]; [done|].
    rewrite app_empty_l in Heq. subst s.
    rewrite app_length in Hlen. cbn [String.length] in Hlen. lia.
  - destruct q as [|d q].
    + rewrite app_empty_l in Heq. subst t.
      rewrite app_length in Hlen. cbn [String.length] in Hlen. lia.
    + rewrite !app_cons in Heq. injection Heq as _ Heq. eauto.
Qed.

Lemma app_empty_r (s : string) : s +:+ "" = s.
Proof. induction s as [|c s IH]; [done|]. by rewrite app_cons, IH. Qed.

Lemma app_assoc' (a b c : string) : (a +:+ b) +:+ c = a +:+ b +:+ c.
Proof.
  induction a as [|x a IH]; [done|]. rewrite !app_cons. by rewrite IH.
Qed.

(** *** Characters *)

Lemma glue_cons c l : glue (c :: l) = c +:+ glue l.
Proof. reflexivity. Qed.

Lemma glue_app a b : glue (a ++ b) = glue a +:+ glue b.
Proof.
  induction a as [|c a IH]; [done|].
  cbn [app]. by rewrite !glue_cons, IH, app_assoc'.
Qed.

(** The characters of a text, put together, are the text. *)
Lemma glue_chars s : glue (chars s) = s.
Proof.
  induction s as [|b s IH]; [done|]. cbn [chars].
  destruct (chars s) as [|c cs]; [by rewrite <-IH|].
  destruct (starts_inside c); by rewrite <-IH.
Qed.

Lemma chars_nil s : chars s = [] → s = "".
Proof. intros H. by rewrite <-(glue_chars s), H. Qed.

Lemma linked_cons c l :
  linked (c :: l)
  = char_shaped c
    && forallb (fun c => char_shaped c && negb (starts_inside c)) l.
Proof.
  unfold linked. cbn [forallb tail]. rewrite <-andb_assoc. f_equal.
  induction l as [|d l IH]; [done|]. cbn [forallb].
  rewrite <-IH.
  by destruct (char_shaped d), (starts_inside d), (forallb char_shaped l),
    (forallb _ l).
Qed.

Lemma proper_linked l :
  forallb (fun c => char_shaped c && negb (starts_inside c)) l = true →
  linked l = true.
Proof.
  destruct l as [|c l]; [done|]. rewrite linked_cons. cbn [forallb].
  by intros [[-> _]%andb_true_iff ->]%andb_true_iff.
Qed.

Lemma linked_tail c l :
  linked (c :: l) = true →
  forallb (fun c => char_shaped c && negb (starts_inside c)) l = true.
Proof. rewrite linked_cons. by intros [_ ?]%andb_true_iff. Qed.

Lemma chars_linked s : linked (chars s) = true.
Proof.
  induction s as [|b s IH]; [done|]. cbn [chars].
  destruct (chars s) as [|c cs]; [done|].
  rewrite linked_cons in IH. apply andb_true_iff in IH as [Hc Hcs].
  destruct (starts_inside c) eqn:Hin; rewrite linked_cons.
  - rewrite Hcs, andb_true_r. destruct c as [|d c]; [done|].
    cbn in *. by rewrite Hin, Hc.
  - cbn [forallb char_shaped str_forall]. by rewrite Hc, Hin, Hcs.
Qed.

Lemma chars_continued t s :
  str_forall is_continuation t = true →
  match chars s with c :: _ => starts_inside c = false | [] => True end →
  chars (t +:+ s) = match t with
                    | EmptyString => chars s
                    | _ => t :: chars s
                    end.
Proof.
  intros Ht Hs. induction t as [|b t IH]; [done|].
  cbn [str_forall] in Ht. apply andb_true_iff in Ht as [Hb Ht].
  rewrite app_cons. cbn [chars]. rewrite (IH Ht). destruct t as [|b' t].
  - destruct (chars s) as [|c cs]; [done|]. by rewrite Hs.
  - cbn [str_forall] in Ht. apply andb_true_iff in Ht as [Hb' _].
    cbn [starts_inside]. by rewrite Hb'.
Qed.

(** A list of characters is the list of the characters of its text. *)
Lemma chars_glue l : linked l = true → chars (glue l) = l.
Proof.
  induction l as [|c l IH]; [done|]. intros Hl.
  pose proof (linked_tail _ _ Hl) as Htail.
  rewrite linked_cons in Hl. apply andb_true_iff in Hl as [Hc _].
  specialize (IH (proper_linked _ Htail)).
  destruct c as [|b t]; [done|]. cbn [char_shaped] in Hc.
  rewrite glue_cons, app_cons. cbn [chars].
  rewrite (chars_continued t (glue l) Hc).
  2:{ rewrite IH. destruct l as [|d l]; [done|]. cbn [forallb] in Htail.
      apply andb_true_iff in Htail as [[_ Hd%negb_true_iff]%andb_true_iff _].
      done. }
  rewrite IH. destruct t as [|b' t].
  - destruct l as [|d l]; [done|]. cbn [forallb] in Htail.
    apply andb_true_iff in Htail as [[_ Hd%negb_true_iff]%andb_true_iff _].
    by rewrite Hd.
  - cbn [str_forall] in Hc. apply andb_true_iff in Hc as [Hb' _].
    cbn [starts_inside]. by rewrite Hb'.
Qed.

Lemma proper_app a b :
  forallb (fun c => char_shaped c && negb (starts_inside c)) (a ++ b)
  = forallb (fun c => char_shaped c && negb (starts_inside c)) a
    && forallb (fun c => char_shaped c && negb (starts_inside c)) b.
Proof. apply forallb_app. Qed.

(** A part of a list of characters is a list of characters. *)
Lemma linked_part p m q : linked (p ++ m ++ q) = true → linked m = true.
Proof.
  destruct p as [|c p].
  - cbn [app]. destruct m as [|d m]; [done|]. cbn [app].
    rewrite !linked_cons, proper_app.
    by intros [-> [-> _]%andb_true_iff]%andb_true_iff.
  - cbn [app]. intros H%linked_tail. rewrite !proper_app in H.
    apply andb_true_iff in H as [_ [H _]%andb_true_iff].
    by apply proper_linked.
Qed.

Lemma units_glue l : linked l = true → units (glue l) = sum_list (code_units <$> l).
Proof. intros Hl. unfold units. by rewrite chars_glue. Qed.

(** *** White space *)

Lemma is_space_white c : is_space c = true ↔ white c.
Proof.
  unfold is_space, white, line_end.
  rewrite bool_decide_eq_true, fmap_app, elem_of_app. tauto.
Qed.

Lemma is_line_terminator_end c : is_line_terminator c = true ↔ line_end c.
Proof. unfold is_line_terminator, line_end. by rewrite bool_decide_eq_true. Qed.

Lemma is_space_proper c :
  is_space c = true → (char_shaped c && negb (starts_inside c)) = true.
Proof.
  unfold is_space. rewrite bool_decide_eq_true.
  intros H%list_elem_of_In. vm_compute in H.
  repeat (destruct H as [<-|H]; [reflexivity|]). done.
Qed.

Lemma is_space_blank : is_space " " = true.
Proof. reflexivity. Qed.

Lemma high_surrogate_proper c :
  (char_shaped (high_surrogate c) && negb (starts_inside (high_surrogate c)))
  = true.
Proof.
  assert (∀ k, (k < 64)%N → is_continuation (ascii_of_N (128 + k)) = true)
    as Hcont.
  { intros k Hk. unfold is_continuation.
    assert (nat_of_ascii (ascii_of_N (128 + k)) = N.to_nat (128 + k)) as ->.
    { unfold nat_of_ascii. by rewrite N_ascii_embedding by lia. }
    cbv zeta. apply andb_true_iff. split.
    - apply Nat.leb_le. lia.
    - apply Nat.ltb_lt. lia. }
  unfold high_surrogate. cbv zeta. cbn [char_shaped str_forall starts_inside].
  rewrite !Hcont by (apply N.mod_lt; lia). reflexivity.
Qed.

Lemma high_surrogate_units c : code_units (high_surrogate c) = 1%nat.
Proof. reflexivity. Qed.

Lemma high_surrogate_no_space c : is_space (high_surrogate c) = false.
Proof.
  destruct (is_space (high_surrogate c)) eqn:E; [|done]. exfalso.
  unfold is_space in E. rewrite bool_decide_eq_true in E.
  apply list_elem_of_In in E. unfold high_surrogate in E. cbv zeta in E.
  vm_compute (utf8 <$> white_space ++ line_terminators) in E.
  repeat (destruct E as [E|E]; [discriminate E|]). done.
Qed.

(** *** Trimming *)

Lemma drop_spaces_split l :
  ∃ p, l = p ++ drop_spaces l ∧ Forall white p.
Proof.
  induction l as [|c l (p & Hp & Hw)]; [by exists []|]. cbn [drop_spaces].
  destruct (is_space c) eqn:Hc; [|by exists []].
  exists (c :: p). split; [by rewrite Hp at 1|].
  constructor; [by apply is_space_white|done].
Qed.

Lemma drop_spaces_head l c r : drop_spaces l = c :: r → is_space c = false.
Proof.
  induction l as [|d l IH]; [done|]. cbn [drop_spaces].
  destruct (is_space d) eqn:Hd; [done|]. by intros [= <- _].
Qed.

Lemma drop_spaces_end_split l :
  ∃ q, l = drop_spaces_end l ++ q ∧ Forall white q.
Proof.
  induction l as [|c l (q & Hq & Hw)]; [by exists []|]. cbn [drop_spaces_end].
  destruct (drop_spaces_end l) as [|d r] eqn:E.
  - cbn [app] in Hq. subst q. destruct (is_space c) eqn:Hc.
    + exists (c :: l). split; [done|].
      constructor; [by apply is_space_white|done].
    + by exists l.
  - exists q. split; [by rewrite Hq at 1|done].
Qed.

Lemma drop_spaces_end_last l pre w :
  drop_spaces_end l = pre ++ [w] → is_space w = false.
Proof.
  revert pre. induction l as [|c l IH]; intros pre.
  { by destruct pre. }
  cbn [drop_spaces_end]. destruct (drop_spaces_end l) as [|d r] eqn:E.
  - destruct (is_space c) eqn:Hc; [by destruct pre|].
    destruct pre as [|x [|y pre]]; [|done..]. by intros [= <-].
  - destruct pre as [|x pre].
    + by destruct r.
    + intros [= _ H]. by eapply IH.
Qed.

Lemma drop_spaces_end_head c l :
  is_space c = false → ∃ r, drop_spaces_end (c :: l) = c :: r.
Proof.
  intros Hc. cbn [drop_spaces_end]. rewrite Hc.
  destruct (drop_spaces_end l); by eexists.
Qed.

Lemma trim_chars s : chars (trim s) = drop_spaces_end (drop_spaces (chars s)).
Proof.
  unfold trim. apply chars_glue.
  destruct (drop_spaces_split (chars s)) as (p & Hp & _).
  destruct (drop_spaces_end_split (drop_spaces (chars s))) as (q & Hq & _).
  apply (linked_part p _ q). rewrite <-Hq, <-Hp. apply chars_linked.
Qed.

(** [trim] removes the white space at both ends, and nothing else. *)
Lemma trim_trimmed g : trimmed g (trim g).
Proof.
  destruct (drop_spaces_split (chars g)) as (p & Hp & Hwp).
  destruct (drop_spaces_end_split (drop_spaces (chars g))) as (q & Hq & Hwq).
  assert (chars g = p ++ chars (trim g) ++ q) as Hchars.
  { rewrite trim_chars. by rewrite <-Hq. }
  exists p, q. split_and!; [done| |done|done| |].
  - rewrite <-(glue_chars g) at 1. rewrite Hchars, !glue_app.
    by rewrite glue_chars.
  - rewrite trim_chars. intros w rest Hw Hwhite%is_space_white.
    destruct (drop_spaces (chars g)) as [|c r] eqn:E; [done|].
    pose proof (drop_spaces_head _ _ _ E) as Hc.
    destruct (drop_spaces_end_head c r Hc) as [r' Hr'].
    rewrite Hr' in Hw. injection Hw as <- _. congruence.
  - rewrite trim_chars. intros pre w Hw Hwhite%is_space_white.
    apply drop_spaces_end_last in Hw. congruence.
Qed.

Lemma trim_part s : ∃ p q, s = p +:+ trim s +:+ q.
Proof.
  destruct (trim_trimmed s) as (l & r & _ & Hs & _). by exists (glue l), (glue r).
Qed.

Lemma sum_list_app' (a b : list nat) :
  sum_list (a ++ b) = (sum_list a + sum_list b)%nat.
Proof. induction a as [|x a IH]; cbn; lia. Qed.

Lemma trim_units s : (units (trim s) ≤ units s)%nat.
Proof.
  destruct (trim_trimmed s) as (l & r & Hc & _). unfold units at 2.
  rewrite Hc, !fmap_app, !sum_list_app'. unfold units. lia.
Qed.

Lemma trim_clean s :
  starts_clean (trim s) = true ∧ ends_clean (trim s) = true.
Proof.
  destruct (trim_trimmed s) as (l & r & _ & _ & _ & _ & Hhead & Hlast).
  unfold starts_clean, ends_clean. split.
  - destruct (chars (trim s)) as [|c cs] eqn:E; [done|].
    destruct (is_space c) eqn:Hc; [|done].
    by destruct (Hhead c cs eq_refl); apply is_space_white.
  - destruct (last (chars (trim s))) as [w|] eqn:E; [|done].
    apply last_Some in E as [pre Hpre].
    destruct (is_space w) eqn:Hw; [|done].
    by destruct (Hlast pre w Hpre); apply is_space_white.
Qed.

Lemma trimmed_unique g c c' : trimmed g c → trimmed g c' → c = c'.
Proof.
  assert (∀ l m r l' m' r' : list string,
            l ++ m ++ r = l' ++ m' ++ r' →
            Forall white l → Forall white l' →
            (∀ w rest, m = w :: rest → ¬ white w) →
            (∀ w rest, m' = w :: rest → ¬ white w) →
            Forall white r' → m ≠ [] → m' ≠ [] ∧ l = l') as Hhead.
  { intros l m r l' m' r' Heq Hl Hl' Hm Hm' Hr' Hne.
    revert l' Heq Hl'. induction Hl as [|w l Hw Hl IH]; intros l' Heq Hl'.
    - destruct m as [|x m]; [done|]. cbn [app] in Heq.
      destruct Hl' as [|w' l' Hw' Hl'].
      + cbn [app] in Heq. destruct m' as [|x' m']; [|done].
        cbn [app] in Heq. subst r'. apply Forall_cons in Hr' as [Hx _].
        by destruct (Hm x m eq_refl).
      + cbn [app] in Heq. injection Heq as -> _.
        by destruct (Hm w' m eq_refl).
    - destruct Hl' as [|w' l' Hw' Hl'].
      + cbn [app] in Heq. destruct m' as [|x' m'].
        * cbn [app] in Heq. subst r'.
          apply Forall_cons in Hr' as [_ Hr'].
          apply Forall_app in Hr' as [_ Hr'].
          destruct m as [|x m]; [done|].
          apply Forall_app in Hr' as [Hx _].
          apply Forall_cons in Hx as [Hx _].
          by destruct (Hm x m eq_refl).
        * cbn [app] in Heq. injection Heq as <- _.
          by destruct (Hm' w m' eq_refl).
      + cbn [app] in Heq. injection Heq as <- Heq.
        destruct (IH l' Heq Hl') as [? ->]. done. }
  intros (l & r & Hc & _ & Hl & Hr & Hh & Hlast)
         (l' & r' & Hc' & _ & Hl' & Hr' & Hh' & Hlast').
  rewrite Hc in Hc'.
  assert (chars c = chars c') as Heq.
  { destruct (chars c) as [|x m] eqn:Em.
    - destruct (chars c') as [|x' m'] eqn:Em'; [done|].
      symmetry in Hc'.
      by destruct (Hhead l' (x' :: m') r' l [] r Hc' Hl' Hl Hh' Hh Hr).
    - destruct (Hhead l (x :: m) r l' (chars c') r' Hc' Hl Hl' Hh Hh' Hr')
        as [Hne ->]; [done|].
      apply app_inv_head in Hc'.
      assert (∀ a b a' b' : list string,
                a ++ b = a' ++ b' → Forall white b → Forall white b' →
                (∀ pre w, a = pre ++ [w] → ¬ white w) →
                (∀ pre w, a' = pre ++ [w] → ¬ white w) →
                (length a ≤ length a')%nat) as Hlen.
      { intros a b a' b' Hab Hb Hb' Ha Ha'.
        destruct (Nat.le_gt_cases (length a) (length a')) as [|Hgt]; [done|].
        exfalso.
        assert (a' = take (length a') (a ++ b)) as Ha'eq
          by by rewrite Hab, take_app_length.
        rewrite take_app_le in Ha'eq by lia.
        assert (b' = drop (length a') a ++ b) as Hb'eq.
        { rewrite <-(drop_app_length a' b'), <-Hab.
          by rewrite drop_app_le by lia. }
        destruct (drop (length a') a) as [|y ys] eqn:Ed using rev_ind.
        { apply (f_equal length) in Ed. rewrite length_drop in Ed.
          cbn [length] in Ed. lia. }
        clear IHys.
        assert (a = take (length a') a ++ ys ++ [y]) as Hsplit
          by by rewrite <-Ed, take_drop.
        rewrite app_assoc in Hsplit.
        apply (Ha _ _ Hsplit). rewrite Hb'eq in Hb'.
        apply Forall_app in Hb' as [Hb' _].
        by apply Forall_app in Hb' as [_ [? _]%Forall_cons]. }
      pose proof (Hlen _ _ _ _ Hc' Hr Hr' Hlast Hlast') as H1.
      symmetry in Hc'.
      pose proof (Hlen _ _ _ _ Hc' Hr' Hr Hlast' Hlast) as H2.
      symmetry in Hc'.
      assert (take (length (x :: m)) ((x :: m) ++ r)
              = take (length (x :: m)) (chars c' ++ r')) as Ht
        by by rewrite Hc'.
      rewrite take_app_length in Ht.
      rewrite Ht. assert (length (x :: m) = length (chars c')) as -> by lia.
      by rewrite take_app_length. }
  by rewrite <-(glue_chars c), Heq, glue_chars.
Qed.

(** *** Cutting to a number of code units *)

Lemma take_units_bound n l :
  (sum_list (code_units <$> take_units n l) ≤ n)%nat.
Proof.
  revert n. induction l as [|c l IH]; intros n; [cbn; lia|].
  destruct n as [|m]; [cbn; lia|]. cbn [take_units].
  assert (code_units c ≤ 2)%nat as Hc.
  { destruct c as [|b c]; cbn [code_units]; [lia|].
    destruct (Nat.leb 240 (nat_of_ascii b)); lia. }
  destruct (code_units c) as [|[|[|k]]] eqn:E; [| | |lia].
  - rewrite fmap_cons, E. specialize (IH m). cbn. lia.
  - rewrite fmap_cons, E. specialize (IH m). cbn. lia.
  - destruct m as [|m'].
    + rewrite fmap_cons, high_surrogate_units. cbn. lia.
    + rewrite fmap_cons, E. specialize (IH m'). cbn. lia.
Qed.

Lemma take_units_proper n l :
  forallb (fun c => char_shaped c && negb (starts_inside c)) l = true →
  forallb (fun c => char_shaped c && negb (starts_inside c)) (take_units n l)
  = true.
Proof.
  revert n. induction l as [|c l IH]; intros n Hl; [by destruct n|].
  cbn [forallb] in Hl. apply andb_true_iff in Hl as [Hc Hl].
  destruct n as [|m]; [done|]. cbn [take_units].
  destruct (code_units c) as [|[|[|k]]]; cbn [forallb];
    rewrite ?Hc, ?IH; try done.
  destruct m as [|m']; cbn [forallb].
  - by rewrite high_surrogate_proper.
  - by rewrite Hc, IH.
Qed.

Lemma take_units_linked n l : linked l = true → linked (take_units n l) = true.
Proof.
  destruct l as [|c l]; [by destruct n|]. intros Hl.
  pose proof (linked_tail _ _ Hl) as Htail.
  rewrite linked_cons in Hl. apply andb_true_iff in Hl as [Hc _].
  destruct n as [|m]; [done|]. cbn [take_units].
  destruct (code_units c) as [|[|[|k]]];
    rewrite ?linked_cons, ?Hc, ?take_units_proper; try done.
  destruct m as [|m'].
  - apply proper_linked. cbn [forallb]. by rewrite high_surrogate_proper.
  - by rewrite linked_cons, Hc, take_units_proper.
Qed.

Lemma slice_to_chars n s : chars (slice_to n s) = take_units n (chars s).
Proof. apply chars_glue, take_units_linked, chars_linked. Qed.

Lemma slice_to_units n s : (units (slice_to n s) ≤ n)%nat.
Proof. unfold units. rewrite slice_to_chars. apply take_units_bound. Qed.

Lemma take_units_head n l c r :
  take_units n l = c :: r →
  ∃ d l', l = d :: l' ∧ (c = d ∨ c = high_surrogate d).
Proof.
  destruct l as [|d l]; [by destruct n|]. destruct n as [|m]; [done|].
  cbn [take_units]. intros H. exists d, l. split; [done|].
  destruct (code_units d) as [|[|[|k]]]; try (injection H as <- _; by left).
  destruct m; injection H as <- _; [by right|by left].
Qed.

Lemma slice_to_starts_clean n s :
  starts_clean s = true → starts_clean (slice_to n s) = true.
Proof.
  unfold starts_clean. rewrite slice_to_chars.
  destruct (take_units n (chars s)) as [|c r] eqn:E; [done|].
  apply take_units_head in E as (d & l' & -> & [->| ->]); [done|].
  by rewrite high_surrogate_no_space.
Qed.

Lemma spaced_cons b c r :
  spaced b (c :: r)
  = if is_space c then String.eqb c " " && negb b && spaced true r
    else spaced false r.
Proof. reflexivity. Qed.

Lemma take_units_spaced b n l :
  spaced b l = true → spaced b (take_units n l) = true.
Proof.
  revert b n. induction l as [|c l IH]; intros b n; [by destruct n|].
  destruct n as [|m]; [done|]. rewrite spaced_cons. cbn [take_units].
  assert (spaced b (c :: l) = true → ∀ k, spaced b (c :: take_units k l) = true)
    as Hkeep.
  { rewrite !spaced_cons. intros H k. rewrite spaced_cons.
    destruct (is_space c).
    - apply andb_true_iff in H as [-> H]. by rewrite IH.
    - by apply IH. }
  intros H. rewrite <-spaced_cons in H.
  destruct (code_units c) as [|[|[|k]]]; try by apply Hkeep.
  destruct m as [|m']; [|by apply Hkeep].
  rewrite spaced_cons. by rewrite high_surrogate_no_space.
Qed.

Lemma slice_to_single_spaced b n s :
  single_spaced b s = true → single_spaced b (slice_to n s) = true.
Proof.
  unfold single_spaced. rewrite slice_to_chars. apply take_units_spaced.
Qed.

(** *** Runs of white space *)

Lemma collapse_chars_proper b l :
  forallb (fun c => char_shaped c && negb (starts_inside c)) l = true →
  forallb (fun c => char_shaped c && negb (starts_inside c))
    (collapse_chars b l) = true.
Proof.
  revert b. induction l as [|c l IH]; intros b Hl; [done|].
  cbn [forallb] in Hl. apply andb_true_iff in Hl as [Hc Hl].
  cbn [collapse_chars]. destruct (is_space c).
  - destruct b; [by apply IH|]. cbn [forallb]. by rewrite IH.
  - cbn [forallb]. by rewrite Hc, IH.
Qed.

Lemma collapse_chars_linked b l :
  linked l = true → linked (collapse_chars b l) = true.
Proof.
  destruct l as [|c l]; [done|]. intros Hl.
  pose proof (linked_tail _ _ Hl) as Htail.
  rewrite linked_cons in Hl. apply andb_true_iff in Hl as [Hc _].
  cbn [collapse_chars]. destruct (is_space c).
  - destruct b; apply proper_linked; [by apply collapse_chars_proper|].
    cbn [forallb]. by rewrite collapse_chars_proper.
  - by rewrite linked_cons, Hc, collapse_chars_proper.
Qed.

Lemma collapse_spaces_chars s :
  chars (collapse_spaces s) = collapse_chars false (chars s).
Proof. apply chars_glue, collapse_chars_linked, chars_linked. Qed.

Lemma collapse_chars_spaced b l : spaced b (collapse_chars b l) = true.
Proof.
  revert b. induction l as [|c l IH]; intros b; [done|]. cbn [collapse_chars].
  destruct (is_space c) eqn:Hc.
  - destruct b; [apply IH|]. rewrite spaced_cons. cbn. apply IH.
  - rewrite spaced_cons, Hc. apply IH.
Qed.

Lemma spaced_weaken b l : spaced b l = true → spaced false l = true.
Proof.
  destruct l as [|c l]; [done|]. rewrite !spaced_cons.
  destruct (is_space c); [|done].
  intros [[-> _]%andb_true_iff ->]%andb_true_iff. done.
Qed.

Lemma spaced_drop_spaces b l :
  spaced b l = true → spaced false (drop_spaces l) = true.
Proof.
  revert b. induction l as [|c l IH]; intros b; [done|].
  rewrite spaced_cons. cbn [drop_spaces]. destruct (is_space c) eqn:Hc.
  - intros [_ H]%andb_true_iff. by eapply IH.
  - intros H. by rewrite spaced_cons, Hc.
Qed.

Lemma spaced_drop_spaces_end b l :
  spaced b l = true → spaced b (drop_spaces_end l) = true.
Proof.
  revert b. induction l as [|c l IH]; intros b; [done|].
  rewrite spaced_cons. cbn [drop_spaces_end].
  destruct (is_space c) eqn:Hc.
  - intros [Hb H]%andb_true_iff. specialize (IH _ H).
    destruct (drop_spaces_end l) as [|d r]; [done|].
    by rewrite spaced_cons, Hc, Hb, IH.
  - intros H. specialize (IH _ H).
    destruct (drop_spaces_end l) as [|d r]; by rewrite spaced_cons, Hc.
Qed.

Lemma trim_single_spaced b s :
  single_spaced b s = true → single_spaced false (trim s) = true.
Proof.
  unfold single_spaced. rewrite trim_chars. intros H.
  by eapply spaced_drop_spaces_end, spaced_drop_spaces.
Qed.

Lemma collapse_spaces_single s : single_spaced false (collapse_spaces s) = true.
Proof.
  unfold single_spaced. rewrite collapse_spaces_chars.
  apply collapse_chars_spaced.
Qed.

(** *** The suffix expressions *)

Lemma literal_eq_length ci lit sep :
  literal_eq ci lit sep = true → String.length sep = String.length lit.
Proof.
  revert sep. induction lit as [|a lit IH]; intros [|b sep] H; try done.
  cbn in H. apply andb_true_iff in H as [_ H]. cbn. f_equal. by apply IH.
Qed.

Lemma after_literal_sound ci lit s rest :
  after_literal ci lit s = Some rest →
  ∃ sep, s = sep +:+ rest ∧ literal_eq ci lit sep = true.
Proof.
  revert s. induction lit as [|a lit IH]; intros s H.
  - cbn in H. injection H as ->. by exists "".
  - destruct s as [|b s]; [done|]. cbn in H.
    destruct (char_eq ci a b) eqn:Hc; [|done].
    destruct (IH _ H) as (sep & -> & Hsep).
    exists (String b sep). split; [done|]. cbn. by rewrite Hc.
Qed.

Lemma after_literal_complete ci lit sep rest :
  literal_eq ci lit sep = true → after_literal ci lit (sep +:+ rest) = Some rest.
Proof.
  revert sep. induction lit as [|a lit IH]; intros [|b sep] H; try done.
  cbn in H. apply andb_true_iff in H as [Hc H].
  rewrite app_cons. cbn. rewrite Hc. by apply IH.
Qed.

Lemma dots_to_end_spec lo hi s :
  dots_to_end lo hi s = true ↔
  (lo ≤ units s ≤ hi)%nat ∧ Forall (fun c => ¬ line_end c) (chars s).
Proof.
  unfold dots_to_end. rewrite !andb_true_iff, !Nat.leb_le.
  assert (forallb (fun c => negb (is_line_terminator c)) (chars s) = true
          ↔ Forall (fun c => ¬ line_end c) (chars s)) as ->; [|tauto].
  induction (chars s) as [|c l IH]; [by split|]. cbn [forallb].
  rewrite andb_true_iff, Forall_cons, IH, negb_true_iff.
  rewrite <-is_line_terminator_end.
  destruct (is_line_terminator c); intuition congruence.
Qed.

Lemma suffix_here_head ci lit lo hi s g :
  suffix_here ci lit lo hi s = Some g →
  ∃ sep, s = sep +:+ g ∧ literal_eq ci lit sep = true
         ∧ (lo ≤ units g ≤ hi)%nat
         ∧ Forall (fun c => ¬ line_end c) (chars g).
Proof.
  unfold suffix_here. intros H.
  destruct (after_literal ci lit s) as [rest|] eqn:Ha; [|done].
  destruct (dots_to_end lo hi rest) eqn:Hd; [|done]. injection H as <-.
  apply after_literal_sound in Ha as (sep & -> & Hsep).
  apply dots_to_end_spec in Hd as [Hlen Hline].
  by exists sep.
Qed.

Lemma suffix_here_sound ci lit lo hi s g :
  suffix_here ci lit lo hi s = Some g → convention ci lit lo hi s g.
Proof.
  intros H. apply suffix_here_head in H as (sep & -> & ?). by exists "", sep.
Qed.

Lemma suffix_here_complete ci lit lo hi sep g :
  literal_eq ci lit sep = true →
  (lo ≤ units g ≤ hi)%nat →
  Forall (fun c => ¬ line_end c) (chars g) →
  suffix_here ci lit lo hi (sep +:+ g) = Some g.
Proof.
  intros Hsep Hlen Hline. unfold suffix_here.
  rewrite (after_literal_complete _ _ _ _ Hsep).
  by rewrite (proj2 (dots_to_end_spec lo hi g) (conj Hlen Hline)).
Qed.

Lemma convention_cons ci lit lo hi c s g :
  convention ci lit lo hi s g → convention ci lit lo hi (String c s) g.
Proof.
  intros (pre & sep & -> & ?). exists (String c pre), sep. by rewrite app_cons.
Qed.

(** Where the expression does not match at the head, a title that follows
    the convention follows it from the second character on. *)
Lemma convention_tail ci lit lo hi c s g :
  suffix_here ci lit lo hi (String c s) = None →
  convention ci lit lo hi (String c s) g → convention ci lit lo hi s g.
Proof.
  intros Hnone (pre & sep & Heq & Hsep & Hlen & Hline).
  destruct pre as [|d pre].
  - rewrite app_empty_l in Heq. rewrite Heq in Hnone.
    by rewrite suffix_here_complete in Hnone.
  - rewrite app_cons in Heq. injection Heq as _ ->. by exists pre, sep.
Qed.

Lemma match_suffix_none ci lit lo hi s :
  match_suffix ci lit lo hi s = None → ∀ g, ¬ convention ci lit lo hi s g.
Proof.
  induction s as [|c s IH]; cbn [match_suffix]; intros H g Hg.
  - destruct (suffix_here ci lit lo hi "") eqn:Hh; [done|].
    destruct Hg as (pre & sep & Heq & Hsep & Hlen & Hline).
    destruct pre; [|done]. rewrite app_empty_l in Heq. rewrite Heq in Hh.
    by rewrite suffix_here_complete in Hh.
  - destruct (suffix_here ci lit lo hi (String c s)) eqn:Hh; [done|].
    eapply IH; [done|]. by eapply convention_tail.
Qed.

Lemma match_suffix_some ci lit lo hi s g :
  match_suffix ci lit lo hi s = Some g → captured (convention ci lit lo hi) s g.
Proof.
  revert g. induction s as [|c s IH]; cbn [match_suffix]; intros g H.
  - destruct (suffix_here ci lit lo hi "") eqn:Hh; [|done].
    injection H as ->. split; [by apply suffix_here_sound|].
    intros other (pre & sep & Heq & _).
    assert (String.length (pre +:+ sep +:+ other) = 0%nat) as Hl
      by by rewrite <-Heq.
    rewrite !app_length in Hl. lia.
  - destruct (suffix_here ci lit lo hi (String c s)) eqn:Hh.
    + injection H as ->. split; [by apply suffix_here_sound|].
      intros other (pre' & sep' & Heq' & Hsep' & _).
      apply suffix_here_head in Hh as (sep & Heq & Hsep & _).
      assert (String.length (sep +:+ g)
              = String.length (pre' +:+ sep' +:+ other)) as Hl
        by by rewrite <-Heq, <-Heq'.
      rewrite !app_length in Hl.
      apply literal_eq_length in Hsep, Hsep'. lia.
    + destruct (IH _ H) as [Hconv Hmax]. split; [by apply convention_cons|].
      intros other Hother. apply Hmax. by eapply convention_tail.
Qed.

Lemma captured_unique conv s g g' :
  (∀ t c, conv t c → ∃ pre, t = pre +:+ c) →
  captured conv s g → captured conv s g' → g = g'.
Proof.
  intros Hsuf [Hg Hmax] [Hg' Hmax'].
  destruct (Hsuf _ _ Hg) as [p Hp]. destruct (Hsuf _ _ Hg') as [q Hq].
  eapply (app_same_length_inv p q); [congruence|].
  apply Nat.le_antisymm; auto.
Qed.

Lemma convention_suffix ci lit lo hi t c :
  convention ci lit lo hi t c → ∃ pre, t = pre +:+ c.
Proof.
  intros (pre & sep & -> & _). exists (pre +:+ sep). by rewrite app_assoc'.
Qed.

(** The expression finds exactly what the convention captures. *)
Lemma match_suffix_captured ci lit lo hi s g :
  captured (convention ci lit lo hi) s g →
  match_suffix ci lit lo hi s = Some g.
Proof.
  intros Hcap. destruct (match_suffix ci lit lo hi s) as [g0|] eqn:Hm.
  - f_equal. apply match_suffix_some in Hm.
    eapply captured_unique; [|done..]. apply convention_suffix.
  - destruct Hcap as [Hg _]. by apply match_suffix_none with (g := g) in Hm.
Qed.

(** C8.  The company extractor tries "Title @ Company", then
    "Title at Company" in any letter case, then "Title | Company": the
    first convention the title follows gives the answer, the captured name
    with the white space at both ends removed, and nothing else removed;
    a title that follows none of them gives null.  The length of a name
    is counted in code units, and white space is that of the language.
    The four titles of the specification give "Acme Corp", "Acme", "Acme"
    and null. *)
Theorem extractCompany_conventions (title : string) :
  (∀ g, captured at_sign title g →
        ∃ company, extractCompany title = Some company ∧ trimmed g company)
  ∧ ((∀ c, ¬ at_sign title c) →
     ∀ g, captured at_word title g →
          ∃ company, extractCompany title = Some company ∧ trimmed g company)
  ∧ ((∀ c, ¬ at_sign title c) → (∀ c, ¬ at_word title c) →
     ∀ g, captured pipe title g →
          ∃ company, extractCompany title = Some company ∧ trimmed g company)
  ∧ ((∀ c, ¬ at_sign title c) → (∀ c, ¬ at_word title c) →
     (∀ c, ¬ pipe title c) → extractCompany title = None)
  ∧ (extractCompany title = None →
     (∀ c, ¬ at_sign title c) ∧ (∀ c, ¬ at_word title c)
     ∧ (∀ c, ¬ pipe title c))
  ∧ (∀ g company other,
       trimmed g company → trimmed g other → company = other)
  ∧ extractCompany "QA Engineer @ Acme Corp" = Some "Acme Corp"
  ∧ extractCompany "QA Engineer at Acme" = Some "Acme"
  ∧ extractCompany "QA Engineer | Acme" = Some "Acme"
  ∧ extractCompany "QA Engineer" = None
  ∧ extractCompany ("Tester AT Żabka Polska " +:+ utf8 160) = Some "Żabka Polska"
  ∧ extractCompany "Tester @ ł" = None
  ∧ extractCompany "Tester | Przedsiębiorstwo Wielobranżowe Łódź"
    = Some "Przedsiębiorstwo Wielobranżowe Łódź".
Proof.
  assert (∀ ci lit lo hi,
    (∀ c, ¬ convention ci lit lo hi title c) →
    match_suffix ci lit lo hi title = None) as Hnone.
  { intros ci lit lo hi Hno.
    destruct (match_suffix ci lit lo hi title) as [g|] eqn:Hm; [|done].
    apply match_suffix_some in Hm as [Hg _]. by apply Hno in Hg. }
  unfold extractCompany, at_sign, at_word, pipe.
  split_and!; try reflexivity.
  - intros g Hg. rewrite (match_suffix_captured _ _ _ _ _ _ Hg).
    exists (trim g). split; [done|apply trim_trimmed].
  - intros H1 g Hg. rewrite (Hnone _ _ _ _ H1).
    rewrite (match_suffix_captured _ _ _ _ _ _ Hg).
    exists (trim g). split; [done|apply trim_trimmed].
  - intros H1 H2 g Hg. rewrite (Hnone _ _ _ _ H1), (Hnone _ _ _ _ H2).
    rewrite (match_suffix_captured _ _ _ _ _ _ Hg).
    exists (trim g). split; [done|apply trim_trimmed].
  - intros H1 H2 H3.
    by rewrite (Hnone _ _ _ _ H1), (Hnone _ _ _ _ H2), (Hnone _ _ _ _ H3).
  - intros H.
    destruct (match_suffix false " @ " 2 60 title) eqn:E1; [done|].
    destruct (match_suffix true " at " 2 40 title) eqn:E2; [done|].
    destruct (match_suffix false "|" 2 40 title) eqn:E3; [done|].
    split_and!; by apply match_suffix_none.
  - apply trimmed_unique.
Qed.

(** *** The filter evaluator *)

(** C3.  [evaluateFilters] returns one check for each rule the configuration
    activates and none for the others, in the fixed order Match Score, Ghost
    Risk, Freshness, Work Mode, Salary Visible, Role Keywords: between zero
    and six checks, and the empty list for the empty configuration. *)
Theorem evaluateFilters_one_check_per_rule `{Runtime}
    (config : UserConfig.t) (result : AnalysisResult.t) (jdText : string)
    (posting_age_days : option jsnum) :
  map FilterCheck.name (evaluateFilters config result jdText posting_age_days)
  = map rule_name (List.filter (activated config) rule_order)
  ∧ length (evaluateFilters config result jdText posting_age_days)
    = length (List.filter (activated config) rule_order)
  ∧ (length (evaluateFilters config result jdText posting_age_days) ≤ 6)%nat
  ∧ evaluateFilters UserConfig.empty result jdText posting_age_days = [].
Proof.
  assert (map FilterCheck.name
            (evaluateFilters config result jdText posting_age_days)
          = map rule_name (List.filter (activated config) rule_order)) as Hn.
  { destruct config as [[a|] [b|] [c|] [[|]|] [[| | |]|] [[|k ks]|] sites];
      reflexivity. }
  assert (length (evaluateFilters config result jdText posting_age_days)
          = length (List.filter (activated config) rule_order)) as Hl.
  { rewrite <-(length_map FilterCheck.name), Hn. by rewrite length_map. }
  split_and!; [done|done| |done].
  rewrite Hl. etrans; [apply List.filter_length_le|]. done.
Qed.

(** *** The retry executor *)

Lemma isOverloaded_spec (e : Failure) :
  isOverloaded e = true ↔ e = APIError (Some 529).
Proof.
  destruct e as [[status|]|msg]; cbn; try (split; by intros).
  rewrite Z.eqb_eq. split; [by intros ->|by intros [= ->]].
Qed.

Lemma overloaded_Thrown {Message : Type} (e : Failure) :
  overloaded (Thrown e : outcome Message Failure) ↔ isOverloaded e = true.
Proof.
  unfold overloaded. rewrite isOverloaded_spec.
  split; [by intros [= ->]|by intros ->].
Qed.

Lemma not_overloaded_Returned {Message : Type} (m : Message) :
  ¬ overloaded (Returned m : outcome Message Failure).
Proof. by intros H. Qed.

(** One turn of the loop, by the way the attempt ends. *)
Lemma retry_loop_returned {Message : Type} create turns attempt (m : Message) :
  create attempt = Returned m →
  retry_loop create (S turns) attempt = (Returned m, [Attempt attempt]).
Proof. intros H. cbn [retry_loop]. by rewrite H. Qed.

Lemma retry_loop_other {Message : Type}
    (create : nat → outcome Message Failure) turns attempt e :
  create attempt = Thrown e → isOverloaded e = false →
  retry_loop create (S turns) attempt = (Thrown e, [Attempt attempt]).
Proof. intros H He. cbn [retry_loop]. by rewrite H, He. Qed.

Lemma retry_loop_last {Message : Type}
    (create : nat → outcome Message Failure) turns attempt e :
  create attempt = Thrown e → (length RETRY_DELAYS_MS ≤ attempt)%nat →
  retry_loop create (S turns) attempt = (Thrown e, [Attempt attempt]).
Proof.
  intros H Hlen. cbn [retry_loop]. rewrite H.
  rewrite (proj2 (Nat.ltb_ge _ _) Hlen). by rewrite andb_false_r.
Qed.

Lemma retry_loop_overloaded {Message : Type}
    (create : nat → outcome Message Failure) turns attempt delay :
  overloaded (create attempt) → RETRY_DELAYS_MS !! attempt = Some delay →
  retry_loop create (S turns) attempt
  = (fst (retry_loop create turns (S attempt)),
     Attempt attempt :: Wait delay :: snd (retry_loop create turns (S attempt))).
Proof.
  intros H Hd. cbn [retry_loop]. rewrite H.
  assert (attempt < length RETRY_DELAYS_MS)%nat as Hlt
    by (by eapply lookup_lt_Some).
  rewrite (proj2 (Nat.ltb_lt _ _) Hlt), Hd. cbn.
  by destruct (retry_loop create turns (S attempt)).
Qed.

Lemma overloaded_cases {Message : Type} (o : outcome Message Failure) :
  overloaded o ∨ ¬ overloaded o.
Proof.
  destruct o as [m|e]; [right; apply not_overloaded_Returned|].
  destruct (isOverloaded e) eqn:He.
  - left. by apply overloaded_Thrown.
  - right. intros H. apply overloaded_Thrown in H. congruence.
Qed.

(** An attempt that does not end with the overload signal ends the loop. *)
Lemma retry_loop_stop {Message : Type}
    (create : nat → outcome Message Failure) turns attempt :
  ¬ overloaded (create attempt) →
  retry_loop create (S turns) attempt = (create attempt, [Attempt attempt]).
Proof.
  intros H. destruct (create attempt) as [m|e] eqn:Hc.
  - by apply retry_loop_returned.
  - apply retry_loop_other; [done|].
    destruct (isOverloaded e) eqn:He; [|done].
    exfalso. apply H. by apply overloaded_Thrown.
Qed.

(** So does the attempt after the last delay. *)
Lemma retry_loop_final {Message : Type}
    (create : nat → outcome Message Failure) turns attempt :
  (length RETRY_DELAYS_MS ≤ attempt)%nat →
  retry_loop create (S turns) attempt = (create attempt, [Attempt attempt]).
Proof.
  intros H. destruct (create attempt) as [m|e] eqn:Hc.
  - by apply retry_loop_returned.
  - by apply retry_loop_last.
Qed.

(** C4.  [callWithRetry] retries only the overload signal (an [APIError]
    of status 529), waits 30 s, 60 s and 120 s before the first, second and
    third retry, and attempts the call at most four times.  Two overloads
    followed by a success return the success after 30 s + 60 s of waiting; a
    failure that is no overload leaves the first attempt at once, with no
    wait; when the three retries are used up the last failure reaches the
    caller. *)
Theorem callWithRetry_backoff {Message : Type}
    (create : nat → outcome Message Failure) :
  RETRY_DELAYS_MS = backoff
  ∧ (∃ n, (n ≤ 3)%nat
        ∧ (∀ k, (k < n)%nat → overloaded (create k))
        ∧ (n = 3%nat ∨ ¬ overloaded (create n))
        ∧ callWithRetry create = (create n, plan n))
  ∧ (1 ≤ attempts_made (snd (callWithRetry create)) ≤ 4)%nat
  ∧ (overloaded (create 0%nat) → overloaded (create 1%nat) →
     ∀ m, create 2%nat = Returned m →
       fst (callWithRetry create) = Returned m
       ∧ total_wait (snd (callWithRetry create)) = 30000 + 60000)
  ∧ (∀ e, create 0%nat = Thrown e → isOverloaded e = false →
       callWithRetry create = (Thrown e, [Attempt 0]))
  ∧ (overloaded (create 0%nat) → overloaded (create 1%nat) →
     overloaded (create 2%nat) →
     ∀ e, create 3%nat = Thrown e →
       callWithRetry create = (Thrown e, plan 3)
       ∧ total_wait (plan 3) = 30000 + 60000 + 120000).
Proof.
  assert (∃ n, (n ≤ 3)%nat
        ∧ (∀ k, (k < n)%nat → overloaded (create k))
        ∧ (n = 3%nat ∨ ¬ overloaded (create n))
        ∧ callWithRetry create = (create n, plan n)) as Hchar.
  { unfold callWithRetry. change (length RETRY_DELAYS_MS) with 3%nat.
    destruct (overloaded_cases (create 0%nat)) as [H0|H0].
    2:{ exists 0%nat. rewrite (retry_loop_stop _ _ _ H0).
        split_and!; [lia|intros; lia|by right|done]. }
    rewrite (retry_loop_overloaded create _ 0 30000 H0 eq_refl).
    destruct (overloaded_cases (create 1%nat)) as [H1|H1].
    2:{ exists 1%nat. rewrite (retry_loop_stop _ _ _ H1).
        split_and!; [lia|intros [|k] ?; [done|lia]|by right|done]. }
    rewrite (retry_loop_overloaded create _ 1 60000 H1 eq_refl).
    destruct (overloaded_cases (create 2%nat)) as [H2|H2].
    2:{ exists 2%nat. rewrite (retry_loop_stop _ _ _ H2).
        split_and!; [lia|intros [|[|k]] ?; [done|done|lia]|by right|done]. }
    rewrite (retry_loop_overloaded create _ 2 120000 H2 eq_refl).
    exists 3%nat. rewrite retry_loop_final by (cbn; lia).
    split_and!; [lia|intros [|[|[|k]]] ?; [done|done|done|lia]|by left|done]. }
  refine (conj _ (conj _ (conj _ (conj _ (conj _ _))))).
  - reflexivity.
  - exact Hchar.
  - destruct Hchar as (n & Hn & _ & _ & ->). cbn [snd].
    destruct n as [|[|[|[|n]]]]; cbn; lia.
  - intros H0 H1 m H2. unfold callWithRetry.
    change (length RETRY_DELAYS_MS) with 3%nat.
    rewrite (retry_loop_overloaded create _ 0 30000 H0 eq_refl).
    rewrite (retry_loop_overloaded create _ 1 60000 H1 eq_refl).
    by rewrite (retry_loop_returned _ _ _ _ H2).
  - intros e H0 He. unfold callWithRetry. by apply retry_loop_other.
  - intros H0 H1 H2 e H3. unfold callWithRetry.
    change (length RETRY_DELAYS_MS) with 3%nat.
    rewrite (retry_loop_overloaded create _ 0 30000 H0 eq_refl).
    rewrite (retry_loop_overloaded create _ 1 60000 H1 eq_refl).
    rewrite (retry_loop_overloaded create _ 2 120000 H2 eq_refl).
    rewrite (retry_loop_last _ _ _ _ H3); [done|]. cbn. lia.
Qed.

(** *** The meta-search fallback *)

Lemma searx_loop_exhausted answer site k0 instances :
  (∀ j, (j < length instances)%nat → yields (answer (k0 + j)%nat) = None) →
  searx_loop answer site k0 instances = ([], map search_request instances).
Proof.
  revert k0. induction instances as [|instance rest IH]; intros k0 Hnone.
  { reflexivity. }
  cbn [searx_loop]. rewrite IH.
  2:{ intros j Hj. replace (S k0 + j)%nat with (k0 + S j)%nat by lia.
      apply Hnone. cbn. lia. }
  specialize (Hnone 0%nat). rewrite Nat.add_0_r in Hnone.
  unfold yields in Hnone.
  destruct (answer k0) as [msg|b]; [done|].
  destruct (searx_data b) as [|[|hit more]]; [done|done|].
  discriminate Hnone. cbn. lia.
Qed.

Lemma searx_loop_first answer site k0 instances k hits :
  (k < length instances)%nat →
  (∀ j, (j < k)%nat → yields (answer (k0 + j)%nat) = None) →
  yields (answer (k0 + k)%nat) = Some hits →
  searx_loop answer site k0 instances
  = (searx_listings site hits, map search_request (take (S k) instances)).
Proof.
  revert k0 k. induction instances as [|instance rest IH]; intros k0 k Hk Hnone Hy.
  { cbn in Hk. lia. }
  cbn [searx_loop]. destruct k as [|k].
  - rewrite Nat.add_0_r in Hy. unfold yields in Hy.
    destruct (answer k0) as [msg|b]; [done|].
    destruct (searx_data b) as [|[|hit more]]; [done|done|].
    by injection Hy as <-.
  - rewrite (IH (S k0) k).
    + pose proof (Hnone 0%nat ltac:(lia)) as H0.
      rewrite Nat.add_0_r in H0. unfold yields in H0.
      destruct (answer k0) as [msg|b]; [done|].
      by destruct (searx_data b) as [|[|hit more]].
    + cbn in Hk. lia.
    + intros j Hj. replace (S k0 + j)%nat with (k0 + S j)%nat by lia.
      apply Hnone. lia.
    + by replace (S k0 + k)%nat with (k0 + S k)%nat by lia.
Qed.

Lemma searx_listings_length site hits :
  (length (searx_listings site hits) ≤ 10)%nat.
Proof.
  unfold searx_listings. etrans; [apply List.filter_length_le|].
  rewrite length_map, length_take. lia.
Qed.

(** C6.  The fallback adapter asks the three instances in their fixed
    order.  The first instance that yields at least one result decides the
    answer: its first ten results in their order, each as a listing that
    carries the url, the title and the content of the result under the
    site asked for, those without a URL left out; an instance that fails
    or yields nothing passes the turn to the next one, and no instance
    after the deciding one is asked; when none yields a result the
    adapter returns the empty list. *)
Theorem searchViaSearXNG_first_instance
    (answer : nat → Reply) (site : string) (keywords : list string) :
  SEARXNG_INSTANCES
  = ["https://searx.be"; "https://searxng.site"; "https://darmarit.org/searx"]
  ∧ (∀ k hits,
       (k < 3)%nat →
       (∀ j, (j < k)%nat → yields (answer j) = None) →
       yields (answer k) = Some hits →
       fst (searchViaSearXNG answer site keywords)
       = List.filter (fun r => nonempty (RawResult.url r))
           (listing_of site <$> take 10 hits)
       ∧ (∀ r, r ∈ fst (searchViaSearXNG answer site keywords) ↔
               ∃ hit, hit ∈ take 10 hits
                      ∧ RawResult.url r = default "" (hit_url hit)
                      ∧ RawResult.url r ≠ ""
                      ∧ RawResult.title r = default "" (hit_title hit)
                      ∧ RawResult.snippet r = default "" (hit_content hit)
                      ∧ RawResult.site r = site
                      ∧ RawResult.age_days r = None)
       ∧ (length (fst (searchViaSearXNG answer site keywords)) ≤ 10)%nat
       ∧ snd (searchViaSearXNG answer site keywords)
         = search_request <$> take (S k) SEARXNG_INSTANCES)
  ∧ ((∀ j, (j < 3)%nat → yields (answer j) = None) →
     searchViaSearXNG answer site keywords
     = ([], search_request <$> SEARXNG_INSTANCES)).
Proof.
  refine (conj eq_refl (conj _ _)).
  - intros k hits Hk Hnone Hy. unfold searchViaSearXNG.
    rewrite (searx_loop_first answer site 0 SEARXNG_INSTANCES k hits);
      [|done|done|done].
    cbn [fst snd]. split_and!; [done| |apply searx_listings_length|done].
    intros r. unfold searx_listings.
    rewrite list_elem_of_In, filter_In, in_map_iff. split.
    + intros [(hit & <- & Hhit%list_elem_of_In) Hurl].
      exists hit. split_and!; try done.
      cbn [searx_listing RawResult.url] in *.
      intros Hempty. by rewrite Hempty in Hurl.
    + intros (hit & Hhit & Hurl & Hne & Htitle & Hsnippet & Hsite & Hage).
      split.
      * exists hit. split; [|by apply list_elem_of_In].
        destruct r as [u t sn st ag]. cbn in *. by subst.
      * by destruct (RawResult.url r).
  - intros Hnone. unfold searchViaSearXNG. by apply searx_loop_exhausted.
Qed.

(** *** The aggregator: the loop over the sites *)

Section Loop.
Context `{Runtime}.
Variables (net : Network) (now : Z) (keywords : list string).

Lemma visit_site_acc i rawSite st :
  visit_site net now keywords i rawSite st
  = (fst st ++ fst (site_step net now keywords i rawSite), snd st ++ snd (site_step net now keywords i rawSite)).
Proof.
  unfold site_step, visit_site.
  destruct (run_adapter (net i) now keywords (normalizeSite rawSite))
    as [[results|msg] ev]; cbn [fst snd app]; by rewrite ?app_nil_r.
Qed.

Lemma scout_loop_acc i sites st :
  scout_loop net now keywords i sites st
  = (fst st ++ fst (scout_loop net now keywords i sites ([], [])),
     snd st ++ snd (scout_loop net now keywords i sites ([], []))).
Proof.
  revert i st. induction sites as [|rawSite rest IH]; intros i st.
  { cbn. rewrite !app_nil_r. by destruct st. }
  cbn [scout_loop]. rewrite IH, (IH _ (visit_site _ _ _ _ _ ([], []))).
  rewrite (visit_site_acc i rawSite st). cbn [fst snd].
  fold (site_step net now keywords i rawSite). by rewrite !app_assoc.
Qed.

Lemma scout_loop_cons i rawSite rest :
  scout_loop net now keywords i (rawSite :: rest) ([], [])
  = (fst (site_step net now keywords i rawSite)
       ++ fst (scout_loop net now keywords (S i) rest ([], [])),
     snd (site_step net now keywords i rawSite)
       ++ snd (scout_loop net now keywords (S i) rest ([], []))).
Proof. cbn [scout_loop]. by rewrite scout_loop_acc. Qed.

Lemma scout_loop_app i before after :
  scout_loop net now keywords i (before ++ after) ([], [])
  = (fst (scout_loop net now keywords i before ([], []))
       ++ fst (scout_loop net now keywords (i + length before) after ([], [])),
     snd (scout_loop net now keywords i before ([], []))
       ++ snd (scout_loop net now keywords (i + length before) after ([], []))).
Proof.
  revert i. induction before as [|rawSite rest IH]; intros i.
  { cbn. by rewrite Nat.add_0_r, <-surjective_pairing. }
  rewrite <-app_comm_cons, !scout_loop_cons, IH. cbn [fst snd length].
  replace (S i + length rest)%nat with (i + S (length rest))%nat by lia.
  by rewrite !app_assoc.
Qed.

Lemma site_step_visited i rawSite :
  visited (snd (site_step net now keywords i rawSite)) = [normalizeSite rawSite].
Proof.
  unfold site_step, visit_site.
  assert (∀ ev, (∀ e, e ∈ ev → ∃ u, e = Get u) → visited ev = []) as Hget.
  { induction ev as [|e ev IH]; intros Hev; [done|].
    destruct (Hev e) as [u ->]; [left|]. cbn. apply IH.
    intros e' He'. apply Hev. by right. }
  assert (∀ ev, (∃ o, run_adapter (net i) now keywords
                        (normalizeSite rawSite) = (o, ev)) →
                visited ev = []) as Hev.
  { intros ev [o Hrun]. apply Hget. unfold run_adapter in Hrun.
    destruct (String.eqb (normalizeSite rawSite) "nofluffjobs.com").
    { unfold fetchNoFluffJobsRSS in Hrun.
      destruct (net i 0%nat); injection Hrun as _ <-;
        intros e ->%list_elem_of_singleton; eauto. }
    destruct (String.eqb (normalizeSite rawSite) "justjoin.it").
    { unfold fetchJustJoinIt in Hrun.
      destruct (net i 0%nat); injection Hrun as _ <-;
        intros e ->%list_elem_of_singleton; eauto. }
    unfold searchViaSearXNG in Hrun.
    destruct (searx_loop (net i) (normalizeSite rawSite) 0 SEARXNG_INSTANCES)
      as [results ev'] eqn:Hloop.
    injection Hrun as _ <-.
    assert (∀ k instances, ∀ e,
              e ∈ snd (searx_loop (net i) (normalizeSite rawSite) k instances)
              → ∃ u, e = Get u) as Hl.
    { intros k instances. revert k.
      induction instances as [|instance rest IH]; intros k e He.
      { by apply elem_of_nil in He. }
      cbn [searx_loop] in He.
      destruct (net i k) as [msg|b].
      - cbn in He. apply elem_of_cons in He as [->|He]; eauto.
      - destruct (searx_data b) as [|[|hit more]]; cbn in He;
          apply elem_of_cons in He as [->|He]; eauto.
        by apply elem_of_nil in He. }
    intros e He. apply (Hl 0%nat SEARXNG_INSTANCES). by rewrite Hloop. }
  destruct (run_adapter (net i) now keywords (normalizeSite rawSite))
    as [[results|msg] ev] eqn:Hrun; cbn [snd app];
    unfold visited; rewrite omap_app; fold (visited ev);
    rewrite (Hev ev) by eauto; done.
Qed.

Lemma run_adapter_outcome i rawSite :
  fst (run_adapter (net i) now keywords (normalizeSite rawSite))
  = adapter_outcome net now keywords i rawSite.
Proof.
  unfold run_adapter, adapter_outcome. cbv zeta.
  destruct (String.eqb_spec (normalizeSite rawSite) "nofluffjobs.com")
    as [Hfeed|Hfeed]; [by rewrite decide_True|rewrite decide_False by done].
  destruct (String.eqb_spec (normalizeSite rawSite) "justjoin.it")
    as [Hld|Hld]; [by rewrite decide_True|rewrite decide_False by done].
  by destruct (searchViaSearXNG (net i) (normalizeSite rawSite) keywords).
Qed.

Lemma site_step_contribution i rawSite :
  fst (site_step net now keywords i rawSite)
  = contribution net now keywords i rawSite.
Proof.
  unfold contribution. rewrite <-run_adapter_outcome.
  unfold site_step, visit_site.
  by destruct (run_adapter (net i) now keywords (normalizeSite rawSite))
    as [[results|msg] ev].
Qed.

Lemma site_step_verdict i rawSite :
  match adapter_outcome net now keywords i rawSite with
  | Returned results =>
      Log (normalizeSite rawSite) (length results)
        ∈ snd (site_step net now keywords i rawSite)
  | Thrown msg =>
      Warn (normalizeSite rawSite) msg
        ∈ snd (site_step net now keywords i rawSite)
  end.
Proof.
  rewrite <-run_adapter_outcome. unfold site_step, visit_site.
  destruct (run_adapter (net i) now keywords (normalizeSite rawSite))
    as [[results|msg] ev]; cbn [fst snd app];
    apply elem_of_app; right; by left.
Qed.

Lemma scout_loop_contributions i sites :
  fst (scout_loop net now keywords i sites ([], []))
  = concat (imap (fun j => contribution net now keywords (i + j)) sites).
Proof.
  revert i. induction sites as [|rawSite rest IH]; intros i; [done|].
  rewrite scout_loop_cons. cbn [fst imap concat].
  rewrite site_step_contribution, Nat.add_0_r, IH. do 2 f_equal.
  apply imap_ext. intros j x _. cbn. f_equal. lia.
Qed.

Lemma scout_loop_site_events i sites k rawSite e :
  sites !! k = Some rawSite →
  e ∈ snd (site_step net now keywords (i + k) rawSite) →
  e ∈ snd (scout_loop net now keywords i sites ([], [])).
Proof.
  revert i k. induction sites as [|s rest IH]; intros i k; [done|].
  rewrite scout_loop_cons. cbn [snd]. destruct k as [|k].
  - intros [= ->]. rewrite Nat.add_0_r. intros He. apply elem_of_app. by left.
  - cbn [lookup list_lookup]. intros Hk He. apply elem_of_app. right.
    apply (IH (S i) k); [done|].
    by replace (S i + k)%nat with (i + S k)%nat by lia.
Qed.

Lemma scout_loop_visited i sites :
  visited (snd (scout_loop net now keywords i sites ([], [])))
  = map normalizeSite sites.
Proof.
  revert i. induction sites as [|rawSite rest IH]; intros i; [done|].
  rewrite scout_loop_cons. cbn [snd]. unfold visited. rewrite omap_app.
  fold (visited (snd (site_step net now keywords i rawSite))).
  fold (visited (snd (scout_loop net now keywords (S i) rest ([], [])))).
  by rewrite site_step_visited, IH.
Qed.

End Loop.


(** *** First occurrences *)

Lemma elem_of_first_seen (l : list string) u : u ∈ first_seen l ↔ u ∈ l.
Proof.
  induction l as [|x l IH]; [done|]. cbn [first_seen].
  rewrite !elem_of_cons, list_elem_of_filter, IH.
  destruct (decide (u = x)); tauto.
Qed.

Lemma NoDup_first_seen (l : list string) : NoDup (first_seen l).
Proof.
  induction l as [|x l IH]; [constructor|]. cbn [first_seen].
  apply NoDup_cons. split; [|by apply NoDup_filter].
  rewrite list_elem_of_filter. tauto.
Qed.

Lemma first_seen_filter (P : string → Prop) `{∀ x, Decision (P x)}
    (l : list string) :
  first_seen (filter P l) = filter P (first_seen l).
Proof.
  induction l as [|x l IH]; [done|]. cbn [first_seen].
  destruct (decide (P x)) as [HP|HP].
  - rewrite !filter_cons_True by done. cbn [first_seen]. rewrite IH.
    f_equal. rewrite !list_filter_filter. apply list_filter_iff.
    intros y. tauto.
  - rewrite !filter_cons_False by done. rewrite IH, list_filter_filter.
    apply list_filter_iff. intros y. split; [|tauto].
    intros HPy. split; [done|]. by intros ->.
Qed.

Lemma first_at_exists (l : list string) u : u ∈ l → ∃ i, first_at l u i.
Proof.
  induction l as [|x l IH]; intros Hu; [by apply elem_of_nil in Hu|].
  destruct (decide (x = u)) as [->|Hne].
  - exists 0%nat. split; [done|]. intros k Hk. lia.
  - apply elem_of_cons in Hu as [->|Hu]; [done|].
    destruct (IH Hu) as (i & Hi & Hfirst). exists (S i). split; [done|].
    intros [|k] Hk; cbn; [congruence|]. apply Hfirst. lia.
Qed.

Lemma first_at_cons (l : list string) x u i :
  u ≠ x → first_at l u i → first_at (x :: l) u (S i).
Proof.
  intros Hne [Hi Hfirst]. split; [done|].
  intros [|k] Hk; cbn; [congruence|]. apply Hfirst. lia.
Qed.

(** A filter keeps the order of what it keeps. *)
Lemma filter_lookup_order {A : Type} (P : A → Prop) `{∀ x, Decision (P x)}
    (l : list A) i j u v :
  filter P l !! i = Some u → filter P l !! j = Some v → (i < j)%nat →
  ∃ a b, (a < b)%nat ∧ l !! a = Some u ∧ l !! b = Some v.
Proof.
  revert i j. induction l as [|x l IH]; intros i j Hi Hj Hij; [done|].
  destruct (decide (P x)) as [HP|HP].
  - rewrite filter_cons_True in Hi, Hj by done.
    destruct i as [|i], j as [|j]; try lia.
    + cbn in Hi, Hj. injection Hi as ->.
      apply list_elem_of_lookup_2, list_elem_of_filter in Hj as [_ Hv].
      apply list_elem_of_lookup_1 in Hv as [b Hb].
      exists 0%nat, (S b). split_and!; [lia|done|done].
    + cbn in Hi, Hj. destruct (IH i j Hi Hj) as (a & b & ? & ? & ?); [lia|].
      exists (S a), (S b). split_and!; [lia|done|done].
  - rewrite filter_cons_False in Hi, Hj by done.
    destruct (IH i j Hi Hj) as (a & b & ? & ? & ?); [lia|].
    exists (S a), (S b). split_and!; [lia|done|done].
Qed.

(** [first_seen] lists the elements by their first occurrence. *)
Lemma first_seen_order (l : list string) i j u v :
  first_seen l !! i = Some u → first_seen l !! j = Some v → (i < j)%nat →
  ∃ i' j', first_at l u i' ∧ first_at l v j' ∧ (i' < j')%nat.
Proof.
  revert i j. induction l as [|x l IH]; intros i j Hi Hj Hij; [done|].
  cbn [first_seen] in Hi, Hj. destruct j as [|j]; [lia|]. cbn in Hj.
  assert (v ≠ x ∧ v ∈ l) as [Hvx Hvl].
  { apply list_elem_of_lookup_2, list_elem_of_filter in Hj as [Hne Hv].
    split; [exact Hne|]. by apply elem_of_first_seen. }
  destruct i as [|i].
  - cbn in Hi. injection Hi as <-.
    destruct (first_at_exists l v Hvl) as [j' Hj'].
    exists 0%nat, (S j'). split_and!; [|by apply first_at_cons|lia].
    split; [done|]. intros k Hk. lia.
  - cbn in Hi.
    assert (u ≠ x) as Hux.
    { apply list_elem_of_lookup_2, list_elem_of_filter in Hi as [Hne _].
      exact Hne. }
    destruct (filter_lookup_order _ _ _ _ _ _ Hi Hj) as (a & b & Hab & Ha & Hb);
      [lia|].
    destruct (IH a b Ha Hb Hab) as (i' & j' & Hi' & Hj' & Hlt).
    exists (S i'), (S j'). split_and!; [by apply first_at_cons..|lia].
Qed.

(** *** The adapters return listings that carry a URL *)

Section Adapters.
Context `{Runtime}.

Lemma rss_entry_url now kw el r :
  rss_entry now kw el = Some r → nonempty (RawResult.url r) = true.
Proof.
  unfold rss_entry.
  destruct (nonempty (or_else (item_link el) (item_guid el))) eqn:Hlink;
    [|done].
  destruct (nonempty (item_title el)); [|done]. cbn.
  destruct (existsb _ kw); [|done]. by intros [= <-].
Qed.

Lemma collect_parts_url kw items r :
  r ∈ collect_parts kw items → nonempty (RawResult.url r) = true.
Proof.
  induction items as [|[|u] items IH]; cbn [collect_parts];
    [by intros ?%elem_of_nil..|].
  destruct (nonempty (default "" u)) eqn:Hu; cbn; [|done].
  destruct (existsb _ kw); cbn; [|done].
  intros [->|Hr]%elem_of_cons; [done|by apply IH].
Qed.

Lemma searx_loop_url answer site k instances r :
  r ∈ fst (searx_loop answer site k instances) →
  nonempty (RawResult.url r) = true.
Proof.
  revert k. induction instances as [|instance rest IH]; intros k;
    cbn [searx_loop]; [by intros ?%elem_of_nil|].
  destruct (answer k) as [msg|b]; [apply IH|].
  destruct (searx_data b) as [|[|hit more]]; [apply IH..|].
  cbn [fst]. unfold searx_listings.
  by intros [_ Hr]%list_elem_of_In%filter_In.
Qed.

Lemma run_adapter_url answer now keywords site results ev r :
  run_adapter answer now keywords site = (Returned results, ev) →
  r ∈ results → nonempty (RawResult.url r) = true.
Proof.
  unfold run_adapter.
  destruct (String.eqb site "nofluffjobs.com").
  { unfold fetchNoFluffJobsRSS. destruct (answer 0%nat) as [msg|b]; [done|].
    intros [= <- _] (i & Hi & _)%elem_of_take.
    apply list_elem_of_lookup_2, list_elem_of_omap in Hi as (el & _ & Hel).
    by eapply rss_entry_url. }
  destruct (String.eqb site "justjoin.it").
  { unfold fetchJustJoinIt. destruct (answer 0%nat) as [msg|b]; [done|].
    intros [= <- _] Hr%list_elem_of_In%in_concat.
    destruct Hr as (l & Hl & Hr). apply in_map_iff in Hl as (sc & <- & _).
    apply list_elem_of_In in Hr.
    destruct sc as [| |hasPart]; cbn in Hr;
      [by apply elem_of_nil in Hr..|].
    by eapply collect_parts_url. }
  destruct (searchViaSearXNG answer site keywords) as [res ev'] eqn:Hs.
  intros [= <- _] Hr. eapply searx_loop_url.
  unfold searchViaSearXNG in Hs. by rewrite Hs.
Qed.

Lemma gathered_urls net now keywords i sites r :
  r ∈ fst (scout_loop net now keywords i sites ([], [])) →
  nonempty (RawResult.url r) = true.
Proof.
  revert i. induction sites as [|rawSite rest IH]; intros i;
    [by intros ?%elem_of_nil|].
  rewrite scout_loop_cons. cbn [fst].
  intros [Hr|Hr]%elem_of_app; [|by eapply IH].
  unfold site_step, visit_site in Hr.
  destruct (run_adapter (net i) now keywords (normalizeSite rawSite))
    as [[results|msg] ev] eqn:Hrun; cbn in Hr;
    [|by apply elem_of_nil in Hr].
  by eapply run_adapter_url.
Qed.

End Adapters.

(** *** The aggregator: deduplication and annotation *)

Lemma first_where_cons {A : Type} (key : A → string) (l : list A) u x y :
  key y ≠ u → first_where key l u x → first_where key (y :: l) u x.
Proof.
  intros Hne (i & Hi & Hkey & Hfirst). exists (S i). split_and!; [done..|].
  intros [|k] z Hk Hz; cbn in Hz; [by injection Hz as <-|].
  eapply Hfirst; [|done]. lia.
Qed.

Lemma first_where_head {A : Type} (key : A → string) (l : list A) x :
  first_where key (x :: l) (key x) x.
Proof. exists 0%nat. split_and!; [done..|]. intros k y Hk. lia. Qed.

Lemma first_where_elem {A : Type} (key : A → string) (l : list A) u :
  u ∈ key <$> l → ∃ x, first_where key l u x.
Proof.
  induction l as [|y l IH]; intros Hu; [by apply elem_of_nil in Hu|].
  destruct (decide (key y = u)) as [<-|Hne].
  - exists y. apply first_where_head.
  - rewrite fmap_cons in Hu. apply elem_of_cons in Hu as [->|Hu]; [done|].
    destruct (IH Hu) as [x Hx]. exists x. by apply first_where_cons.
Qed.

Lemma first_where_unique {A : Type} (key : A → string) (l : list A) u x y :
  first_where key l u x → first_where key l u y → x = y.
Proof.
  intros (i & Hi & Hx & Hfi) (j & Hj & Hy & Hfj).
  destruct (Nat.lt_trichotomy i j) as [Hlt|[->|Hlt]].
  - by destruct (Hfj i x Hlt Hi).
  - congruence.
  - by destruct (Hfi j y Hlt Hj).
Qed.

(** [Array.prototype.find] on a key returns the first element with it. *)
Lemma find_first_where {A : Type} (key : A → string) (l : list A) u x :
  List.find (fun y => String.eqb (key y) u) l = Some x ↔ first_where key l u x.
Proof.
  split.
  - induction l as [|y l IH]; [done|]. cbn [List.find].
    destruct (String.eqb_spec (key y) u) as [<-|Hne].
    + intros [= ->]. apply first_where_head.
    + intros Hx. by apply first_where_cons, IH.
  - intros Hx. destruct (List.find _ l) as [y|] eqn:Hy.
    + f_equal. symmetry. revert Hx. clear -Hy. revert Hy.
      induction l as [|z l IH]; [done|]. cbn [List.find].
      destruct (String.eqb_spec (key z) u) as [<-|Hne].
      * intros [= ->] Hx. eapply first_where_unique; [done|].
        apply first_where_head.
      * intros Hy (i & Hi & Hkey & Hfirst). apply IH; [done|].
        destruct i as [|i]; [cbn in Hi; congruence|].
        exists i. split_and!; [done..|]. intros k w Hk Hw.
        apply (Hfirst (S k) w); [lia|done].
    + destruct Hx as (i & Hi & Hkey & _).
      assert (In x l) as Hin
        by by eapply list_elem_of_In, list_elem_of_lookup_2.
      apply (find_none _ _ Hy), String.eqb_neq in Hin. done.
Qed.

(** What the filter keeps carries a URL outside [seenRaw] and is the first
    listing of [raw] with that URL. *)
Lemma dedup_elem seenRaw raw r :
  r ∈ dedup seenRaw raw →
  nonempty (RawResult.url r) = true
  ∧ (RawResult.url r ∉ seenRaw)
  ∧ first_where RawResult.url raw (RawResult.url r) r.
Proof.
  revert seenRaw. induction raw as [|x raw IH]; intros seenRaw;
    cbn [dedup]; [by intros ?%elem_of_nil|].
  destruct (nonempty (RawResult.url x)) eqn:Hx; cbn [negb orb].
  - destruct (bool_decide_reflect (RawResult.url x ∈ seenRaw)) as [Hin|Hin].
    + intros Hr. destruct (IH _ Hr) as (Hne & Hnot & Hfirst).
      split_and!; [done..|]. apply first_where_cons; [|done].
      intros Heq. by rewrite Heq in Hin.
    + intros [->|Hr]%elem_of_cons.
      * split_and!; [done..|]. apply first_where_head.
      * destruct (IH _ Hr) as (Hne & Hnot & Hfirst).
        apply not_elem_of_union in Hnot as [Hnx Hnot].
        apply not_elem_of_singleton in Hnx.
        split_and!; [done..|]. apply first_where_cons; [congruence|done].
  - intros Hr. destruct (IH _ Hr) as (Hne & Hnot & Hfirst).
    split_and!; [done..|]. apply first_where_cons; [|done].
    intros Heq. rewrite Heq in Hx. congruence.
Qed.

(** On listings that all carry a URL the filter keeps the first listing of
    each URL outside [seenRaw]. *)
Lemma dedup_urls seenRaw raw :
  (∀ r, r ∈ raw → nonempty (RawResult.url r) = true) →
  RawResult.url <$> dedup seenRaw raw
  = first_seen (filter (fun u => u ∉ seenRaw) (RawResult.url <$> raw)).
Proof.
  revert seenRaw. induction raw as [|x raw IH]; intros seenRaw Hne; [done|].
  cbn [dedup]. rewrite (Hne x) by left. cbn [negb orb]. rewrite fmap_cons.
  assert (∀ r, r ∈ raw → nonempty (RawResult.url r) = true) as Hne'
    by (intros r Hr; apply Hne; by right).
  destruct (bool_decide_reflect (RawResult.url x ∈ seenRaw)) as [Hin|Hin].
  - rewrite filter_cons_False by tauto. by apply IH.
  - rewrite filter_cons_True by done. rewrite fmap_cons. cbn [first_seen].
    f_equal. rewrite IH by done. rewrite <-first_seen_filter.
    f_equal. rewrite list_filter_filter. apply list_filter_iff.
    intros u. rewrite not_elem_of_union, not_elem_of_singleton. tauto.
Qed.

Section Aggregate.
Context `{Runtime}.

Lemma aggregate_urls log now raw :
  DiscoveryResult.url <$> aggregate log now raw
  = RawResult.url <$> dedup ∅ raw.
Proof.
  unfold aggregate. rewrite <-list_fmap_compose.
  by apply list_fmap_ext.
Qed.

(** Each result is the annotation of the first listing with its URL. *)
Lemma aggregate_elem log now raw d :
  d ∈ aggregate log now raw →
  ∃ r, first_where RawResult.url raw (DiscoveryResult.url d) r
       ∧ d = annotate log (list_to_set (ApplicationEntry.url <$> log)) now r.
Proof.
  unfold aggregate. intros (r & -> & Hr)%list_elem_of_fmap.
  exists r. split; [|done]. by apply dedup_elem in Hr as (_ & _ & Hr).
Qed.

Lemma discoverJobs_fst log net now keywords sites :
  fst (discoverJobs log net now keywords sites)
  = aggregate log now (fst (gather net now keywords sites)).
Proof.
  unfold discoverJobs. by destruct (gather net now keywords sites).
Qed.

Lemma gather_urls net now keywords sites r :
  r ∈ fst (gather net now keywords sites) →
  nonempty (RawResult.url r) = true.
Proof. apply gathered_urls. Qed.

Lemma discoverJobs_urls log net now keywords sites :
  DiscoveryResult.url <$> fst (discoverJobs log net now keywords sites)
  = first_seen (RawResult.url <$> fst (gather net now keywords sites)).
Proof.
  rewrite discoverJobs_fst, aggregate_urls, dedup_urls.
  - f_equal. induction (RawResult.url <$> fst (gather net now keywords sites))
      as [|u l IH]; [done|].
    rewrite filter_cons_True by apply not_elem_of_empty. by rewrite IH.
  - apply gather_urls.
Qed.

End Aggregate.

(** C7.  Every configured site is handled in turn, each by its adapter:
    the feed adapter for nofluffjobs.com, the JSON-LD adapter for
    justjoin.it, the fallback for any other site.  The listings gathered
    are those the adapters return, site after site; a site whose adapter
    throws contributes none and a warning is issued for it, and the
    sites before and after it contribute as they would without it.
    [discoverJobs] returns the list built from these listings: every
    listing an adapter returned has a result with its URL. *)
Theorem discoverJobs_survives_source_failure `{Runtime}
    (log : list ApplicationEntry.t) (net : Network) (now : Z)
    (keywords sites : list string) :
  fst (gather net now keywords sites)
  = concat (imap (contribution net now keywords) sites)
  ∧ fst (discoverJobs log net now keywords sites)
    = aggregate log now (concat (imap (contribution net now keywords) sites))
  ∧ (∀ i rawSite, sites !! i = Some rawSite →
       (∀ msg, adapter_outcome net now keywords i rawSite = Thrown msg →
          contribution net now keywords i rawSite = []
          ∧ Warn (normalizeSite rawSite) msg
              ∈ snd (discoverJobs log net now keywords sites))
       ∧ (∀ results, adapter_outcome net now keywords i rawSite
                     = Returned results →
          contribution net now keywords i rawSite = results
          ∧ Log (normalizeSite rawSite) (length results)
              ∈ snd (discoverJobs log net now keywords sites)
          ∧ ∀ r, r ∈ results →
              ∃ d, d ∈ fst (discoverJobs log net now keywords sites)
                   ∧ DiscoveryResult.url d = RawResult.url r))
  ∧ visited (snd (gather net now keywords sites)) = normalizeSite <$> sites
  ∧ (length (fst (discoverJobs log net now keywords sites))
     ≤ length (fst (gather net now keywords sites)))%nat.
Proof.
  assert (fst (gather net now keywords sites)
          = concat (imap (contribution net now keywords) sites)) as Hraw.
  { unfold gather. by rewrite scout_loop_contributions. }
  assert (snd (discoverJobs log net now keywords sites)
          = snd (gather net now keywords sites)) as Hev.
  { unfold discoverJobs. by destruct (gather net now keywords sites). }
  split_and!.
  - done.
  - by rewrite discoverJobs_fst, Hraw.
  - intros i rawSite Hi.
    pose proof (site_step_verdict net now keywords i rawSite) as Hverdict.
    split.
    + intros msg Hmsg. rewrite Hmsg in Hverdict. unfold contribution.
      rewrite Hmsg. split; [done|]. rewrite Hev. unfold gather.
      by apply (scout_loop_site_events net now keywords 0 sites i rawSite).
    + intros results Hres. rewrite Hres in Hverdict. unfold contribution.
      rewrite Hres. split_and!; [done| |].
      * rewrite Hev. unfold gather.
        by apply (scout_loop_site_events net now keywords 0 sites i rawSite).
      * intros r Hr.
        assert (r ∈ fst (gather net now keywords sites)) as Hin.
        { rewrite Hraw. apply list_elem_of_In, in_concat.
          exists results. split; [|by apply list_elem_of_In].
          apply list_elem_of_In, (list_elem_of_lookup_2 _ i).
          rewrite list_lookup_imap, Hi. cbn. unfold contribution.
          by rewrite Hres. }
        assert (RawResult.url r
                  ∈ DiscoveryResult.url
                      <$> fst (discoverJobs log net now keywords sites))
          as Hurl.
        { rewrite discoverJobs_urls, elem_of_first_seen.
          apply list_elem_of_fmap. by exists r. }
        apply list_elem_of_fmap in Hurl as (d & Hd & Hdin). by exists d.
  - apply scout_loop_visited.
  - clear Hraw Hev. unfold discoverJobs.
    destruct (gather net now keywords sites) as [raw ev]. cbn [fst].
    unfold aggregate. rewrite length_fmap.
    generalize (∅ : gset string).
    induction raw as [|r raw IH]; intros seenRaw; [done|]. cbn [dedup length].
    destruct (_ || _); [specialize (IH seenRaw)
                       |specialize (IH ({[RawResult.url r]} ∪ seenRaw))];
      cbn [length]; lia.
Qed.

(** C1.  Whatever the sites answered, [discoverJobs] returns one result for
    each distinct URL among the gathered listings and no other: the URLs of
    the results are those of the listings without repetition, in the order
    of their first occurrence, each result built from the first listing
    with its URL; a listing whose URL is in the history is returned as
    well, marked as already seen. *)
Theorem discoverJobs_one_result_per_url `{Runtime}
    (log : list ApplicationEntry.t) (net : Network) (now : Z)
    (keywords sites : list string) :
  let raw := fst (gather net now keywords sites) in
  let out := fst (discoverJobs log net now keywords sites) in
  DiscoveryResult.url <$> out = first_seen (RawResult.url <$> raw)
  ∧ NoDup (DiscoveryResult.url <$> out)
  ∧ (∀ u, u ∈ DiscoveryResult.url <$> out ↔ u ∈ RawResult.url <$> raw)
  ∧ (∀ i j u v,
       (DiscoveryResult.url <$> out) !! i = Some u →
       (DiscoveryResult.url <$> out) !! j = Some v → (i < j)%nat →
       ∃ i' j', first_at (RawResult.url <$> raw) u i'
                ∧ first_at (RawResult.url <$> raw) v j' ∧ (i' < j')%nat)
  ∧ (∀ d, d ∈ out →
       ∃ r, first_where RawResult.url raw (DiscoveryResult.url d) r
            ∧ DiscoveryResult.title d = RawResult.title r
            ∧ DiscoveryResult.site d = RawResult.site r)
  ∧ (∀ r, r ∈ raw → RawResult.url r ∈ ApplicationEntry.url <$> log →
       ∃ d, d ∈ out ∧ DiscoveryResult.url d = RawResult.url r
            ∧ DiscoveryResult.already_seen d = true).
Proof.
  intros raw out.
  pose proof (discoverJobs_urls log net now keywords sites) as Hurls.
  fold raw out in Hurls.
  assert (∀ u, u ∈ DiscoveryResult.url <$> out ↔ u ∈ RawResult.url <$> raw)
    as Hmem by (intros u; by rewrite Hurls, elem_of_first_seen).
  split_and!.
  - done.
  - rewrite Hurls. apply NoDup_first_seen.
  - done.
  - rewrite Hurls. apply first_seen_order.
  - intros d Hd. unfold out in Hd. rewrite discoverJobs_fst in Hd.
    apply aggregate_elem in Hd as (r & Hr & ->). by exists r.
  - intros r Hr Hlog.
    assert (RawResult.url r ∈ DiscoveryResult.url <$> out) as Hin.
    { apply Hmem. by apply list_elem_of_fmap_2. }
    apply list_elem_of_fmap in Hin as (d & Hu & Hd). exists d.
    split_and!; [done..|].
    unfold out in Hd. rewrite discoverJobs_fst in Hd.
    apply aggregate_elem in Hd as (r' & _ & ->).
    cbn in Hu |- *. rewrite <-Hu. rewrite bool_decide_eq_true.
    by apply elem_of_list_to_set.
Qed.

(** C10.  Each result repeats the url, title, snippet and site of the first
    gathered listing with its URL, and its age with an absent age turned
    into null; the other fields are those the aggregation computes from
    that listing, the history and the clock. *)
Theorem discoverJobs_keeps_adapter_fields `{Runtime}
    (log : list ApplicationEntry.t) (net : Network) (now : Z)
    (keywords sites : list string) (d : DiscoveryResult.t) :
  d ∈ fst (discoverJobs log net now keywords sites) →
  ∃ r, first_where RawResult.url (fst (gather net now keywords sites))
         (DiscoveryResult.url d) r
       ∧ DiscoveryResult.url d = RawResult.url r
       ∧ DiscoveryResult.title d = RawResult.title r
       ∧ DiscoveryResult.snippet d = RawResult.snippet r
       ∧ DiscoveryResult.site d = RawResult.site r
       ∧ DiscoveryResult.age_days d
         = match RawResult.age_days r with
           | Some age => age
           | None => None
           end
       ∧ d = {| DiscoveryResult.url := RawResult.url r;
                DiscoveryResult.title := RawResult.title r;
                DiscoveryResult.company := DiscoveryResult.company d;
                DiscoveryResult.site := RawResult.site r;
                DiscoveryResult.snippet := RawResult.snippet r;
                DiscoveryResult.age_days := nullish (RawResult.age_days r);
                DiscoveryResult.has_salary := DiscoveryResult.has_salary d;
                DiscoveryResult.ghost_preflag :=
                  DiscoveryResult.ghost_preflag d;
                DiscoveryResult.already_seen := DiscoveryResult.already_seen d;
                DiscoveryResult.seen_days_ago :=
                  DiscoveryResult.seen_days_ago d |}.
Proof.
  rewrite discoverJobs_fst. intros (r & Hr & ->)%aggregate_elem.
  exists r. by split_and!.
Qed.

Section Seen.
Context `{Runtime}.

Lemma first_entry_exists (log : list ApplicationEntry.t) u :
  u ∈ ApplicationEntry.url <$> log →
  ∃ e, List.find (fun e => String.eqb (ApplicationEntry.url e) u) log = Some e.
Proof.
  intros [e He]%first_where_elem. exists e. by apply find_first_where.
Qed.

Lemma annotate_seen log now r :
  RawResult.url r ∈ ApplicationEntry.url <$> log →
  ∃ e, first_where ApplicationEntry.url log (RawResult.url r) e
       ∧ DiscoveryResult.already_seen
           (annotate log (list_to_set (ApplicationEntry.url <$> log)) now r)
         = true
       ∧ DiscoveryResult.seen_days_ago
           (annotate log (list_to_set (ApplicationEntry.url <$> log)) now r)
         = Some (floor_div
                   (minus_time now (Date_getTime (ApplicationEntry.date e)))
                   86400000).
Proof.
  intros Hin. destruct (first_entry_exists log _ Hin) as [e He].
  exists e. split; [by apply find_first_where|].
  unfold annotate. cbn.
  rewrite (bool_decide_eq_true_2 _ (proj2 (elem_of_list_to_set _ _) Hin)).
  by rewrite He.
Qed.

Lemma annotate_unseen log now r :
  RawResult.url r ∉ ApplicationEntry.url <$> log →
  DiscoveryResult.already_seen
    (annotate log (list_to_set (ApplicationEntry.url <$> log)) now r) = false
  ∧ DiscoveryResult.seen_days_ago
      (annotate log (list_to_set (ApplicationEntry.url <$> log)) now r) = None.
Proof.
  intros Hin. unfold annotate. cbn.
  rewrite bool_decide_eq_false_2; [done|].
  by rewrite elem_of_list_to_set.
Qed.

End Seen.

Lemma whole_days_nonneg now t : t ≤ now → 0 ≤ whole_days now t.
Proof. intros Ht. unfold whole_days. apply Z.div_pos; lia. Qed.

(** C2.  A result whose URL is in the history is marked as already seen,
    and its [seen_days_ago] is the floor of the days from the logged date
    of the first history entry with that URL to the current time.
    [discoverJobs] does not floor this number at zero, as
    [rssDateToAgeDays] does with [Math.max(0, ...)] for the age of a feed
    entry: it is not negative when the logged date is not later than the
    current time, and negative when the logged date is later.  A result
    whose URL is not in the history is not marked and has null. *)
Theorem discoverJobs_seen_days `{Runtime}
    (log : list ApplicationEntry.t) (net : Network) (now : Z)
    (keywords sites : list string) (d : DiscoveryResult.t) :
  d ∈ fst (discoverJobs log net now keywords sites) →
  (DiscoveryResult.url d ∈ ApplicationEntry.url <$> log →
   DiscoveryResult.already_seen d = true
   ∧ ∃ e, first_where ApplicationEntry.url log (DiscoveryResult.url d) e
          ∧ DiscoveryResult.seen_days_ago d
            = Some (floor_div
                      (minus_time now (Date_getTime (ApplicationEntry.date e)))
                      86400000)
          ∧ ∀ t, Date_getTime (ApplicationEntry.date e) = Some t →
                 DiscoveryResult.seen_days_ago d = Some (Num (whole_days now t))
                 ∧ (t ≤ now → 0 ≤ whole_days now t)
                 ∧ (now < t → whole_days now t < 0))
  ∧ (DiscoveryResult.url d ∉ ApplicationEntry.url <$> log →
     DiscoveryResult.already_seen d = false
     ∧ DiscoveryResult.seen_days_ago d = None).
Proof.
  rewrite discoverJobs_fst. intros (r & _ & ->)%aggregate_elem.
  change (DiscoveryResult.url (annotate _ _ _ r)) with (RawResult.url r).
  split.
  - intros Hin. destruct (annotate_seen log now r Hin) as (e & He & Hs & Hd).
    split; [done|]. exists e. split_and!; [done..|]. intros t Ht.
    split_and!; [by rewrite Hd, Ht|apply whole_days_nonneg|].
    intros Hlt. unfold whole_days. apply Z.div_lt_upper_bound; lia.
  - apply annotate_unseen.
Qed.

(** A history entry dated 2026-11-10, read on 2026-11-02, gives the
    result a [seen_days_ago] of -8; [rssDateToAgeDays] gives a feed entry
    of the same date the age 0. *)
Lemma seen_days_ago_negative :
  ¬ never_negative
      (fst (@discoverJobs Host.host Examples.future_log Examples.net
              Examples.now Examples.keywords Examples.sites))
  ∧ @rssDateToAgeDays Host.host Examples.now "2026-11-10" = Some (Num 0).
Proof.
  split; [|reflexivity].
  intros Hnn.
  assert (∃ d, fst (@discoverJobs Host.host Examples.future_log
                      Examples.net Examples.now Examples.keywords
                      Examples.sites) !! 1%nat = Some d
               ∧ DiscoveryResult.seen_days_ago d = Some (Num (-8)))
    as (d & Hd & Hs).
  { vm_compute. eexists. split; reflexivity. }
  apply list_elem_of_lookup_2 in Hd.
  specialize (Hnn d (-8) Hd Hs). lia.
Qed.

(** *** The feed adapter: the age of an entry *)

(** Once floored at zero, rounding down and rounding towards zero agree. *)
Lemma floor_trunc_max0 now t :
  Z.max 0 (whole_days now t) = Z.max 0 ((now - t) ÷ 86400000).
Proof.
  unfold whole_days. change (24 * 60 * 60 * 1000) with 86400000.
  destruct (Z.le_gt_cases 0 (now - t)) as [Hpos|Hneg].
  - by rewrite Z.quot_div_nonneg by lia.
  - assert ((now - t) / 86400000 < 0) by (apply Z.div_lt_upper_bound; lia).
    assert ((now - t) ÷ 86400000 ≤ 0)
      by (apply Z.quot_le_upper_bound; lia).
    lia.
Qed.

(** C5.  For a publish date the host can read, the age is the whole days
    elapsed, floored at zero.  For one it cannot read the code returns NaN,
    not null: the [catch] that would return null is never entered.  The
    entry is emitted in both cases, its age being whatever
    [rssDateToAgeDays] returns. *)
Theorem rssDateToAgeDays_unreadable `{Runtime} (now : Z) (dateStr : string) :
  (∀ t, Date_getTime dateStr = Some t →
        rssDateToAgeDays now dateStr = Some (Num (Z.max 0 (whole_days now t)))
        ∧ Z.max 0 (whole_days now t) = Z.max 0 ((now - t) ÷ 86400000))
  ∧ (Date_getTime dateStr = None → rssDateToAgeDays now dateStr = Some NaN)
  ∧ (∀ kw el r,
       rss_entry now kw el = Some r →
       RawResult.age_days r
       = Some (rssDateToAgeDays now
                 (or_else (item_pubDate el) (item_dcDate el))))
  ∧ (∀ kw el pubDate dcDate,
       is_Some (rss_entry now kw (with_dates el pubDate dcDate))
       ↔ is_Some (rss_entry now kw el)).
Proof.
  split_and!.
  - intros t Ht. unfold rssDateToAgeDays. rewrite Ht. split; [done|].
    apply floor_trunc_max0.
  - intros Ht. unfold rssDateToAgeDays. by rewrite Ht.
  - intros kw el r. unfold rss_entry.
    destruct (negb _ || negb _); [done|].
    destruct (existsb _ kw); [|done]. by intros [= <-].
  - intros kw el pubDate dcDate. unfold rss_entry, with_dates. cbn.
    destruct (negb _ || negb _); [done|].
    destruct (existsb _ kw); [|done]. split; eauto.
Qed.

(** The feed entry of the example run has no publication date: its age
    reaches the result of [discoverJobs] as NaN. *)
Lemma discoverJobs_age_NaN :
  DiscoveryResult.age_days
  <$> fst (@discoverJobs Host.host Examples.log Examples.net Examples.now
             Examples.keywords Examples.sites)
  = [Some NaN; None].
Proof. reflexivity. Qed.

(** *** The handler of GET /api/scout *)

(** C9.  The handler answers 400 with a configuration error, and nothing
    has been requested from the network, when the configuration gives no
    search sites or no role keywords; with both lists non-empty it answers
    with what [discoverJobs] returns for them. *)
Theorem scout_handler_checks_configuration `{Runtime}
    (file : ConfigFile) (log : list ApplicationEntry.t) (net : Network)
    (now : Z) :
  (missing_or_empty (UserConfig.search_sites (loadConfig file))
   ∨ missing_or_empty (UserConfig.role_keywords (loadConfig file)) →
   ∃ msg, scout_handler file log net now = (Server.Error 400 msg, [])
          ∧ (msg = missing_sites_msg ∨ msg = missing_keywords_msg))
  ∧ (∀ role_keywords search_sites,
       UserConfig.role_keywords (loadConfig file) = Some role_keywords →
       UserConfig.search_sites (loadConfig file) = Some search_sites →
       role_keywords ≠ [] → search_sites ≠ [] →
       scout_handler file log net now
       = (Json (fst (discoverJobs log net now role_keywords search_sites)),
          snd (discoverJobs log net now role_keywords search_sites))).
Proof.
  unfold scout_handler, missing_or_empty. cbn zeta. split.
  - intros [[Hs|Hs]|[Hk|Hk]]; rewrite ?Hs, ?Hk; cbn; eauto.
    + destruct (no_length _); eauto.
    + destruct (no_length _); eauto.
  - intros kws sts -> -> Hk Hs.
    destruct kws as [|k kws]; [done|]. destruct sts as [|s sts]; [done|].
    cbn [no_length default from_option id].
    by destruct (discoverJobs log net now (k :: kws) (s :: sts)).
Qed.

(** [discoverJobs] itself checks nothing: without keywords it still asks
    the meta-search for a site of the list. *)
Lemma discoverJobs_without_keywords :
  snd (@discoverJobs Host.host [] Examples.net Examples.now [] ["pracuj.pl"])
  = [Get "https://searx.be/search"; Get "https://searxng.site/search";
     Get "https://darmarit.org/searx/search"; Log "pracuj.pl" 0; Pause 600]
  ∧ @discoverJobs Host.host [] Examples.net Examples.now ["QA"] [] = ([], []).
Proof. split; reflexivity. Qed.

(** *** The properties at work on the example run *)

Lemma extractCompany_conventions_witness :
  (∀ c, ¬ at_sign ("Tester | Żabka Polska " +:+ utf8 160) c)
  ∧ (∀ c, ¬ at_word ("Tester | Żabka Polska " +:+ utf8 160) c)
  ∧ captured pipe ("Tester | Żabka Polska " +:+ utf8 160)
      (" Żabka Polska " +:+ utf8 160)
  ∧ extractCompany ("Tester | Żabka Polska " +:+ utf8 160)
    = Some "Żabka Polska".
Proof.
  assert (∀ c, ¬ at_sign ("Tester | Żabka Polska " +:+ utf8 160) c) as H1
    by (apply match_suffix_none; reflexivity).
  assert (∀ c, ¬ at_word ("Tester | Żabka Polska " +:+ utf8 160) c) as H2
    by (apply match_suffix_none; reflexivity).
  assert (captured pipe ("Tester | Żabka Polska " +:+ utf8 160)
            (" Żabka Polska " +:+ utf8 160)) as H3
    by (apply match_suffix_some; reflexivity).
  refine (conj H1 (conj H2 (conj H3 _))).
  destruct (proj1 (proj2 (proj2
              (extractCompany_conventions
                 ("Tester | Żabka Polska " +:+ utf8 160))))
              H1 H2 (" Żabka Polska " +:+ utf8 160) H3)
    as (company & Hcompany & Htrimmed).
  rewrite Hcompany. f_equal.
  exact (trimmed_unique _ _ _ Htrimmed
           (trim_trimmed (" Żabka Polska " +:+ utf8 160))).
Defined.

Lemma callWithRetry_backoff_witness :
  overloaded (Examples.overloaded_twice 0%nat)
  ∧ overloaded (Examples.overloaded_twice 1%nat)
  ∧ Examples.overloaded_twice 2%nat = Returned "message"
  ∧ fst (callWithRetry Examples.overloaded_twice) = Returned "message"
  ∧ total_wait (snd (callWithRetry Examples.overloaded_twice)) = 30000 + 60000.
Proof.
  refine (conj eq_refl (conj eq_refl (conj eq_refl _))).
  exact (proj1 (proj2 (proj2 (proj2
           (callWithRetry_backoff Examples.overloaded_twice))))
           eq_refl eq_refl "message" eq_refl).
Defined.

Lemma searchViaSearXNG_first_instance_witness :
  (∀ j, (j < 1)%nat → yields (Examples.net 2%nat j) = None)
  ∧ yields (Examples.net 2%nat 1%nat) = Some Examples.hits
  ∧ fst (searchViaSearXNG (Examples.net 2%nat) "pracuj.pl" Examples.keywords)
    = [Examples.echo_found; Examples.found]
  ∧ snd (searchViaSearXNG (Examples.net 2%nat) "pracuj.pl" Examples.keywords)
    = [Get "https://searx.be/search"; Get "https://searxng.site/search"].
Proof.
  assert (∀ j, (j < 1)%nat → yields (Examples.net 2%nat j) = None) as Hnone.
  { intros [|j] Hj; [reflexivity|lia]. }
  refine (conj Hnone (conj eq_refl _)).
  destruct (proj1 (proj2
              (searchViaSearXNG_first_instance (Examples.net 2%nat)
                 "pracuj.pl" Examples.keywords))
              1%nat Examples.hits ltac:(lia) Hnone eq_refl)
    as (Hlistings & _ & _ & Hrequests).
  exact (conj Hlistings Hrequests).
Defined.

Lemma discoverJobs_survives_source_failure_witness :
  Examples.sites !! 1%nat = Some "https://www.justjoin.it/"
  ∧ @adapter_outcome Host.host Examples.net Examples.now Examples.keywords
      1%nat "https://www.justjoin.it/"
    = Thrown "timeout of 20000ms exceeded"
  ∧ Warn "justjoin.it" "timeout of 20000ms exceeded"
      ∈ snd (@discoverJobs Host.host Examples.log Examples.net Examples.now
               Examples.keywords Examples.sites)
  ∧ fst (@gather Host.host Examples.net Examples.now Examples.keywords
           Examples.sites)
    = [Examples.feed_found; Examples.echo_found; Examples.found]
  ∧ fst (@discoverJobs Host.host Examples.log Examples.net Examples.now
           Examples.keywords Examples.sites)
    = [Examples.fresh_result; Examples.seen_result].
Proof.
  refine (conj eq_refl (conj eq_refl _)).
  destruct (@discoverJobs_survives_source_failure Host.host Examples.log
              Examples.net Examples.now Examples.keywords Examples.sites)
    as (Hraw & Hout & Hsites & _).
  destruct (Hsites 1%nat "https://www.justjoin.it/" eq_refl) as [Hfail _].
  destruct (Hfail "timeout of 20000ms exceeded" eq_refl) as [_ Hwarn].
  exact (conj Hwarn (conj Hraw Hout)).
Defined.

Lemma discoverJobs_one_result_per_url_witness :
  Examples.found
    ∈ fst (@gather Host.host Examples.net Examples.now Examples.keywords
             Examples.sites)
  ∧ RawResult.url Examples.found ∈ ApplicationEntry.url <$> Examples.log
  ∧ ∃ d, d ∈ fst (@discoverJobs Host.host Examples.log Examples.net
                    Examples.now Examples.keywords Examples.sites)
         ∧ DiscoveryResult.url d = RawResult.url Examples.found
         ∧ DiscoveryResult.already_seen d = true.
Proof.
  assert (Examples.found
            ∈ fst (@gather Host.host Examples.net Examples.now
                     Examples.keywords Examples.sites)) as Hraw.
  { apply (list_elem_of_lookup_2 _ 2%nat). reflexivity. }
  assert (RawResult.url Examples.found
            ∈ ApplicationEntry.url <$> Examples.log) as Hlog.
  { apply (list_elem_of_lookup_2 _ 0%nat). reflexivity. }
  refine (conj Hraw (conj Hlog _)).
  exact (proj2 (proj2 (proj2 (proj2 (proj2
           (@discoverJobs_one_result_per_url Host.host Examples.log
              Examples.net Examples.now Examples.keywords Examples.sites)))))
           Examples.found Hraw Hlog).
Defined.

Lemma discoverJobs_keeps_adapter_fields_witness :
  Examples.seen_result
    ∈ fst (@discoverJobs Host.host Examples.log Examples.net Examples.now
             Examples.keywords Examples.sites)
  ∧ ∃ r, first_where RawResult.url
           (fst (@gather Host.host Examples.net Examples.now
                   Examples.keywords Examples.sites))
           (DiscoveryResult.url Examples.seen_result) r
         ∧ DiscoveryResult.title Examples.seen_result = RawResult.title r.
Proof.
  assert (Examples.seen_result
            ∈ fst (@discoverJobs Host.host Examples.log Examples.net
                     Examples.now Examples.keywords Examples.sites)) as Hd.
  { apply (list_elem_of_lookup_2 _ 1%nat). reflexivity. }
  refine (conj Hd _).
  destruct (@discoverJobs_keeps_adapter_fields Host.host Examples.log
              Examples.net Examples.now Examples.keywords Examples.sites
              Examples.seen_result Hd) as (r & Hr & _ & Ht & _).
  exact (ex_intro _ r (conj Hr Ht)).
Defined.

Lemma discoverJobs_seen_days_witness :
  (Examples.seen_result
     ∈ fst (@discoverJobs Host.host Examples.log Examples.net Examples.now
              Examples.keywords Examples.sites)
   ∧ DiscoveryResult.url Examples.seen_result
       ∈ ApplicationEntry.url <$> Examples.log
   ∧ DiscoveryResult.already_seen Examples.seen_result = true
   ∧ DiscoveryResult.seen_days_ago Examples.seen_result = Some (Num 3))
  ∧ (Examples.late_result
       ∈ fst (@discoverJobs Host.host Examples.future_log Examples.net
                Examples.now Examples.keywords Examples.sites)
     ∧ DiscoveryResult.url Examples.late_result
         ∈ ApplicationEntry.url <$> Examples.future_log
     ∧ DiscoveryResult.already_seen Examples.late_result = true
     ∧ DiscoveryResult.seen_days_ago Examples.late_result
       = Some (Num (-8))).
Proof.
  assert (Examples.seen_result
            ∈ fst (@discoverJobs Host.host Examples.log Examples.net
                     Examples.now Examples.keywords Examples.sites)) as Hd.
  { apply (list_elem_of_lookup_2 _ 1%nat). reflexivity. }
  assert (DiscoveryResult.url Examples.seen_result
            ∈ ApplicationEntry.url <$> Examples.log) as Hlog.
  { apply (list_elem_of_lookup_2 _ 0%nat). reflexivity. }
  assert (Examples.late_result
            ∈ fst (@discoverJobs Host.host Examples.future_log Examples.net
                     Examples.now Examples.keywords Examples.sites)) as Hd'.
  { apply (list_elem_of_lookup_2 _ 1%nat). reflexivity. }
  assert (DiscoveryResult.url Examples.late_result
            ∈ ApplicationEntry.url <$> Examples.future_log) as Hlog'.
  { apply (list_elem_of_lookup_2 _ 0%nat). reflexivity. }
  split.
  - refine (conj Hd (conj Hlog _)).
    exact (conj
             (proj1 (proj1
                (@discoverJobs_seen_days Host.host Examples.log Examples.net
                   Examples.now Examples.keywords Examples.sites
                   Examples.seen_result Hd) Hlog))
             eq_refl).
  - refine (conj Hd' (conj Hlog' _)).
    exact (conj
             (proj1 (proj1
                (@discoverJobs_seen_days Host.host Examples.future_log
                   Examples.net Examples.now Examples.keywords
                   Examples.sites Examples.late_result Hd') Hlog'))
             eq_refl).
Defined.

Lemma rssDateToAgeDays_unreadable_witness :
  @Date_getTime Host.host "" = None
  ∧ @rssDateToAgeDays Host.host Examples.now "" = Some NaN.
Proof.
  refine (conj eq_refl _).
  exact (proj1 (proj2
           (@rssDateToAgeDays_unreadable Host.host Examples.now ""))
           eq_refl).
Defined.

Lemma scout_handler_checks_configuration_witness :
  missing_or_empty (UserConfig.search_sites (loadConfig Absent))
  ∧ ∃ msg,
      @scout_handler Host.host Absent Examples.log Examples.net Examples.now
      = (Server.Error 400 msg, [])
      ∧ (msg = missing_sites_msg ∨ msg = missing_keywords_msg).
Proof.
  assert (missing_or_empty (UserConfig.search_sites (loadConfig Absent)))
    as Hmissing by (left; reflexivity).
  refine (conj Hmissing _).
  exact (proj1
           (@scout_handler_checks_configuration Host.host Absent Examples.log
              Examples.net Examples.now)
           (or_introl Hmissing)).
Defined.

(* ===================================================================== *)
(** ** Further properties of the code *)
(* ===================================================================== *)

(** *** More on strings *)

Lemma prefix_app (k s : string) : String.prefix k (k +:+ s) = true.
Proof.
  induction k as [|c k IH]; [by destruct s|].
  rewrite app_cons. cbn. by destruct (ascii_dec c c).
Qed.

Lemma prefix_app_l (k a b : string) :
  String.prefix k a = true → String.prefix k (a +:+ b) = true.
Proof.
  revert a. induction k as [|c k IH]; intros a H.
  - by destruct (a +:+ b).
  - destruct a as [|d a]; [done|]. rewrite app_cons. cbn in *.
    destruct (ascii_dec c d); [by apply IH|done].
Qed.

Lemma prefix_inv (k s : string) :
  String.prefix k s = true → ∃ r, s = k +:+ r.
Proof.
  revert s. induction k as [|c k IH]; intros s H; [by exists s|].
  destruct s as [|d s]; [done|]. cbn in H.
  destruct (ascii_dec c d) as [->|]; [|done].
  destruct (IH _ H) as [r ->]. by exists r.
Qed.

Lemma includes_app_l (a b k : string) :
  includes a k = true → includes (a +:+ b) k = true.
Proof.
  induction a as [|c a IH]; cbn [includes]; intros H.
  - rewrite orb_false_r in H. destruct k; [|done]. by destruct b.
  - apply orb_true_iff in H as [H|H].
    + change (String c a +:+ b) with (String c (a +:+ b)). cbn [includes].
      apply orb_true_iff. left.
      by apply (prefix_app_l k (String c a) b).
    + rewrite app_cons. cbn [includes]. apply orb_true_iff. right. by apply IH.
Qed.

Lemma includes_app_r (a b k : string) :
  includes b k = true → includes (a +:+ b) k = true.
Proof.
  intros H. induction a as [|c a IH]; [done|].
  rewrite app_cons. cbn [includes]. apply orb_true_iff. by right.
Qed.

Lemma includes_middle (a k b : string) : includes (a +:+ k +:+ b) k = true.
Proof.
  apply includes_app_r. destruct (k +:+ b) eqn:E; cbn [includes];
    rewrite <-E; by rewrite prefix_app.
Qed.

(** What [includes] finds is a part of the text. *)
Lemma includes_inv (s k : string) :
  includes s k = true → ∃ a b, s = a +:+ k +:+ b.
Proof.
  induction s as [|c s IH]; cbn [includes]; intros H.
  - rewrite orb_false_r in H. apply prefix_inv in H as [r Hr].
    by exists "", r.
  - apply orb_true_iff in H as [H|H].
    + apply prefix_inv in H as [r Hr]. by exists "", r.
    + destruct (IH H) as (a & b & ->). by exists (String c a), b.
Qed.

Lemma lower_ascii_app (a b : string) :
  lower_ascii (a +:+ b) = lower_ascii a +:+ lower_ascii b.
Proof.
  induction a as [|c a IH]; [done|].
  rewrite app_cons. cbn. by rewrite app_cons, <-IH.
Qed.

Lemma lower_char_idem (c : ascii) : lower_char (lower_char c) = lower_char c.
Proof.
  unfold lower_char. destruct (is_upper c) eqn:Hc; [|by rewrite Hc].
  unfold is_upper in *. apply andb_true_iff in Hc as [H1 H2].
  apply Nat.leb_le in H1, H2.
  rewrite nat_ascii_embedding by lia.
  destruct (Nat.leb 65 (nat_of_ascii c + 32) && Nat.leb (nat_of_ascii c + 32) 90)
    eqn:E; [|done].
  apply andb_true_iff in E as [_ E]. apply Nat.leb_le in E. lia.
Qed.

Lemma lower_ascii_idem (s : string) : lower_ascii (lower_ascii s) = lower_ascii s.
Proof.
  induction s as [|c s IH]; [done|]. cbn. rewrite lower_char_idem.
  f_equal. apply IH.
Qed.

Lemma slice0_length n s : (String.length (slice0 n s) ≤ n)%nat.
Proof.
  revert s. induction n as [|n IH]; intros [|c s]; cbn; try lia.
  specialize (IH s). lia.
Qed.

Lemma slice0_length_le n s : (String.length (slice0 n s) ≤ String.length s)%nat.
Proof.
  revert s. induction n as [|n IH]; intros [|c s]; cbn; try lia.
  specialize (IH s). lia.
Qed.

(** *** The snippet of a feed entry *)

Lemma spaced_blanks b l :
  spaced b l = true → Forall (fun c => white c → c = " ") l.
Proof.
  revert b. induction l as [|c l IH]; intros b; [by constructor|].
  rewrite spaced_cons. destruct (is_space c) eqn:Hc.
  - intros [[Heq%String.eqb_eq _]%andb_true_iff H]%andb_true_iff.
    constructor; [done|by eapply IH].
  - intros H. constructor; [|by eapply IH].
    intros Hw%is_space_white. congruence.
Qed.

Lemma clean_snippet_units rawDesc : (units (clean_snippet rawDesc) ≤ 200)%nat.
Proof. apply slice_to_units. Qed.

Lemma clean_snippet_spaced rawDesc :
  single_spaced false (clean_snippet rawDesc) = true.
Proof.
  unfold clean_snippet.
  eapply slice_to_single_spaced, trim_single_spaced, collapse_spaces_single.
Qed.

Example clean_snippet_polish :
  clean_snippet ("<b>Zażółć</b>" +:+ utf8 160 +:+ utf8 8232 +:+ " gęślą jaźń ")
  = "Zażółć gęślą jaźń"
  ∧ units (clean_snippet
             ("łłłłłłłłłłłłłłłłłłłłłłłłłłłłłłłłłłłłłłłłłłłłłłłłłł"
              +:+ "łłłłłłłłłłłłłłłłłłłłłłłłłłłłłłłłłłłłłłłłłłłłłłłłłł"
              +:+ "abc")) = 103%nat.
Proof. split; reflexivity. Qed.

(** X1.  The snippet the feed adapter makes of a description has at most
    200 code units; its white space is single blanks, whatever white
    space of the language the description held, and it does not begin
    with white space. *)
Theorem clean_snippet_tidy (rawDesc : string) :
  (units (clean_snippet rawDesc) ≤ 200)%nat
  ∧ single_spaced false (clean_snippet rawDesc) = true
  ∧ Forall (fun c => white c → c = " ") (chars (clean_snippet rawDesc))
  ∧ starts_clean (clean_snippet rawDesc) = true.
Proof.
  pose proof (clean_snippet_spaced rawDesc) as Hs.
  split_and!.
  - apply slice_to_units.
  - done.
  - by eapply spaced_blanks.
  - apply slice_to_starts_clean. apply trim_clean.
Qed.

(** *** The company extractor *)

Lemma match_suffix_part ci lit lo hi title g :
  match_suffix ci lit lo hi title = Some g →
  (units g ≤ hi)%nat ∧ ∃ pre, title = pre +:+ g.
Proof.
  intros [Hconv _]%match_suffix_some.
  destruct (convention_suffix _ _ _ _ _ _ Hconv) as [pre Hpre].
  destruct Hconv as (_ & _ & _ & _ & Hlen & _). split; [lia|by exists pre].
Qed.

Lemma trim_of_suffix title pre g :
  title = pre +:+ g →
  (units (trim g) ≤ units g)%nat
  ∧ includes title (trim g) = true.
Proof.
  intros ->. split; [apply trim_units|].
  destruct (trim_part g) as (p & q & Hg). rewrite Hg at 1.
  rewrite <-app_assoc'. apply includes_middle.
Qed.

(** X2.  The company [extractCompany] returns is a part of the title, of
    at most 60 code units, with no white space at either end; it may be
    the empty string. *)
Theorem extractCompany_result (title company : string) :
  extractCompany title = Some company →
  (units company ≤ 60)%nat
  ∧ includes title company = true
  ∧ starts_clean company = true ∧ ends_clean company = true.
Proof.
  unfold extractCompany.
  destruct (match_suffix false " @ " 2 60 title) as [g1|] eqn:E1.
  { intros [= <-]. apply match_suffix_part in E1 as [Hlen [pre Hpre]].
    destruct (trim_of_suffix _ _ _ Hpre) as [Hl Hi].
    split_and!; [lia|done|apply trim_clean..]. }
  destruct (match_suffix true " at " 2 40 title) as [g2|] eqn:E2.
  { intros [= <-]. apply match_suffix_part in E2 as [Hlen [pre Hpre]].
    destruct (trim_of_suffix _ _ _ Hpre) as [Hl Hi].
    split_and!; [lia|done|apply trim_clean..]. }
  destruct (match_suffix false "|" 2 40 title) as [g3|] eqn:E3; [|done].
  intros [= <-]. apply match_suffix_part in E3 as [Hlen [pre Hpre]].
  destruct (trim_of_suffix _ _ _ Hpre) as [Hl Hi].
  split_and!; [lia|done|apply trim_clean..].
Qed.

Lemma extractCompany_result_witness :
  extractCompany "Tester @ Łódź Sp. z o.o.  " = Some "Łódź Sp. z o.o."
  ∧ (units "Łódź Sp. z o.o." ≤ 60)%nat
  ∧ includes "Tester @ Łódź Sp. z o.o.  " "Łódź Sp. z o.o." = true.
Proof.
  refine (conj eq_refl _).
  destruct (extractCompany_result "Tester @ Łódź Sp. z o.o.  "
              "Łódź Sp. z o.o." eq_refl) as (H1 & H2 & _).
  exact (conj H1 H2).
Defined.

(** *** The salary detector *)

Lemma after_literal_prefix lit s :
  lower_ascii lit = lit →
  is_Some (after_literal true lit s) ↔ String.prefix lit (lower_ascii s) = true.
Proof.
  revert s. induction lit as [|a lit IH]; intros s Hlit.
  - cbn. split; [intros _; by destruct (lower_ascii s)|by eauto].
  - cbn in Hlit. injection Hlit as Ha Hlit.
    destruct s as [|b s]; cbn; [split; [by intros [? ?]|done]|].
    unfold char_eq. rewrite Ha.
    destruct (Ascii.eqb_spec a (lower_char b)) as [->|Hne].
    + destruct (ascii_dec (lower_char b) (lower_char b)); [|done].
      by apply IH.
    + destruct (ascii_dec a (lower_char b)); [done|].
      split; [by intros [? ?]|done].
Qed.

Lemma starts_ci_prefix lit s :
  lower_ascii lit = lit →
  starts_ci lit s = String.prefix lit (lower_ascii s).
Proof.
  intros Hlit. unfold starts_ci.
  destruct (String.prefix lit (lower_ascii s)) eqn:Hp.
  - apply bool_decide_eq_true. by apply after_literal_prefix.
  - apply bool_decide_eq_false. rewrite after_literal_prefix by done.
    by rewrite Hp.
Qed.

Lemma test_anywhere_app here p s :
  test_anywhere here s = true → test_anywhere here (p +:+ s) = true.
Proof.
  intros H. induction p as [|c p IH]; [done|].
  rewrite app_cons. cbn [test_anywhere]. by rewrite IH, orb_true_r.
Qed.

Lemma test_anywhere_inv here s :
  test_anywhere here s = true → ∃ p r, s = p +:+ r ∧ here r = true.
Proof.
  induction s as [|c s IH]; cbn [test_anywhere]; intros H.
  - rewrite orb_false_r in H. by exists "", "".
  - apply orb_true_iff in H as [H|H]; [by exists "", (String c s)|].
    destruct (IH H) as (p & r & -> & Hr). by exists (String c p), r.
Qed.

Lemma test_anywhere_includes tok text :
  lower_ascii tok = tok →
  includes (lower_ascii text) tok = true →
  test_anywhere (starts_ci tok) text = true.
Proof.
  intros Htok. induction text as [|c text IH]; cbn [includes test_anywhere].
  - change (lower_ascii "") with "". cbn [includes].
    rewrite !orb_false_r. rewrite starts_ci_prefix by done.
    intros H. exact H.
  - change (lower_ascii (String c text))
      with (String (lower_char c) (lower_ascii text)).
    cbn [includes]. intros [H|H]%orb_true_iff; apply orb_true_iff.
    + left. rewrite starts_ci_prefix by done. exact H.
    + right. by apply IH.
Qed.

Lemma salary_token_here tok s :
  tok ∈ salary_tokens → starts_ci tok s = true → salary_here s = true.
Proof.
  unfold salary_tokens, salary_here. intros Htok H.
  repeat (apply elem_of_cons in Htok as [->|Htok];
          [rewrite H; by rewrite ?orb_true_r|]).
  by apply elem_of_nil in Htok.
Qed.

Lemma salary_token_lower tok : tok ∈ salary_tokens → lower_ascii tok = tok.
Proof.
  unfold salary_tokens. intros Htok.
  repeat (apply elem_of_cons in Htok as [->|Htok]; [reflexivity|]).
  by apply elem_of_nil in Htok.
Qed.

Lemma test_anywhere_mono (p q : string → bool) s :
  (∀ r, p r = true → q r = true) →
  test_anywhere p s = true → test_anywhere q s = true.
Proof.
  intros Hpq. induction s as [|c s IH]; cbn [test_anywhere].
  - rewrite !orb_false_r. apply Hpq.
  - intros [H|H]%orb_true_iff; apply orb_true_iff; [left|right]; auto.
Qed.

Lemma has_digit_app p c r :
  is_digit c = true →
  str_forall (fun c => negb (is_digit c)) (p +:+ String c r) = false.
Proof.
  intros Hc. induction p as [|d p IH].
  - rewrite app_empty_l. cbn [str_forall]. by rewrite Hc.
  - rewrite app_cons. cbn [str_forall]. by rewrite IH, andb_false_r.
Qed.

(** X3.  [hasSalary] answers true on every text that holds, in any letter
    case, one of b2b, uop, salary, wynagrodzenie; it answers true only on
    a text that holds a digit or one of these tokens; and what precedes a
    text it accepts does not change its answer. *)
Theorem hasSalary_tokens (text : string) :
  (∀ tok, tok ∈ salary_tokens → includes (lower_ascii text) tok = true →
          hasSalary text = true)
  ∧ (hasSalary text = true →
     str_forall (fun c => negb (is_digit c)) text = false
     ∨ ∃ tok, tok ∈ salary_tokens ∧ includes (lower_ascii text) tok = true)
  ∧ (∀ before, hasSalary text = true → hasSalary (before +:+ text) = true).
Proof.
  split_and!.
  - intros tok Htok Hinc. unfold hasSalary.
    eapply test_anywhere_mono; [intros r; by apply salary_token_here|].
    apply test_anywhere_includes; [by apply salary_token_lower|done].
  - unfold hasSalary. intros (p & r & -> & Hr)%test_anywhere_inv.
    unfold salary_here in Hr.
    assert (∀ tok, tok ∈ salary_tokens → starts_ci tok r = true →
              ∃ tok, tok ∈ salary_tokens
                     ∧ includes (lower_ascii (p +:+ r)) tok = true) as Htok.
    { intros tok Hin Hs. exists tok. split; [done|].
      rewrite lower_ascii_app. apply includes_app_r.
      rewrite starts_ci_prefix in Hs by by apply salary_token_lower.
      destruct (lower_ascii r); cbn [includes]; by rewrite Hs. }
    repeat apply orb_true_iff in Hr as [Hr|Hr].
    + left. destruct r as [|c r]; [done|].
      apply andb_true_iff in Hr as [Hc _]. by apply has_digit_app.
    + right. apply (Htok "b2b"); [|done]. set_solver.
    + right. apply (Htok "uop"); [|done]. set_solver.
    + right. apply (Htok "salary"); [|done]. set_solver.
    + right. apply (Htok "wynagrodzenie"); [|done]. set_solver.
  - intros before. apply test_anywhere_app.
Qed.

Lemma hasSalary_tokens_witness :
  "b2b" ∈ salary_tokens
  ∧ includes (lower_ascii "Senior QA, B2B or UoP") "b2b" = true
  ∧ hasSalary "Senior QA, B2B or UoP" = true.
Proof.
  assert ("b2b" ∈ salary_tokens) as Hin by (by left).
  refine (conj Hin (conj eq_refl _)).
  exact (proj1 (hasSalary_tokens "Senior QA, B2B or UoP") "b2b" Hin eq_refl).
Defined.

(** *** What the adapters return *)

Section AdapterListings.
Context `{Runtime}.

Lemma rss_entry_inv now kw el r :
  rss_entry now kw el = Some r →
  r = RawResult.mk (or_else (item_link el) (item_guid el)) (item_title el)
        (clean_snippet (item_description el)) "nofluffjobs.com"
        (Some (rssDateToAgeDays now
                 (or_else (item_pubDate el) (item_dcDate el))))
  ∧ nonempty (item_title el) = true
  ∧ existsb
      (fun k =>
         includes
           (toLowerCase
              (item_title el +:+ " " +:+ clean_snippet (item_description el)))
           k) kw = true.
Proof.
  unfold rss_entry.
  destruct (nonempty (or_else (item_link el) (item_guid el))); [|done].
  destruct (nonempty (item_title el)); [|done]. cbn [negb orb].
  destruct (existsb _ kw) eqn:Hkw; [|done]. by intros [= <-].
Qed.

Lemma omap_none {A B : Type} (f : A → option B) (l : list A) :
  (∀ x, f x = None) → omap f l = [].
Proof. intros Hf. induction l as [|x l IH]; [done|]. cbn. by rewrite Hf. Qed.

Lemma rss_entry_no_keywords now el : rss_entry now [] el = None.
Proof.
  unfold rss_entry.
  destruct (nonempty (or_else (item_link el) (item_guid el))); [|done].
  by destruct (nonempty (item_title el)).
Qed.

Lemma fetchNoFluffJobsRSS_site reply now keywords results ev r :
  fetchNoFluffJobsRSS reply now keywords = (Returned results, ev) →
  r ∈ results → RawResult.site r = "nofluffjobs.com".
Proof.
  unfold fetchNoFluffJobsRSS. destruct reply as [msg|b]; [done|].
  intros [= <- _] (i & Hi & _)%elem_of_take.
  apply list_elem_of_lookup_2, list_elem_of_omap in Hi as (el & _ & Hel).
  by apply rss_entry_inv in Hel as (-> & _).
Qed.

(** X5.  The feed adapter returns at most 30 listings after one request;
    each carries the site nofluffjobs.com, a URL, a title, a snippet of at
    most 200 code units, an age that is never null, and one of the
    keywords, made lower case by the runtime, in the lower-cased text of
    its title and snippet.  Without keywords it returns nothing. *)
Theorem fetchNoFluffJobsRSS_listings (reply : Reply) (now : Z)
    (keywords : list string) (results : list RawResult.t) (ev : list Event) :
  fetchNoFluffJobsRSS reply now keywords = (Returned results, ev) →
  (length results ≤ 30)%nat
  ∧ ev = [Get "https://nofluffjobs.com/rss"]
  ∧ (keywords = [] → results = [])
  ∧ ∀ r, r ∈ results →
      RawResult.site r = "nofluffjobs.com"
      ∧ nonempty (RawResult.url r) = true
      ∧ nonempty (RawResult.title r) = true
      ∧ (units (RawResult.snippet r) ≤ 200)%nat
      ∧ (∃ age, RawResult.age_days r = Some (Some age))
      ∧ ∃ k, k ∈ keywords
             ∧ includes
                 (toLowerCase
                    (RawResult.title r +:+ " " +:+ RawResult.snippet r))
                 (toLowerCase k) = true.
Proof.
  unfold fetchNoFluffJobsRSS. destruct reply as [msg|b]; [done|].
  intros [= <- <-]. split_and!.
  - rewrite length_take. lia.
  - done.
  - intros ->. cbn [map].
    by rewrite (omap_none _ _ (rss_entry_no_keywords now)).
  - intros r (i & Hi & _)%elem_of_take.
    apply list_elem_of_lookup_2, list_elem_of_omap in Hi as (el & _ & Hel).
    pose proof (rss_entry_url _ _ _ _ Hel) as Hurl.
    apply rss_entry_inv in Hel as (-> & Htitle & Hkw). cbn in *.
    split_and!; [done..|apply clean_snippet_units| |].
    + unfold rssDateToAgeDays. eauto.
    + apply existsb_exists in Hkw as (k' & Hk' & Hinc).
      apply in_map_iff in Hk' as (k & <- & Hk).
      exists k. split; [by apply list_elem_of_In|done].
Qed.

Lemma collect_parts_broken kw before after :
  collect_parts kw (before ++ LdBroken :: after) = collect_parts kw before.
Proof.
  induction before as [|[|u] before IH]; [done..|].
  cbn [app collect_parts]. rewrite IH.
  by destruct (negb _); [|destruct (negb _)].
Qed.

Lemma collect_parts_inv kw items r :
  r ∈ collect_parts kw items →
  RawResult.site r = "justjoin.it"
  ∧ RawResult.age_days r = Some None
  ∧ RawResult.title r = slugToTitle (last_segment (RawResult.url r))
  ∧ RawResult.snippet r = hyphens_to_space false (last_segment (RawResult.url r))
  ∧ existsb (fun k => includes (last_segment (RawResult.url r)) k) kw = true.
Proof.
  induction items as [|[|u] items IH]; cbn [collect_parts];
    [by intros ?%elem_of_nil..|].
  destruct (nonempty (default "" u)); cbn [negb]; [|exact IH].
  destruct (existsb (fun k => includes (last_segment (default "" u)) k) kw)
    eqn:Hkw; cbn [negb]; [|exact IH].
  intros [->|Hr]%elem_of_cons; [done|by apply IH].
Qed.

Lemma fetchJustJoinIt_site reply keywords results ev r :
  fetchJustJoinIt reply keywords = (Returned results, ev) →
  r ∈ results → RawResult.site r = "justjoin.it".
Proof.
  unfold fetchJustJoinIt. destruct reply as [msg|b]; [done|].
  intros [= <- _] Hr%list_elem_of_In%in_concat.
  destruct Hr as (l & Hl & Hr). apply in_map_iff in Hl as (sc & <- & _).
  apply list_elem_of_In in Hr.
  destruct sc as [| |hasPart]; cbn in Hr; [by apply elem_of_nil in Hr..|].
  by apply collect_parts_inv in Hr as (? & _).
Qed.

(** X6.  Each listing of the JSON-LD adapter carries the site justjoin.it,
    no age, a title and a snippet made from the last segment of its URL,
    and a lower-cased keyword in that segment as it is written.  An
    entry that cannot be read ends its block: the entries before it are
    kept, those after it are not looked at. *)
Theorem fetchJustJoinIt_listings (reply : Reply) (keywords : list string)
    (results : list RawResult.t) (ev : list Event) :
  fetchJustJoinIt reply keywords = (Returned results, ev) →
  ev = [Get "https://justjoin.it/"]
  ∧ (∀ r, r ∈ results →
       RawResult.site r = "justjoin.it"
       ∧ RawResult.age_days r = Some None
       ∧ nonempty (RawResult.url r) = true
       ∧ RawResult.title r = slugToTitle (last_segment (RawResult.url r))
       ∧ RawResult.snippet r
         = hyphens_to_space false (last_segment (RawResult.url r))
       ∧ ∃ k, k ∈ keywords
              ∧ includes (last_segment (RawResult.url r)) (toLowerCase k)
                = true)
  ∧ ∀ kw before after,
      ld_script_results kw (LdCollection (before ++ LdBroken :: after))
      = ld_script_results kw (LdCollection before).
Proof.
  unfold fetchJustJoinIt. destruct reply as [msg|b]; [done|].
  intros [= <- <-]. split_and!; [done| |].
  - intros r Hr%list_elem_of_In%in_concat.
    destruct Hr as (l & Hl & Hr). apply in_map_iff in Hl as (sc & <- & _).
    apply list_elem_of_In in Hr.
    destruct sc as [| |hasPart]; cbn in Hr; [by apply elem_of_nil in Hr..|].
    pose proof (collect_parts_url _ _ _ Hr) as Hurl.
    apply collect_parts_inv in Hr as (? & ? & ? & ? & Hkw).
    split_and!; [done..|].
    apply existsb_exists in Hkw as (k' & Hk' & Hinc).
    apply in_map_iff in Hk' as (k & <- & Hk).
    exists k. split; [by apply list_elem_of_In|done].
  - intros kw before after. apply collect_parts_broken.
Qed.

End AdapterListings.

Lemma fetchNoFluffJobsRSS_listings_witness :
  @fetchNoFluffJobsRSS Host.host (Examples.net 0%nat 0%nat) Examples.now
    Examples.keywords
  = (Returned [feed_listing], [Get "https://nofluffjobs.com/rss"])
  ∧ (length [feed_listing] ≤ 30)%nat.
Proof.
  refine (conj eq_refl _).
  exact (proj1 (@fetchNoFluffJobsRSS_listings Host.host
                  (Examples.net 0%nat 0%nat) Examples.now Examples.keywords
                  [feed_listing] [Get "https://nofluffjobs.com/rss"] eq_refl)).
Defined.

Lemma fetchJustJoinIt_listings_witness :
  @fetchJustJoinIt Host.host jj_reply Examples.keywords
  = (Returned [jj_listing], [Get "https://justjoin.it/"])
  ∧ RawResult.title jj_listing
    = slugToTitle (last_segment (RawResult.url jj_listing)).
Proof.
  refine (conj eq_refl _).
  destruct (proj1 (proj2 (@fetchJustJoinIt_listings Host.host jj_reply
                            Examples.keywords
                            [jj_listing] [Get "https://justjoin.it/"] eq_refl))
              jj_listing ltac:(left)) as (_ & _ & _ & Ht & _).
  exact Ht.
Defined.

(** *** The aggregator, further *)

Section Attribution.
Context `{Runtime}.

Lemma searx_loop_site answer site k instances r :
  r ∈ fst (searx_loop answer site k instances) → RawResult.site r = site.
Proof.
  revert k. induction instances as [|instance rest IH]; intros k;
    cbn [searx_loop]; [by intros ?%elem_of_nil|].
  destruct (answer k) as [msg|b]; [apply IH|].
  destruct (searx_data b) as [|[|hit more]]; [apply IH..|].
  cbn [fst]. unfold searx_listings.
  intros [Hr _]%list_elem_of_In%filter_In.
  by apply in_map_iff in Hr as (h & <- & _).
Qed.

Lemma run_adapter_site answer now keywords site results ev r :
  run_adapter answer now keywords site = (Returned results, ev) →
  r ∈ results → RawResult.site r = site.
Proof.
  unfold run_adapter.
  destruct (String.eqb_spec site "nofluffjobs.com") as [->|_].
  { intros Hrun Hr. by rewrite (fetchNoFluffJobsRSS_site _ _ _ _ _ _ Hrun Hr). }
  destruct (String.eqb_spec site "justjoin.it") as [->|_].
  { intros Hrun Hr. by rewrite (fetchJustJoinIt_site _ _ _ _ _ Hrun Hr). }
  destruct (searchViaSearXNG answer site keywords) as [res ev'] eqn:Hs.
  intros [= <- _] Hr. eapply searx_loop_site.
  unfold searchViaSearXNG in Hs. by rewrite Hs.
Qed.

Lemma gathered_site net now keywords i sites r :
  r ∈ fst (scout_loop net now keywords i sites ([], [])) →
  RawResult.site r ∈ normalizeSite <$> sites.
Proof.
  revert i. induction sites as [|rawSite rest IH]; intros i;
    [by intros ?%elem_of_nil|].
  rewrite scout_loop_cons, fmap_cons. cbn [fst].
  intros [Hr|Hr]%elem_of_app; apply elem_of_cons; [left|right; by eapply IH].
  unfold site_step, visit_site in Hr.
  destruct (run_adapter (net i) now keywords (normalizeSite rawSite))
    as [[results|msg] ev] eqn:Hrun; cbn in Hr;
    [|by apply elem_of_nil in Hr].
  by eapply run_adapter_site.
Qed.

Lemma first_where_elem_of {A : Type} (key : A → string) (l : list A) u x :
  first_where key l u x → x ∈ l.
Proof. intros (i & Hi & _). by eapply list_elem_of_lookup_2. Qed.

End Attribution.

(** X7.  Each result of [discoverJobs] carries as its site the normalized
    name of one of the configured sites. *)
Theorem discoverJobs_site_configured `{Runtime}
    (log : list ApplicationEntry.t) (net : Network) (now : Z)
    (keywords sites : list string) (d : DiscoveryResult.t) :
  d ∈ fst (discoverJobs log net now keywords sites) →
  DiscoveryResult.site d ∈ normalizeSite <$> sites.
Proof.
  rewrite discoverJobs_fst. intros (r & Hr & ->)%aggregate_elem.
  cbn. eapply gathered_site. by eapply first_where_elem_of.
Qed.

Lemma discoverJobs_site_configured_witness :
  Examples.seen_result
    ∈ fst (@discoverJobs Host.host Examples.log Examples.net Examples.now
             Examples.keywords Examples.sites)
  ∧ DiscoveryResult.site Examples.seen_result
      ∈ @normalizeSite Host.host <$> Examples.sites.
Proof.
  assert (Examples.seen_result
            ∈ fst (@discoverJobs Host.host Examples.log Examples.net
                     Examples.now Examples.keywords Examples.sites)) as Hd.
  { apply (list_elem_of_lookup_2 _ 1%nat). reflexivity. }
  refine (conj Hd _).
  exact (@discoverJobs_site_configured Host.host Examples.log Examples.net
           Examples.now Examples.keywords Examples.sites Examples.seen_result
           Hd).
Defined.

(** X8.  In the results of [discoverJobs] the mark [already_seen], a
    [seen_days_ago] that is not null, and the presence of the URL in the
    history go together. *)
Theorem discoverJobs_seen_consistent `{Runtime}
    (log : list ApplicationEntry.t) (net : Network) (now : Z)
    (keywords sites : list string) (d : DiscoveryResult.t) :
  d ∈ fst (discoverJobs log net now keywords sites) →
  (DiscoveryResult.already_seen d = true
   ↔ DiscoveryResult.url d ∈ ApplicationEntry.url <$> log)
  ∧ (DiscoveryResult.already_seen d = true
     ↔ DiscoveryResult.seen_days_ago d ≠ None).
Proof.
  rewrite discoverJobs_fst. intros (r & _ & ->)%aggregate_elem.
  change (DiscoveryResult.url (annotate _ _ _ r)) with (RawResult.url r).
  destruct (decide (RawResult.url r ∈ ApplicationEntry.url <$> log))
    as [Hin|Hin].
  - destruct (annotate_seen log now r Hin) as (e & _ & -> & ->). done.
  - destruct (annotate_unseen log now r Hin) as [-> ->]. done.
Qed.

Lemma discoverJobs_seen_consistent_witness :
  Examples.seen_result
    ∈ fst (@discoverJobs Host.host Examples.log Examples.net Examples.now
             Examples.keywords Examples.sites)
  ∧ (DiscoveryResult.already_seen Examples.seen_result = true
     ↔ DiscoveryResult.seen_days_ago Examples.seen_result ≠ None).
Proof.
  assert (Examples.seen_result
            ∈ fst (@discoverJobs Host.host Examples.log Examples.net
                     Examples.now Examples.keywords Examples.sites)) as Hd.
  { apply (list_elem_of_lookup_2 _ 1%nat). reflexivity. }
  refine (conj Hd _).
  exact (proj2 (@discoverJobs_seen_consistent Host.host Examples.log
                  Examples.net Examples.now Examples.keywords Examples.sites
                  Examples.seen_result Hd)).
Defined.

Lemma annotate_forget `{Runtime} log now r :
  forget_seen (annotate log (list_to_set (ApplicationEntry.url <$> log)) now r)
  = annotate [] (list_to_set (ApplicationEntry.url <$> [])) now r.
Proof. reflexivity. Qed.

(** X9.  The history changes nothing in a discovery run but the two
    fields [already_seen] and [seen_days_ago]: with these taken away the
    results are those of a run with an empty history, in the same order,
    and the requests, pauses and warnings are the same. *)
Theorem discoverJobs_history_only_marks `{Runtime}
    (log : list ApplicationEntry.t) (net : Network) (now : Z)
    (keywords sites : list string) :
  forget_seen <$> fst (discoverJobs log net now keywords sites)
  = fst (discoverJobs [] net now keywords sites)
  ∧ snd (discoverJobs log net now keywords sites)
    = snd (discoverJobs [] net now keywords sites).
Proof.
  unfold discoverJobs. destruct (gather net now keywords sites) as [raw ev].
  cbn [fst snd]. split; [|done]. unfold aggregate.
  rewrite <-list_fmap_compose. apply list_fmap_ext. intros i r _.
  apply annotate_forget.
Qed.

(** *** The events of a run *)

Lemma count_app kind (a b : list Event) :
  count kind (a ++ b) = (count kind a + count kind b)%nat.
Proof. unfold count. by rewrite List.filter_app, length_app. Qed.

Section Events.
Context `{Runtime}.

Lemma searx_loop_events answer site k instances :
  count is_get (snd (searx_loop answer site k instances))
  = length (snd (searx_loop answer site k instances))
  ∧ (length (snd (searx_loop answer site k instances)) ≤ length instances)%nat
  ∧ (instances ≠ [] →
     1 ≤ length (snd (searx_loop answer site k instances)))%nat.
Proof.
  revert k. induction instances as [|instance rest IH]; intros k; [done|].
  destruct (IH (S k)) as (Hc & Hl & _). cbn [searx_loop].
  destruct (answer k) as [msg|b];
    [|destruct (searx_data b) as [|[|hit more]]];
    cbn [snd length]; unfold count in *; cbn [List.filter is_get length];
    split_and!; intros; lia.
Qed.

(** The requests of one adapter call: one to three, and nothing else. *)
Lemma run_adapter_events answer now keywords site :
  let ev := snd (run_adapter answer now keywords site) in
  count is_get ev = length ev ∧ (1 ≤ length ev ≤ 3)%nat.
Proof.
  unfold run_adapter.
  destruct (String.eqb site "nofluffjobs.com").
  { unfold fetchNoFluffJobsRSS. destruct (answer 0%nat); cbn; lia. }
  destruct (String.eqb site "justjoin.it").
  { unfold fetchJustJoinIt. destruct (answer 0%nat); cbn; lia. }
  unfold searchViaSearXNG.
  destruct (searx_loop_events answer site 0 SEARXNG_INSTANCES)
    as (Hc & Hl & Hne).
  destruct (searx_loop answer site 0 SEARXNG_INSTANCES) as [res ev] eqn:E.
  cbn [snd] in *. split; [done|]. split; [by apply Hne|exact Hl].
Qed.

Lemma only_gets (ev : list Event) :
  count is_get ev = length ev →
  count is_pause ev = 0%nat ∧ count is_warn ev = 0%nat ∧ ∀ ms, Pause ms ∉ ev.
Proof.
  unfold count. induction ev as [|e ev IH]; intros Hc.
  { split_and!; [done..|]. by intros ms ?%elem_of_nil. }
  pose proof (List.filter_length_le is_get ev).
  destruct e; cbn [List.filter is_get is_pause is_warn length] in *; try lia.
  destruct IH as (? & ? & Hno); [lia|]. split_and!; [done..|].
  intros ms [?|?]%elem_of_cons; [done|by eapply Hno].
Qed.

Lemma site_step_events net now keywords i rawSite :
  let ev := snd (site_step net now keywords i rawSite) in
  (1 ≤ count is_get ev ≤ 3)%nat
  ∧ (count is_pause ev + count is_warn ev = 1)%nat
  ∧ ∀ ms, Pause ms ∈ ev → ms = 600.
Proof.
  unfold site_step, visit_site.
  pose proof (run_adapter_events (net i) now keywords (normalizeSite rawSite))
    as [Hc Hl].
  destruct (run_adapter (net i) now keywords (normalizeSite rawSite))
    as [[results|msg] ev] eqn:Hrun; cbn [fst snd app] in *;
    destruct (only_gets ev Hc) as (Hp & Hw & Hno);
    rewrite !count_app, Hp, Hw, Hc; unfold count; cbn;
    (split_and!; [lia..|]).
  - intros ms [?|[?|[?|?%elem_of_nil]%elem_of_cons]%elem_of_cons]%elem_of_app;
      [by destruct (Hno ms)|done|congruence|done].
  - intros ms [?|[?|?%elem_of_nil]%elem_of_cons]%elem_of_app;
      [by destruct (Hno ms)|done|done].
Qed.

Lemma scout_loop_events net now keywords i sites :
  let ev := snd (scout_loop net now keywords i sites ([], [])) in
  (length sites ≤ count is_get ev ≤ 3 * length sites)%nat
  ∧ (count is_pause ev + count is_warn ev = length sites)%nat
  ∧ ∀ ms, Pause ms ∈ ev → ms = 600.
Proof.
  revert i. induction sites as [|rawSite rest IH]; intros i.
  { cbn. split_and!; [lia..|]. intros ms ?%elem_of_nil. done. }
  rewrite scout_loop_cons. cbn [snd]. cbn zeta.
  destruct (site_step_events net now keywords i rawSite) as (Hg & Hp & H600).
  destruct (IH (S i)) as (Hg' & Hp' & H600').
  rewrite !count_app. cbn [length]. split_and!; [lia..|].
  intros ms [?|?]%elem_of_app; eauto.
Qed.

End Events.

Lemma all_gets (ev : list Event) :
  count is_get ev = length ev → Forall (fun e => ∃ url, e = Get url) ev.
Proof.
  unfold count. induction ev as [|e ev IH]; intros Hc; [by constructor|].
  pose proof (List.filter_length_le is_get ev).
  destruct e; cbn [List.filter is_get length] in *; try lia.
  constructor; [by eexists|]. apply IH. lia.
Qed.

Lemma site_step_trace `{Runtime} net now keywords i rawSite :
  site_trace (normalizeSite rawSite) (snd (site_step net now keywords i rawSite)).
Proof.
  unfold site_step, visit_site.
  pose proof (run_adapter_events (net i) now keywords (normalizeSite rawSite))
    as [Hc Hl].
  destruct (run_adapter (net i) now keywords (normalizeSite rawSite))
    as [[results|msg] ev]; cbn [fst snd app] in *;
    exists ev; (split_and!; [lia..|by apply all_gets|]).
  - left. by exists (length results).
  - right. by exists msg.
Qed.

Lemma scout_loop_traces `{Runtime} net now keywords i sites :
  ∃ per,
    snd (scout_loop net now keywords i sites ([], [])) = concat per
    ∧ Forall2 (fun rawSite ev => site_trace (normalizeSite rawSite) ev)
        sites per.
Proof.
  revert i. induction sites as [|rawSite rest IH]; intros i.
  { exists []. by split; [|constructor]. }
  destruct (IH (S i)) as (per & Hper & Hall).
  exists (snd (site_step net now keywords i rawSite) :: per).
  rewrite scout_loop_cons. cbn [snd concat]. rewrite Hper.
  split; [done|]. constructor; [apply site_step_trace|done].
Qed.

(** X10.  The events of a discovery run are those of its sites, one site
    after the other in the configured order: for each site one to three
    requests, then either the line printed for the site and a pause of
    600 ms or a warning, never both.  Over the run this makes between
    one and three requests for each site, and as many pauses and warnings
    together as there are sites. *)
Theorem discoverJobs_requests_bounded `{Runtime}
    (log : list ApplicationEntry.t) (net : Network) (now : Z)
    (keywords sites : list string) :
  (∃ per,
     snd (discoverJobs log net now keywords sites) = concat per
     ∧ Forall2 (fun rawSite ev => site_trace (normalizeSite rawSite) ev)
         sites per)
  ∧ (length sites
     ≤ count is_get (snd (discoverJobs log net now keywords sites))
     ≤ 3 * length sites)%nat
  ∧ (count is_pause (snd (discoverJobs log net now keywords sites))
     + count is_warn (snd (discoverJobs log net now keywords sites))
     = length sites)%nat
  ∧ ∀ ms, Pause ms ∈ snd (discoverJobs log net now keywords sites) →
          ms = 600.
Proof.
  assert (snd (discoverJobs log net now keywords sites)
          = snd (scout_loop net now keywords 0 sites ([], []))) as ->.
  { unfold discoverJobs, gather.
    by destruct (scout_loop net now keywords 0 sites ([], [])). }
  split; [apply scout_loop_traces|apply scout_loop_events].
Qed.

(** *** The filter evaluator, further *)

Lemma forallb_snoc {A : Type} (p : A → bool) (l : list A) (x : A) :
  forallb p (l ++ [x]) = forallb p l && p x.
Proof. rewrite forallb_app. cbn. by rewrite andb_true_r. Qed.

Lemma existsb_elem (p : string → bool) (l : list string) :
  existsb p l = true ↔ ∃ k, k ∈ l ∧ p k = true.
Proof.
  rewrite existsb_exists. split; intros (k & Hk & Hp); exists k;
    (split; [by apply list_elem_of_In|done]).
Qed.

Lemma find_elem (p : string → bool) (l : list string) :
  is_Some (List.find p l) ↔ ∃ k, k ∈ l ∧ p k = true.
Proof.
  split.
  - intros [k Hk]. apply find_some in Hk as [Hin Hp].
    exists k. split; [by apply list_elem_of_In|done].
  - intros (k & Hk & Hp). destruct (List.find p l) eqn:E; [by eauto|].
    apply list_elem_of_In in Hk. by rewrite (find_none _ _ E k Hk) in Hp.
Qed.

Lemma filter_nonempty (p : string → bool) (l : list string) :
  Nat.ltb 0 (length (List.filter p l)) = true ↔ ∃ k, k ∈ l ∧ p k = true.
Proof.
  rewrite Nat.ltb_lt. split.
  - destruct (List.filter p l) as [|k r] eqn:E; [cbn; lia|]. intros _.
    assert (In k (List.filter p l)) as Hk by (rewrite E; by left).
    apply filter_In in Hk as [Hin Hp]. exists k.
    split; [by apply list_elem_of_In|done].
  - intros (k & Hk & Hp).
    assert (In k (List.filter p l)) as Hin
      by (apply filter_In; split; [by apply list_elem_of_In|done]).
    destruct (List.filter p l); [done|cbn; lia].
Qed.

(** The steps of [evaluateFilters], one rule after the other. *)
Lemma evaluateFilters_all_pass_steps `{Runtime} config result jdText age :
  forallb FilterCheck.passed (evaluateFilters config result jdText age)
  = (match UserConfig.min_match_score config with
     | Some m => Z.geb (AnalysisResult.match_score result) m
     | None => true
     end
     && match UserConfig.max_ghost_score config with
        | Some g => Z.leb (AnalysisResult.ghost_score result) g
        | None => true
        end
     && match UserConfig.max_age_days config with
        | Some a => match age with
                    | None => true
                    | Some x => age_le x a
                    end
        | None => true
        end
     && match UserConfig.work_mode config with
        | Some any | None => true
        | Some m =>
            bool_decide
              (is_Some
                 (List.find (fun k => includes (toLowerCase jdText) k)
                    (work_mode_keywords m)))
        end
     && match UserConfig.require_salary config with
        | Some true =>
            existsb (fun k => includes (toLowerCase jdText) k) salaryKw
        | _ => true
        end
     && match UserConfig.role_keywords config with
        | Some (k :: ks) =>
            Nat.ltb 0
              (length
                 (List.filter
                    (fun k => includes (toLowerCase jdText) (toLowerCase k))
                    (k :: ks)))
        | _ => true
        end).
Proof.
  unfold evaluateFilters.
  destruct config as [[m|] [g|] [a|] [[|]|] [[| | |]|] [[|k ks]|] sites];
    cbn [UserConfig.min_match_score UserConfig.max_ghost_score
         UserConfig.max_age_days UserConfig.require_salary
         UserConfig.work_mode UserConfig.role_keywords];
    rewrite ?forallb_snoc; cbn [forallb FilterCheck.passed app];
    rewrite ?andb_true_l, ?andb_true_r; reflexivity.
Qed.

(** X11.  Every check [evaluateFilters] returns has passed exactly when
    each rule the configuration activates is satisfied: the match score
    reaches the minimum, the ghost score stays within the maximum, the
    age is unknown or an integer within the maximum, the text names the
    work mode, the text names a salary, the text holds a role keyword. *)
Theorem evaluateFilters_all_pass `{Runtime} (config : UserConfig.t)
    (result : AnalysisResult.t) (jdText : string) (age : option jsnum) :
  forallb FilterCheck.passed (evaluateFilters config result jdText age) = true
  ↔ match_ok config result ∧ ghost_ok config result ∧ fresh_ok config age
    ∧ mode_ok config jdText ∧ salary_ok config jdText
    ∧ keywords_ok config jdText.
Proof.
  rewrite evaluateFilters_all_pass_steps, !andb_true_iff.
  unfold match_ok, ghost_ok, fresh_ok, mode_ok, salary_ok, keywords_ok.
  assert (∀ A B C D E F A' B' C' D' E' F' : Prop,
            (A ↔ A') → (B ↔ B') → (C ↔ C') → (D ↔ D') → (E ↔ E') → (F ↔ F') →
            (((((A ∧ B) ∧ C) ∧ D) ∧ E) ∧ F ↔ A' ∧ B' ∧ C' ∧ D' ∧ E' ∧ F'))
    as Hsplit by tauto.
  apply Hsplit; clear Hsplit.
  - destruct (UserConfig.min_match_score config) as [m|].
    + rewrite Z.geb_le. split; [by intros ? ? [= <-]|eauto].
    + split; [by intros|done].
  - destruct (UserConfig.max_ghost_score config) as [g|].
    + rewrite Z.leb_le. split; [by intros ? ? [= <-]|eauto].
    + split; [by intros|done].
  - destruct (UserConfig.max_age_days config) as [a|]; [|split; by intros].
    destruct age as [[n|]|]; cbn [age_le].
    + rewrite Z.leb_le. split.
      * intros Hn ? [= <-]. right. by exists n.
      * intros Ha. destruct (Ha a eq_refl) as [?|(n' & [= <-] & ?)]; done.
    + split; [done|]. intros Ha.
      by destruct (Ha a eq_refl) as [?|(n' & ? & ?)].
    + split; [|done]. intros _ ? _. by left.
  - destruct (UserConfig.work_mode config) as [m|]; [|split; by intros].
    destruct m;
      [rewrite bool_decide_eq_true, find_elem;
       (split; [by intros ? ? [= <-] ?|intros Hm; by apply Hm])..|].
    split; [|done]. by intros _ m [= <-] Hne.
  - destruct (UserConfig.require_salary config) as [[|]|];
      try (split; [by intros|done]).
    rewrite existsb_elem. split; [by intros|eauto].
  - destruct (UserConfig.role_keywords config) as [[|k ks]|].
    + split; [|done]. by intros _ ks [= <-] Hne.
    + rewrite filter_nonempty. split; [by intros ? ? [= <-] ?|].
      intros Hk. by apply Hk.
    + split; [by intros|done].
Qed.

(** *** The configuration file *)

(** X12.  A configuration file that is absent or cannot be parsed acts as
    the empty configuration: no filter check is returned and the scout
    handler answers 400.  The handler looks at the search sites first: it
    asks for them whenever they are missing, and asks for the role
    keywords only when the sites are given. *)
Theorem loadConfig_failure_is_empty `{Runtime}
    (file : ConfigFile) (log : list ApplicationEntry.t) (net : Network)
    (now : Z) (result : AnalysisResult.t) (jdText : string)
    (age : option jsnum) :
  (file = Absent ∨ file = Unusable →
   evaluateFilters (loadConfig file) result jdText age = []
   ∧ scout_handler file log net now = (Server.Error 400 missing_sites_msg, []))
  ∧ (missing_or_empty (UserConfig.search_sites (loadConfig file)) →
     scout_handler file log net now = (Server.Error 400 missing_sites_msg, []))
  ∧ (¬ missing_or_empty (UserConfig.search_sites (loadConfig file)) →
     missing_or_empty (UserConfig.role_keywords (loadConfig file)) →
     scout_handler file log net now
     = (Server.Error 400 missing_keywords_msg, [])).
Proof.
  unfold scout_handler, missing_or_empty. cbn zeta. split_and!.
  - by intros [-> | ->].
  - by intros [-> | ->].
  - intros Hs Hk.
    destruct (UserConfig.search_sites (loadConfig file)) as [[|s sts]|];
      [by destruct Hs; right|cbn|by destruct Hs; left].
    by destruct Hk as [-> | ->].
Qed.

Lemma loadConfig_failure_is_empty_witness :
  (Unusable = Absent ∨ Unusable = Unusable)
  ∧ @scout_handler Host.host Unusable Examples.log Examples.net Examples.now
    = (Server.Error 400 missing_sites_msg, []).
Proof.
  refine (conj (or_intror eq_refl) _).
  exact (proj2 (proj1
           (@loadConfig_failure_is_empty Host.host Unusable Examples.log
              Examples.net Examples.now
              (AnalysisResult.mk "Acme" "QA" 74 None 45) "" None)
           (or_intror eq_refl))).
Defined.

(** *** The application log *)

Import AppLog Routes.

Lemma json_entry_idem e : json_entry (json_entry e) = json_entry e.
Proof. destruct e as [? ? ? ? ? ? ? ? ? ? ? [[|]|] ? ?]; reflexivity. Qed.

Lemma write_load entries : loadLog (write entries) = json_entry <$> entries.
Proof. reflexivity. Qed.

Lemma json_entries_idem (entries : list StoredEntry.t) :
  json_entry <$> (json_entry <$> entries) = json_entry <$> entries.
Proof.
  rewrite <-list_fmap_compose. apply list_fmap_ext.
  intros i e _. apply json_entry_idem.
Qed.

(** X13.  The log holds what was logged, in the order of logging: after
    [logApplication] on each entry of a list, starting without a file or
    with a file that is no JSON, [loadLog] returns these entries as JSON
    keeps them (a NaN age is read back as null, everything else as it
    was written). *)
Theorem logApplication_loadLog (start : LogFile)
    (entries : list StoredEntry.t) :
  start = NoFile ∨ start = Garbled →
  loadLog (foldl (fun file e => logApplication e file) start entries)
  = json_entry <$> entries.
Proof.
  intros Hstart.
  induction entries as [|e entries IH] using rev_ind.
  { by destruct Hstart as [-> | ->]. }
  rewrite foldl_app. cbn [foldl]. unfold logApplication at 1.
  rewrite write_load, IH, fmap_app, json_entries_idem. by rewrite fmap_app.
Qed.

Lemma logApplication_loadLog_witness :
  (NoFile = NoFile ∨ NoFile = Garbled)
  ∧ loadLog (logApplication stored_globex (logApplication stored_initech NoFile))
    = [stored_initech; json_entry stored_globex].
Proof.
  assert (NoFile = NoFile ∨ NoFile = Garbled) as Hstart by (by left).
  refine (conj Hstart _).
  exact (logApplication_loadLog NoFile [stored_initech; stored_globex] Hstart).
Defined.

Lemma findIndex_Some id entries i :
  findIndex id entries = Some i →
  ∃ e, entries !! i = Some e ∧ StoredEntry.id e = id
       ∧ ∀ j e', (j < i)%nat → entries !! j = Some e' → StoredEntry.id e' ≠ id.
Proof.
  revert i. induction entries as [|x entries IH]; intros i; [done|].
  cbn [findIndex]. destruct (String.eqb_spec (StoredEntry.id x) id) as [Hx|Hx].
  - intros [= <-]. exists x. split_and!; [done..|]. intros j e' Hj. lia.
  - destruct (findIndex id entries) as [i'|]; [|done]. intros [= <-].
    destruct (IH i' eq_refl) as (e & He & Hid & Hfirst).
    exists e. split_and!; [done..|].
    intros [|j] e' Hj He'; cbn in He'; [by injection He' as <-|].
    eapply Hfirst; [|done]. lia.
Qed.

Lemma findIndex_None id entries :
  findIndex id entries = None ↔ id ∉ StoredEntry.id <$> entries.
Proof.
  induction entries as [|x entries IH].
  { split; [|done]. by intros _ ?%elem_of_nil. }
  cbn [findIndex]. rewrite fmap_cons, not_elem_of_cons, <-IH.
  destruct (String.eqb_spec (StoredEntry.id x) id) as [Hx|Hx].
  - split; [done|]. by intros [? _].
  - destruct (findIndex id entries); [|done]. split; [done|]. by intros [_ ?].
Qed.

Lemma updateEntry_false id status file :
  (fst (updateEntry id status file) = false
   ↔ id ∉ StoredEntry.id <$> loadLog file)
  ∧ (fst (updateEntry id status file) = false →
     snd (updateEntry id status file) = file).
Proof.
  unfold updateEntry.
  destruct (findIndex id (loadLog file)) as [i|] eqn:Hi; cbn [fst snd].
  - split; [|done]. split; [done|].
    intros Hno. apply findIndex_None in Hno. congruence.
  - split; [|done]. split; [|done]. intros _. by apply findIndex_None.
Qed.

(** X14.  [updateEntry] returns false, and leaves the file as it is, when
    no stored entry has the id.  Otherwise it returns true and rewrites
    the file with as many entries, in the same order: the first entry
    with the id has the new status and its other fields as before, all
    other entries are as before, also those that share the id. *)
Theorem updateEntry_first_match (id : string) (status : ApplicationStatus)
    (file : LogFile) :
  (fst (updateEntry id status file) = false
   ↔ id ∉ StoredEntry.id <$> loadLog file)
  ∧ (fst (updateEntry id status file) = false →
     snd (updateEntry id status file) = file)
  ∧ (fst (updateEntry id status file) = true →
     ∃ i e,
       loadLog file !! i = Some e ∧ StoredEntry.id e = id
       ∧ (∀ j e', (j < i)%nat → loadLog file !! j = Some e' →
                  StoredEntry.id e' ≠ id)
       ∧ length (loadLog (snd (updateEntry id status file)))
         = length (loadLog file)
       ∧ loadLog (snd (updateEntry id status file)) !! i
         = Some (json_entry (with_status status e))
       ∧ ∀ j, j ≠ i →
              loadLog (snd (updateEntry id status file)) !! j
              = json_entry <$> loadLog file !! j).
Proof.
  unfold updateEntry.
  destruct (findIndex id (loadLog file)) as [i|] eqn:Hi; cbn [fst snd].
  - split_and!; [|done|].
    + split; [done|]. intros Hno. apply findIndex_None in Hno. congruence.
    + intros _. destruct (findIndex_Some _ _ _ Hi) as (e & He & Hid & Hfirst).
      exists i, e. rewrite write_load.
      split_and!; [done..| | |].
      * by rewrite length_fmap, length_alter.
      * by rewrite list_lookup_fmap, list_lookup_alter_eq, He.
      * intros j Hj. by rewrite list_lookup_fmap, list_lookup_alter_ne.
  - split_and!; [|done..]. split; [|done]. intros _.
    by apply findIndex_None.
Qed.

Lemma updateEntry_first_match_witness :
  fst (updateEntry "1793448000000" offer
         (Stored [stored_initech; stored_globex; stored_globex])) = true
  ∧ ∃ i e,
      [stored_initech; stored_globex; stored_globex] !! i = Some e
      ∧ loadLog (snd (updateEntry "1793448000000" offer
                        (Stored [stored_initech; stored_globex; stored_globex])))
          !! i
        = Some (json_entry (with_status offer e)).
Proof.
  refine (conj eq_refl _).
  destruct (proj2 (proj2 (updateEntry_first_match "1793448000000" offer
                            (Stored [stored_initech; stored_globex;
                                     stored_globex]))) eq_refl)
    as (i & e & He & _ & _ & _ & Hnew & _).
  exact (ex_intro _ i (ex_intro _ e (conj He Hnew))).
Defined.

Lemma valid_status_name st : valid_status (status_name st) = Some st.
Proof. by destruct st. Qed.

Lemma valid_status_inv s st : valid_status s = Some st → status_name st = s.
Proof.
  unfold valid_status. intros [_ Hs]%find_some.
  by apply String.eqb_eq in Hs.
Qed.

(** X15.  The handler of PATCH /api/applications/:id changes the log only
    when it answers ok.  A request without a parsed body makes it throw,
    which Express answers with 500.  With a body, it answers 400 when the
    status is missing or is not, letter for letter, one of the six status
    names; 404 when the status is valid and no entry has the id; ok
    otherwise, the log being what [updateEntry] leaves. *)
Theorem patch_handler_cases (id : string) (body : option (option string))
    (file : LogFile) :
  (fst (patch_handler id body file) ≠ PatchOk →
   snd (patch_handler id body file) = file)
  ∧ (body = None ↔ fst (patch_handler id body file) = PatchThrows)
  ∧ ((∃ status, body = Some status ∧ ∀ st, status ≠ Some (status_name st)) ↔
     fst (patch_handler id body file) = PatchError 400 "Invalid status")
  ∧ (∀ st, body = Some (Some (status_name st)) →
       (id ∉ StoredEntry.id <$> loadLog file →
        fst (patch_handler id body file)
        = PatchError 404 "Application not found")
       ∧ (id ∈ StoredEntry.id <$> loadLog file →
          patch_handler id body file
          = (PatchOk, snd (updateEntry id st file)))).
Proof.
  assert (∀ s, nonempty s = false → valid_status s = None) as Hempty
    by by intros [|c s].
  unfold patch_handler. split_and!.
  - destruct body as [[s|]|]; [|done..].
    destruct (nonempty s); [|done]. cbn [negb].
    destruct (valid_status s) as [st|]; [|done].
    pose proof (updateEntry_false id st file) as (_ & Hsame).
    destruct (updateEntry id st file) as [[|] file']; [done|].
    intros _. by apply Hsame.
  - destruct body as [[s|]|]; [| |done].
    + split; [done|]. destruct (nonempty s); [|done]. cbn [negb].
      destruct (valid_status s) as [st|]; [|done].
      by destruct (updateEntry id st file) as [[|] file'].
    + by split.
  - destruct body as [[s|]|].
    + destruct (valid_status s) as [st|] eqn:Hs.
      * pose proof Hs as Hname. apply valid_status_inv in Hname as <-.
        assert (nonempty (status_name st) = true) as -> by by destruct st.
        cbn [negb]. split.
        -- intros (status & [= <-] & Hno). by destruct (Hno st).
        -- by destruct (updateEntry id st file) as [[|] file'].
      * split.
        -- intros _. by destruct (nonempty s).
        -- intros _. exists (Some s). split; [done|]. intros st [= ->].
           by rewrite valid_status_name in Hs.
    + split; [done|]. intros _. by exists None.
    + split; [by intros (status & ? & _)|done].
  - intros st ->. rewrite valid_status_name.
    assert (nonempty (status_name st) = true) as -> by by destruct st.
    cbn [negb].
    pose proof (updateEntry_false id st file) as (Hfalse & _).
    destruct (updateEntry id st file) as [[|] file'] eqn:Hu; cbn [fst snd] in *.
    + split; [|done]. intros Hno. apply Hfalse in Hno. done.
    + split; [done|]. intros Hin. by destruct (proj1 Hfalse eq_refl).
Qed.

Lemma patch_handler_cases_witness :
  fst (patch_handler "7" (Some (Some "Offer")) NoFile) ≠ PatchOk
  ∧ snd (patch_handler "7" (Some (Some "Offer")) NoFile) = NoFile
  ∧ fst (patch_handler "7" None NoFile) = PatchThrows.
Proof.
  assert (fst (patch_handler "7" (Some (Some "Offer")) NoFile) ≠ PatchOk)
    as Hne by discriminate.
  refine (conj Hne (conj _ _)).
  - exact (proj1 (patch_handler_cases "7" (Some (Some "Offer")) NoFile) Hne).
  - exact (proj1 (proj1 (proj2 (patch_handler_cases "7" None NoFile)))
             eq_refl).
Defined.

(** X16.  Once an entry is logged, a discovery run that reads the log
    marks every result with the URL of that entry as already seen. *)
Theorem logged_url_is_seen `{Runtime} (entry : StoredEntry.t)
    (file : LogFile) (net : Network) (now : Z) (keywords sites : list string)
    (d : DiscoveryResult.t) :
  d ∈ fst (discoverJobs
             (history_entry <$> loadLog (logApplication entry file))
             net now keywords sites) →
  DiscoveryResult.url d = StoredEntry.url entry →
  DiscoveryResult.already_seen d = true
  ∧ DiscoveryResult.seen_days_ago d ≠ None.
Proof.
  rewrite discoverJobs_fst. intros (r & _ & ->)%aggregate_elem Hurl.
  cbn in Hurl.
  assert (RawResult.url r
            ∈ ApplicationEntry.url
                <$> (history_entry <$> loadLog (logApplication entry file)))
    as Hin.
  { unfold logApplication. rewrite write_load, fmap_app, !fmap_app.
    apply elem_of_app. right. rewrite Hurl. by left. }
  by destruct (annotate_seen _ now r Hin) as (e & _ & -> & ->).
Qed.

Lemma logged_url_is_seen_witness :
  Examples.seen_result
    ∈ fst (@discoverJobs Host.host
             (history_entry <$> loadLog (logApplication stored_initech NoFile))
             Examples.net Examples.now Examples.keywords Examples.sites)
  ∧ DiscoveryResult.url Examples.seen_result = StoredEntry.url stored_initech
  ∧ DiscoveryResult.already_seen Examples.seen_result = true.
Proof.
  assert (Examples.seen_result
            ∈ fst (@discoverJobs Host.host
                     (history_entry
                        <$> loadLog (logApplication stored_initech NoFile))
                     Examples.net Examples.now Examples.keywords
                     Examples.sites)) as Hd.
  { apply (list_elem_of_lookup_2 _ 1%nat). reflexivity. }
  refine (conj Hd (conj eq_refl _)).
  exact (proj1 (@logged_url_is_seen Host.host stored_initech NoFile
                  Examples.net Examples.now Examples.keywords Examples.sites
                  Examples.seen_result Hd eq_refl)).
Defined.

(** *** Escaping in the report and in the page *)

Import Report.

Lemma replace_char_app c by_ a b :
  replace_char c by_ (a +:+ b) = replace_char c by_ a +:+ replace_char c by_ b.
Proof.
  induction a as [|d a IH]; [done|]. rewrite app_cons. cbn [replace_char].
  destruct (Ascii.eqb d c); by rewrite IH, ?app_assoc'.
Qed.

Lemma escapeHtml_cons c s :
  escapeHtml (String c s) = escape_char c +:+ escapeHtml s.
Proof.
  unfold escapeHtml, escape_char. cbn [replace_char].
  destruct (Ascii.eqb_spec c "&") as [->|H1].
  { by rewrite !replace_char_app. }
  cbn [replace_char]. destruct (Ascii.eqb_spec c "<") as [->|H2].
  { by rewrite !replace_char_app. }
  cbn [replace_char]. destruct (Ascii.eqb_spec c ">") as [->|H3].
  { by rewrite !replace_char_app. }
  cbn [replace_char]. destruct (Ascii.eqb_spec c dquote) as [->|H4].
  { by rewrite !replace_char_app. }
  cbn [replace_char]. destruct (Ascii.eqb_spec c squote) as [->|H5]; done.
Qed.

Lemma str_forall_app p a b :
  str_forall p (a +:+ b) = str_forall p a && str_forall p b.
Proof.
  induction a as [|c a IH]; [done|]. rewrite app_cons. cbn [str_forall].
  by rewrite IH, andb_assoc.
Qed.

Lemma escape_char_plain c :
  str_forall (fun c => negb (is_markup c)) (escape_char c) = true.
Proof.
  unfold escape_char.
  destruct (Ascii.eqb_spec c "&") as [->|H1]; [done|].
  destruct (Ascii.eqb_spec c "<") as [->|H2]; [done|].
  destruct (Ascii.eqb_spec c ">") as [->|H3]; [done|].
  destruct (Ascii.eqb_spec c dquote) as [->|H4]; [done|].
  destruct (Ascii.eqb_spec c squote) as [->|H5]; [done|].
  cbn [str_forall]. unfold is_markup.
  by rewrite (proj2 (Ascii.eqb_neq _ _) H2), (proj2 (Ascii.eqb_neq _ _) H3),
    (proj2 (Ascii.eqb_neq _ _) H4), (proj2 (Ascii.eqb_neq _ _) H5).
Qed.

Lemma entity_other c s : c ≠ "&"%char → entity (String c s) = None.
Proof.
  intros Hc. unfold entity, begins. cbn [after_literal char_eq].
  by rewrite (proj2 (Ascii.eqb_neq _ _) (not_eq_sym Hc)).
Qed.

Lemma unescape_escape_char c t :
  unescape 0 (escape_char c +:+ t) = String c (unescape 0 t).
Proof.
  unfold escape_char.
  destruct (Ascii.eqb_spec c "&") as [->|H1];
    [by rewrite !app_cons, app_empty_l|].
  destruct (Ascii.eqb_spec c "<") as [->|H2];
    [by rewrite !app_cons, app_empty_l|].
  destruct (Ascii.eqb_spec c ">") as [->|H3];
    [by rewrite !app_cons, app_empty_l|].
  destruct (Ascii.eqb_spec c dquote) as [->|H4];
    [by rewrite !app_cons, app_empty_l|].
  destruct (Ascii.eqb_spec c squote) as [->|H5];
    [by rewrite !app_cons, app_empty_l|].
  rewrite app_cons, app_empty_l. cbn [unescape]. by rewrite entity_other.
Qed.

Lemma escape_char_length c : (1 ≤ String.length (escape_char c))%nat.
Proof.
  unfold escape_char.
  repeat (destruct (Ascii.eqb _ _); [cbn; lia|]). cbn. lia.
Qed.

(** X17.  [escapeHtml] leaves none of the characters < > double quote and
    apostrophe in its result, never shortens a text, changes nothing in a
    text that holds none of these and no ampersand, and loses nothing:
    reading the entities back gives the text it was given. *)
Theorem escapeHtml_safe (str : string) :
  str_forall (fun c => negb (is_markup c)) (escapeHtml str) = true
  ∧ unescape 0 (escapeHtml str) = str
  ∧ (String.length str ≤ String.length (escapeHtml str))%nat
  ∧ (str_forall (fun c => negb (is_markup c) && negb (Ascii.eqb c "&")) str
     = true → escapeHtml str = str).
Proof.
  induction str as [|c str (IH1 & IH2 & IH3 & IH4)]; [done|].
  rewrite escapeHtml_cons. split_and!.
  - by rewrite str_forall_app, escape_char_plain, IH1.
  - by rewrite unescape_escape_char, IH2.
  - rewrite app_length. pose proof (escape_char_length c). cbn. lia.
  - cbn [str_forall]. intros [[Hm Ha]%andb_true_iff Hs]%andb_true_iff.
    rewrite (IH4 Hs). unfold escape_char, is_markup in *.
    apply negb_true_iff in Ha. rewrite Ha.
    apply negb_true_iff in Hm. repeat apply orb_false_iff in Hm as [Hm ?].
    by rewrite Hm, H, H0, H1.
Qed.

Lemma escapeHtml_safe_witness :
  str_forall (fun c => negb (is_markup c) && negb (Ascii.eqb c "&"))
    "QA Engineer" = true
  ∧ escapeHtml "QA Engineer" = "QA Engineer".
Proof.
  refine (conj eq_refl _).
  exact (proj2 (proj2 (proj2 (escapeHtml_safe "QA Engineer"))) eq_refl).
Defined.

Lemma esc_escapeHtml s : escapeHtml s = replace_char squote "&#39;" (esc s).
Proof. reflexivity. Qed.

Lemma replace_char_absent c by_ s :
  has_char c s = false → replace_char c by_ s = s.
Proof.
  induction s as [|d s IH]; [done|]. cbn.
  intros [-> Hs]%orb_false_iff. by rewrite IH.
Qed.

Lemma has_char_app c a b : has_char c (a +:+ b) = has_char c a || has_char c b.
Proof.
  induction a as [|d a IH]; [done|]. rewrite app_cons. cbn.
  by rewrite IH, orb_assoc.
Qed.

Lemma has_char_replace c d by_ s :
  c ≠ d → has_char c by_ = false →
  has_char c (replace_char d by_ s) = has_char c s.
Proof.
  intros Hcd Hby. induction s as [|x s IH]; [done|]. cbn [replace_char].
  destruct (Ascii.eqb_spec x d) as [->|Hx].
  - rewrite has_char_app, Hby, IH. cbn.
    by rewrite (proj2 (Ascii.eqb_neq _ _) (not_eq_sym Hcd)).
  - cbn. by rewrite IH.
Qed.

(** X18.  The [esc] of the page script keeps every apostrophe of its
    argument and adds none; on a text without apostrophe it gives what
    [escapeHtml] gives, and on any text [escapeHtml] is [esc] followed by
    the replacement of the apostrophes. *)
Theorem esc_keeps_apostrophes (s : string) :
  has_char squote (esc s) = has_char squote s
  ∧ (has_char squote s = false → esc s = escapeHtml s)
  ∧ escapeHtml s = replace_char squote "&#39;" (esc s).
Proof.
  assert (has_char squote (esc s) = has_char squote s) as Hsame.
  { unfold esc. by rewrite !has_char_replace. }
  split_and!; [done| |done].
  intros Hno. rewrite esc_escapeHtml. symmetry.
  apply replace_char_absent. by rewrite Hsame.
Qed.

Lemma esc_keeps_apostrophes_witness :
  has_char squote "QA & Test <b>" = false
  ∧ esc "QA & Test <b>" = escapeHtml "QA & Test <b>".
Proof.
  refine (conj eq_refl _).
  exact (proj1 (proj2 (esc_keeps_apostrophes "QA & Test <b>")) eq_refl).
Defined.

(** *** The name of the report file *)

Lemma hyphenate_spaced b s : hyphen_spaced b (hyphenate b s) = true.
Proof.
  revert b. induction s as [|c s IH]; intros b; [done|]. cbn [hyphenate].
  destruct (is_slug_char c) eqn:Hc.
  - cbn [hyphen_spaced]. rewrite Hc, IH.
    destruct (Ascii.eqb_spec c "-") as [->|_]; [done|done].
  - destruct b; [apply IH|]. cbn [hyphen_spaced]. by rewrite IH.
Qed.

Lemma hyphen_spaced_cons b c r :
  hyphen_spaced b (String c r)
  = if Ascii.eqb c "-" then negb b && hyphen_spaced true r
    else is_slug_char c && hyphen_spaced false r.
Proof. reflexivity. Qed.

Lemma strip_leading_spaced s :
  hyphen_spaced false s = true →
  hyphen_spaced true (strip_leading_hyphen s) = true.
Proof.
  destruct s as [|c s]; [done|]. rewrite hyphen_spaced_cons.
  unfold strip_leading_hyphen.
  destruct (Ascii.eqb c "-") eqn:Hc; [done|].
  by rewrite hyphen_spaced_cons, Hc.
Qed.

Lemma strip_trailing_spaced b s :
  hyphen_spaced b s = true →
  hyphen_spaced b (strip_trailing_hyphen s) = true
  ∧ ends_with_hyphen (strip_trailing_hyphen s) = false.
Proof.
  revert b. induction s as [|c s IH]; intros b; [done|].
  rewrite hyphen_spaced_cons. destruct s as [|d s].
  - cbn [strip_trailing_hyphen]. destruct (Ascii.eqb c "-") eqn:Hc; [done|].
    intros Hs. by rewrite hyphen_spaced_cons, Hc.
  - change (strip_trailing_hyphen (String c (String d s)))
      with (String c (strip_trailing_hyphen (String d s))).
    destruct (Ascii.eqb c "-") eqn:Hc.
    + intros [Hb Hs]%andb_true_iff. destruct (IH _ Hs) as [H1 H2].
      rewrite hyphen_spaced_cons, Hc, Hb, H1. split; [done|].
      destruct (strip_trailing_hyphen (String d s)) as [|x t] eqn:E; [|done].
      exfalso. rewrite hyphen_spaced_cons in Hs.
      destruct s as [|y s].
      * cbn in E. destruct (Ascii.eqb d "-"); [done|done].
      * done.
    + intros [Hsl Hs]%andb_true_iff. destruct (IH _ Hs) as [H1 H2].
      rewrite hyphen_spaced_cons, Hc, Hsl, H1. split; [done|].
      destruct (strip_trailing_hyphen (String d s)) as [|x t] eqn:E; [|done].
      cbn. exact Hc.
Qed.

Lemma hyphen_spaced_chars b s :
  hyphen_spaced b s = true →
  str_forall (fun c => is_slug_char c || Ascii.eqb c "-") s = true
  ∧ includes s "--" = false.
Proof.
  revert b. induction s as [|c s IH]; intros b; [done|].
  rewrite hyphen_spaced_cons. intros H.
  assert (∃ b', hyphen_spaced b' s = true
                ∧ (is_slug_char c || Ascii.eqb c "-") = true
                ∧ (Ascii.eqb c "-" = true → b' = true)) as (b' & Hs & Hc & Hb').
  { destruct (Ascii.eqb c "-").
    - apply andb_true_iff in H as [_ H]. exists true.
      by rewrite orb_true_r.
    - apply andb_true_iff in H as [-> H]. by exists false. }
  destruct (IH _ Hs) as [H1 H2]. split.
  - cbn [str_forall]. by rewrite Hc, H1.
  - cbn [includes]. rewrite H2, orb_false_r.
    destruct (String.prefix "--" (String c s)) eqn:Hp; [|done].
    apply prefix_inv in Hp as [r Hr]. rewrite !app_cons in Hr.
    injection Hr as -> ->. rewrite (Hb' eq_refl) in Hs. done.
Qed.

(** X19.  The slug of a company name holds only the letters a to z, the
    digits and hyphens, with no hyphen at its head or at its end and no
    two hyphens in a row: nothing in it can leave the output directory. *)
Theorem slug_is_safe `{Runtime} (company : string) :
  str_forall (fun c => is_slug_char c || Ascii.eqb c "-") (slug company) = true
  ∧ includes (slug company) "--" = false
  ∧ String.prefix "-" (slug company) = false
  ∧ ends_with_hyphen (slug company) = false.
Proof.
  unfold slug.
  pose proof (strip_leading_spaced _ (hyphenate_spaced false (toLowerCase company)))
    as Hlead.
  destruct (strip_trailing_spaced _ _ Hlead) as [Hs Hend].
  destruct (hyphen_spaced_chars _ _ Hs) as [Hchars Hdouble].
  split_and!; [done..| |done].
  destruct (strip_trailing_hyphen _) as [|c r]; [done|].
  rewrite hyphen_spaced_cons in Hs. cbn [String.prefix].
  destruct (ascii_dec "-" c) as [<-|_]; [done|done].
Qed.

(** *** The posting date of a page *)

Import Scraper.

Lemma slice0_part n s : ∃ q, s = slice0 n s +:+ q.
Proof.
  revert s. induction n as [|n IH]; intros [|c s]; try by eexists.
  destruct (IH s) as [q Hq]. exists q. cbn [slice0]. by rewrite app_cons, <-Hq.
Qed.

Lemma slice0_app s r : slice0 (String.length s) (s +:+ r) = s.
Proof.
  induction s as [|c s IH]; [by destruct r|].
  rewrite app_cons. cbn [String.length slice0]. by rewrite IH.
Qed.

Lemma fits_length pattern s :
  fits pattern s = true → String.length s = length pattern.
Proof.
  revert s. induction pattern as [|[] pattern IH]; intros [|c s]; try done.
  - cbn. intros [_ H]%andb_true_iff. by rewrite (IH _ H).
  - cbn. intros [_ H]%andb_true_iff. by rewrite (IH _ H).
Qed.

Lemma date_here_Some s d :
  date_here s = Some d → fits date_pattern d = true ∧ ∃ after, s = d +:+ after.
Proof.
  unfold date_here. cbn zeta. destruct (fits _ _) eqn:E; [|done].
  intros [= <-]. split; [done|]. exact (slice0_part 10 s).
Qed.

Lemma date_here_app d r :
  fits date_pattern d = true → date_here (d +:+ r) = Some d.
Proof.
  intros H. unfold date_here.
  change 10%nat with (length date_pattern).
  by rewrite <-(fits_length _ _ H), slice0_app, H.
Qed.

Lemma normalizeDate_cons c raw :
  normalizeDate (String c raw)
  = match date_here (String c raw) with
    | Some d => Some d
    | None => normalizeDate raw
    end.
Proof. reflexivity. Qed.

Lemma normalizeDate_here raw d :
  date_here raw = Some d → normalizeDate raw = Some d.
Proof. destruct raw; [done|]. rewrite normalizeDate_cons. by intros ->. Qed.

Lemma normalizeDate_Some raw d :
  normalizeDate raw = Some d →
  ∃ before after,
    raw = before +:+ d +:+ after ∧ fits date_pattern d = true
    ∧ ∀ p r, before = p +:+ r → r ≠ "" →
        date_here (r +:+ d +:+ after) = None.
Proof.
  induction raw as [|c raw IH]; [done|]. rewrite normalizeDate_cons.
  destruct (date_here (String c raw)) as [d0|] eqn:E.
  - intros [= ->]. destruct (date_here_Some _ _ E) as [Hfit [after Hafter]].
    exists "", after. split_and!; [done..|].
    intros [|x p] r; [|done]. rewrite app_empty_l. intros <- Hr. by destruct Hr.
  - intros (before & after & Hraw & Hfit & Hleft)%IH.
    exists (String c before), after. split_and!; [by rewrite Hraw|done|].
    intros [|x p] r.
    + rewrite app_empty_l. intros <- _. by rewrite app_cons, <-Hraw.
    + rewrite app_cons. intros [= _ ->]. by apply (Hleft p).
Qed.

Lemma normalizeDate_finds p d r :
  fits date_pattern d = true → is_Some (normalizeDate (p +:+ d +:+ r)).
Proof.
  intros Hfit. induction p as [|c p IH].
  - rewrite app_empty_l. by rewrite (normalizeDate_here _ d (date_here_app _ _ Hfit)).
  - rewrite app_cons, normalizeDate_cons. by destruct (date_here _).
Qed.

(** X20.  The date [normalizeDate] returns is the leftmost part of the
    text that has four digits, a hyphen, two digits, a hyphen and two
    digits: ten characters, with no date of this shape starting before
    it.  The digits are not checked against a calendar, and a date that
    was returned is returned again when it is given. *)
Theorem normalizeDate_leftmost (raw d : string) :
  normalizeDate raw = Some d →
  String.length d = 10%nat
  ∧ fits date_pattern d = true
  ∧ normalizeDate d = Some d
  ∧ ∃ before after,
      raw = before +:+ d +:+ after
      ∧ ∀ p r, before = p +:+ r → r ≠ "" →
          date_here (r +:+ d +:+ after) = None.
Proof.
  intros (before & after & Hraw & Hfit & Hleft)%normalizeDate_Some.
  split_and!; [exact (fits_length _ _ Hfit)|done| |by exists before, after].
  apply normalizeDate_here. rewrite <-(app_empty_r d) at 1.
  by apply date_here_app.
Qed.

Lemma normalizeDate_leftmost_witness :
  normalizeDate "Posted 2024-99-99, 2024-05-01" = Some "2024-99-99"
  ∧ fits date_pattern "2024-99-99" = true.
Proof.
  refine (conj eq_refl _).
  exact (proj1 (proj2
    (normalizeDate_leftmost "Posted 2024-99-99, 2024-05-01" "2024-99-99"
       eq_refl))).
Defined.

(** X21.  [normalizeDate] returns null exactly when no part of the text
    has the shape of a date. *)
Theorem normalizeDate_none (raw : string) :
  normalizeDate raw = None
  ↔ ∀ p d r, raw = p +:+ d +:+ r → fits date_pattern d = false.
Proof.
  split.
  - intros Hnone p d r ->. destruct (fits date_pattern d) eqn:Hfit; [|done].
    destruct (normalizeDate_finds p d r Hfit) as [x Hx]. congruence.
  - intros Hno. destruct (normalizeDate raw) as [d|] eqn:E; [|done].
    apply normalizeDate_Some in E as (before & after & Hraw & Hfit & _).
    by rewrite (Hno _ _ _ Hraw) in Hfit.
Qed.

Lemma ld_each_found d blocks : ld_each (Some d) blocks = Some d.
Proof. induction blocks as [|b blocks IH]; [done|]. exact IH. Qed.

Lemma ld_each_first blocks :
  ld_each None blocks = first_some (ld_candidate <$> blocks).
Proof.
  induction blocks as [|b blocks IH]; [done|]. cbn [ld_each fmap list_fmap first_some].
  destruct b as [| |datePosted]; cbn [ld_candidate]; try exact IH.
  destruct (normalizeDate datePosted) as [d|]; [apply ld_each_found|exact IH].
Qed.

Lemma date_of_attr_bind attr : date_of_attr attr = attr ≫= normalizeDate.
Proof. destruct attr as [[|c s]|]; done. Qed.

Lemma first_some_app a b :
  first_some (a ++ b)
  = match first_some a with Some x => Some x | None => first_some b end.
Proof. induction a as [|[x|] a IH]; done. Qed.

Lemma first_some_elem l d : first_some l = Some d → Some d ∈ l.
Proof.
  induction l as [|[x|] l IH]; [done| |].
  - intros [= ->]. apply elem_of_cons. by left.
  - intros H. apply elem_of_cons. right. by apply IH.
Qed.

Lemma candidates_fit page d :
  Some d ∈ candidates page → fits date_pattern d = true.
Proof.
  unfold candidates. intros [H|H]%elem_of_app.
  - apply list_elem_of_fmap in H as ([| |raw] & Hb & _); try done.
    cbn in Hb. symmetry in Hb.
    by apply normalizeDate_Some in Hb as (_ & _ & _ & ? & _).
  - assert (∃ raw, normalizeDate raw = Some d) as [raw Hraw].
    { repeat (apply elem_of_cons in H as [H|H];
        [symmetry in H; apply bind_Some in H as (raw & _ & ?); by exists raw|]).
      by apply elem_of_nil in H. }
    by apply normalizeDate_Some in Hraw as (_ & _ & _ & ? & _).
Qed.

Lemma extractPostingDate_candidates page :
  extractPostingDate page = first_some (candidates page).
Proof.
  unfold extractPostingDate, candidates.
  rewrite first_some_app, ld_each_first, !date_of_attr_bind.
  destruct (first_some _); [done|]. cbn [first_some].
  by repeat destruct (_ ≫= normalizeDate).
Qed.

Lemma extractPostingDate_fits page d :
  extractPostingDate page = Some d → fits date_pattern d = true.
Proof.
  rewrite extractPostingDate_candidates.
  intros Hd. exact (candidates_fit _ _ (first_some_elem _ _ Hd)).
Qed.

(** X22.  [extractPostingDate] takes the first date that the places of
    the page offer, in this order: the JSON-LD blocks as they stand in
    the page, a block that cannot be parsed or has no [datePosted] text
    being passed over, then the Open Graph time, the [time] element and
    the [date] meta; it returns null when none offers one.  The date it
    returns has the shape of a date. *)
Theorem extractPostingDate_first_candidate (page : Page) :
  extractPostingDate page = first_some (candidates page)
  ∧ ∀ d, extractPostingDate page = Some d →
      fits date_pattern d = true ∧ String.length d = 10%nat.
Proof.
  split; [apply extractPostingDate_candidates|]. intros d Hd.
  pose proof (extractPostingDate_fits _ _ Hd) as Hfit.
  split; [done|]. exact (fits_length _ _ Hfit).
Qed.

Lemma extractPostingDate_first_candidate_witness :
  extractPostingDate undated_page = Some "2024-99-99"
  ∧ fits date_pattern "2024-99-99" = true.
Proof.
  refine (conj eq_refl _).
  exact (proj1 (proj2 (extractPostingDate_first_candidate undated_page)
                  "2024-99-99" eq_refl)).
Defined.

(** *** The text of a page *)

Lemma squash_tidy raw :
  single_spaced false (squash raw) = true ∧ starts_clean (squash raw) = true.
Proof.
  unfold squash. split; [|apply trim_clean].
  eapply trim_single_spaced, collapse_spaces_single.
Qed.

Lemma first_long_text_cons_Some raw rest :
  first_long_text (Some raw :: rest)
  = if Nat.ltb 200 (units (squash raw))
    then Some (slice_to 15000 (squash raw)) else first_long_text rest.
Proof. reflexivity. Qed.

Lemma first_long_text_cons_None rest :
  first_long_text (None :: rest) = first_long_text rest.
Proof. reflexivity. Qed.

Lemma first_long_text_Some texts text :
  first_long_text texts = Some text →
  ∃ i raw,
    texts !! i = Some (Some raw)
    ∧ (200 < units (squash raw))%nat
    ∧ text = slice_to 15000 (squash raw)
    ∧ ∀ j raw', (j < i)%nat → texts !! j = Some (Some raw') →
        (units (squash raw') ≤ 200)%nat.
Proof.
  induction texts as [|[raw|] texts IH]; [done| |].
  - rewrite first_long_text_cons_Some.
    destruct (Nat.ltb_spec 200 (units (squash raw))) as [Hlong|Hshort].
    + intros Heq. exists 0%nat, raw. split; [reflexivity|]. split; [exact Hlong|].
      split; [congruence|]. intros j raw' Hj. exfalso. exact (Nat.nlt_0_r _ Hj).
    + intros (i & raw0 & Hi & Hlong & Htext & Hbefore)%IH.
      exists (S i), raw0. split; [exact Hi|]. split; [exact Hlong|].
      split; [exact Htext|].
      intros [|j] raw' Hj.
      * cbn [lookup list_lookup]. intros Heq.
        assert (raw' = raw) as -> by congruence. exact Hshort.
      * apply Hbefore. apply Nat.succ_lt_mono. exact Hj.
  - rewrite first_long_text_cons_None.
    intros (i & raw0 & Hi & Hlong & Htext & Hbefore)%IH.
    exists (S i), raw0. split; [exact Hi|]. split; [exact Hlong|].
    split; [exact Htext|].
    intros [|j] raw' Hj; [intros Heq; discriminate Heq|]. apply Hbefore.
    apply Nat.succ_lt_mono. exact Hj.
Qed.

Lemma first_long_text_None texts :
  first_long_text texts = None →
  ∀ raw, Some raw ∈ texts → (units (squash raw) ≤ 200)%nat.
Proof.
  induction texts as [|[raw|] texts IH]; intros Hnone raw0 Hin.
  - by apply elem_of_nil in Hin.
  - rewrite first_long_text_cons_Some in Hnone.
    destruct (Nat.ltb_spec 200 (units (squash raw))) as [|Hshort];
      [discriminate Hnone|].
    apply elem_of_cons in Hin as [Heq|Hin]; [|exact (IH Hnone _ Hin)].
    assert (raw0 = raw) as -> by congruence. exact Hshort.
  - rewrite first_long_text_cons_None in Hnone.
    apply elem_of_cons in Hin as [Heq|Hin]; [discriminate Heq|].
    exact (IH Hnone _ Hin).
Qed.

Example squash_polish :
  squash ("  Zażółć" +:+ utf8 160 +:+ utf8 160 +:+ "gęślą " +:+ utf8 8233
          +:+ " jaźń" +:+ utf8 12288)
  = "Zażółć gęślą jaźń"
  ∧ units "Zażółć gęślą jaźń" = 17%nat.
Proof. split; reflexivity. Qed.

(** X23.  The text [scrapeJD] returns is either what the first selector
    with more than 200 code units of text holds, cut to 15000 code
    units, or, when no selector holds that much, the text of the body cut
    to 10000.  In both cases its white space is single blanks, it does
    not begin with white space, and the posting date is the one
    [extractPostingDate] finds. *)
Theorem scrapeJD_text (page : Page) :
  let result := scrapeJD page in
  posting_date result = extractPostingDate page
  ∧ single_spaced false (text result) = true
  ∧ starts_clean (text result) = true
  ∧ ((∃ i raw,
        selected page !! i = Some (Some raw)
        ∧ (200 < units (squash raw))%nat
        ∧ (∀ j raw', (j < i)%nat → selected page !! j = Some (Some raw') →
             (units (squash raw') ≤ 200)%nat)
        ∧ text result = slice_to 15000 (squash raw)
        ∧ (units (text result) ≤ 15000)%nat)
     ∨ ((∀ raw, Some raw ∈ selected page →
           (units (squash raw) ≤ 200)%nat)
        ∧ text result = slice_to 10000 (squash (body_text page))
        ∧ (units (text result) ≤ 10000)%nat)).
Proof.
  cbv zeta. unfold scrapeJD.
  destruct (first_long_text (selected page)) as [t|] eqn:E;
    cbv [text posting_date].
  - destruct (first_long_text_Some _ _ E) as (i & raw & Hi & Hlong & Ht & Hb).
    destruct (squash_tidy raw) as [H1 H2]. rewrite Ht.
    split; [reflexivity|].
    split; [exact (slice_to_single_spaced _ _ _ H1)|].
    split; [exact (slice_to_starts_clean _ _ H2)|].
    left. exists i, raw.
    split; [exact Hi|]. split; [exact Hlong|]. split; [exact Hb|].
    split; [reflexivity|apply slice_to_units].
  - destruct (squash_tidy (body_text page)) as [H1 H2].
    split; [reflexivity|].
    split; [exact (slice_to_single_spaced _ _ _ H1)|].
    split; [exact (slice_to_starts_clean _ _ H2)|].
    right. split; [exact (first_long_text_None _ E)|].
    split; [reflexivity|apply slice_to_units].
Qed.

(** *** The age of a scraped posting *)

(** X24.  A posting date that was scraped always gives an age, never
    null: with a limit of age configured, the Freshness check is made on
    that age and its reason never says that the date is unknown.  When
    the date is one the runtime cannot read, the age is NaN and the check
    fails; when it can, the check compares the whole days between the
    date and today, which are negative for a date to come. *)
Theorem freshness_of_scraped_date `{Runtime} (today : Z) (page : Page)
    (d : string) (config : UserConfig.t) (result : AnalysisResult.t)
    (jdText : string) (max_age_days : Z) :
  extractPostingDate page = Some d →
  UserConfig.max_age_days config = Some max_age_days →
  ∃ age check,
    computeAgeDays today (Some d) = Some age
    ∧ age = floor_div (minus_time today (Date_getTime d)) 86400000
    ∧ check ∈ evaluateFilters config result jdText (Some age)
    ∧ FilterCheck.name check = "Freshness"
    ∧ FilterCheck.passed check
      = match Date_getTime d with
        | Some posted => Z.leb ((today - posted) / 86400000) max_age_days
        | None => false
        end
    ∧ FilterCheck.reason check
      = jsnum_to_string age +:+ "d "
        +:+ (if FilterCheck.passed check then "≤" else ">")
        +:+ " " +:+ Z_to_string max_age_days +:+ "d".
Proof.
  intros Hd Hmax.
  pose proof (extractPostingDate_fits page d Hd) as Hfit.
  assert (nonempty d = true) as Hne by by destruct d.
  set (age := floor_div (minus_time today (Date_getTime d)) 86400000).
  exists age,
    (FilterCheck.mk "Freshness" (age_le age max_age_days)
       (jsnum_to_string age +:+ "d "
        +:+ (if age_le age max_age_days then "≤" else ">")
        +:+ " " +:+ Z_to_string max_age_days +:+ "d")).
  split_and!.
  - unfold computeAgeDays. by rewrite Hne.
  - done.
  - unfold evaluateFilters. cbn zeta. rewrite Hmax.
    destruct (UserConfig.role_keywords config) as [[|k0 ks]|];
      destruct (UserConfig.require_salary config) as [[]|];
      destruct (UserConfig.work_mode config) as [[]|];
      repeat (apply elem_of_app;
              first [right; apply list_elem_of_singleton; reflexivity | left]).
  - done.
  - cbn [FilterCheck.passed]. unfold age. by destruct (Date_getTime d).
  - done.
Qed.

Lemma freshness_of_scraped_date_witness :
  extractPostingDate undated_page = Some "2024-99-99"
  ∧ UserConfig.max_age_days
      (UserConfig.mk None None (Some 30) None None None None) = Some 30
  ∧ ∃ age check,
      @computeAgeDays Host.host Examples.now (Some "2024-99-99") = Some age
      ∧ age = NaN
      ∧ check ∈ @evaluateFilters Host.host
                  (UserConfig.mk None None (Some 30) None None None None)
                  (AnalysisResult.mk "Acme" "QA" 74 None 45) "QA Engineer"
                  (Some age)
      ∧ FilterCheck.name check = "Freshness"
      ∧ FilterCheck.passed check = false
      ∧ FilterCheck.reason check = "NaNd > 30d".
Proof.
  refine (conj eq_refl (conj eq_refl _)).
  destruct (@freshness_of_scraped_date Host.host Examples.now undated_page
              "2024-99-99"
              (UserConfig.mk None None (Some 30) None None None None)
              (AnalysisResult.mk "Acme" "QA" 74 None 45) "QA Engineer" 30
              eq_refl eq_refl)
    as (age & check & H1 & H2 & H3 & H4 & H5 & H6).
  exists age, check. split_and!; [done|exact H2|done|done|exact H5|].
  rewrite H6, H5, H2. reflexivity.
Defined.

(** *** The text of a curriculum vitae *)

Import CvParser.

Lemma lf_runs_cons run c r :
  lf_runs run (String c r)
  = if Ascii.eqb c LF then Nat.ltb run 2 && lf_runs (S run) r
    else lf_runs 0 r.
Proof. reflexivity. Qed.

Lemma lf_runs_fewer run run' s :
  (run' ≤ run)%nat → lf_runs run s = true → lf_runs run' s = true.
Proof.
  revert run run'. induction s as [|c s IH]; intros run run' Hle; [done|].
  rewrite !lf_runs_cons. destruct (Ascii.eqb c LF); [|done].
  intros [Hlt H]%andb_true_iff. apply Nat.ltb_lt in Hlt.
  apply andb_true_iff. split; [apply Nat.ltb_lt; lia|].
  apply (IH (S run)); [lia|done].
Qed.

Lemma squeeze_newlines_runs run s :
  lf_runs (Nat.min run 2) (squeeze_newlines run s) = true.
Proof.
  revert run. induction s as [|c s IH]; intros run; [done|].
  cbn [squeeze_newlines]. destruct (Ascii.eqb c LF) eqn:Hc.
  - destruct (Nat.ltb_spec run 2) as [Hlt|Hge].
    + rewrite lf_runs_cons, Hc. apply andb_true_iff.
      split; [apply Nat.ltb_lt; lia|].
      apply (lf_runs_fewer (Nat.min (S run) 2)); [lia|apply IH].
    + apply (lf_runs_fewer (Nat.min (S run) 2)); [lia|apply IH].
  - rewrite lf_runs_cons, Hc. apply (IH 0%nat).
Qed.

Lemma is_blank_not_LF c : is_blank c = true → Ascii.eqb c LF = false.
Proof.
  unfold is_blank.
  intros [->%Ascii.eqb_eq | ->%Ascii.eqb_eq]%orb_true_iff; reflexivity.
Qed.

Lemma collapse_blanks_runs (in_run : bool) run s :
  lf_runs run s = true →
  lf_runs (if in_run then 0%nat else run) (collapse_blanks in_run s) = true.
Proof.
  revert in_run run. induction s as [|c s IH]; intros in_run run; [done|].
  rewrite lf_runs_cons. cbn [collapse_blanks].
  destruct (is_blank c) eqn:Hb.
  - rewrite (is_blank_not_LF _ Hb). intros H.
    destruct in_run; [exact (IH true _ H)|].
    change (lf_runs 0 (collapse_blanks true s) = true). exact (IH true _ H).
  - rewrite lf_runs_cons. destruct (Ascii.eqb c LF).
    + intros [Hlt H]%andb_true_iff. apply Nat.ltb_lt in Hlt.
      apply andb_true_iff. split; [apply Nat.ltb_lt; destruct in_run; lia|].
      apply (lf_runs_fewer (S run)); [destruct in_run; lia|].
      exact (IH false _ H).
    + intros H. exact (IH false _ H).
Qed.

Lemma lf_runs_suffix run p s :
  lf_runs run (p +:+ s) = true → lf_runs 0 s = true.
Proof.
  revert run. induction p as [|c p IH]; intros run.
  - rewrite app_empty_l. apply lf_runs_fewer. lia.
  - rewrite app_cons, lf_runs_cons. destruct (Ascii.eqb c LF).
    + intros [_ H]%andb_true_iff. by eapply IH.
    + apply IH.
Qed.

Lemma lf_runs_prefix run s q :
  lf_runs run (s +:+ q) = true → lf_runs run s = true.
Proof.
  revert run. induction s as [|c s IH]; intros run; [done|].
  rewrite app_cons, !lf_runs_cons. destruct (Ascii.eqb c LF).
  - intros [-> H]%andb_true_iff. by apply IH.
  - apply IH.
Qed.

Lemma lf_runs_no_three run s :
  lf_runs run s = true → includes s three_line_feeds = false.
Proof.
  revert run. induction s as [|c s IH]; intros run H; [done|].
  cbn [includes]. apply orb_false_iff. split.
  - destruct (String.prefix three_line_feeds (String c s)) eqn:Hp; [|done].
    apply prefix_inv in Hp as [r Hr]. unfold three_line_feeds in Hr.
    rewrite !app_cons in Hr. injection Hr as -> ->.
    rewrite app_empty_l in H. rewrite !lf_runs_cons in H. cbn in H.
    by destruct run as [|[|run]].
  - rewrite lf_runs_cons in H. destruct (Ascii.eqb c LF).
    + apply andb_true_iff in H as [_ H]. by eapply IH.
    + by eapply IH.
Qed.

Lemma blank_spaced_cons b c r :
  blank_spaced b (String c r)
  = if Ascii.eqb c TAB then false
    else if Ascii.eqb c " " then negb b && blank_spaced true r
    else blank_spaced false r.
Proof. reflexivity. Qed.

Lemma collapse_blanks_spaced in_run s :
  blank_spaced in_run (collapse_blanks in_run s) = true.
Proof.
  revert in_run. induction s as [|c s IH]; intros in_run; [done|].
  cbn [collapse_blanks]. destruct (is_blank c) eqn:Hb.
  - destruct in_run; [apply IH|]. rewrite blank_spaced_cons. cbn. apply IH.
  - rewrite blank_spaced_cons. unfold is_blank in Hb.
    apply orb_false_iff in Hb as [-> ->]. apply IH.
Qed.

Lemma blank_spaced_weaken b s :
  blank_spaced b s = true → blank_spaced false s = true.
Proof.
  destruct s as [|c s]; [done|]. rewrite !blank_spaced_cons.
  destruct (Ascii.eqb c TAB); [done|]. destruct (Ascii.eqb c " "); [|done].
  by intros [_ ->]%andb_true_iff.
Qed.

Lemma blank_spaced_suffix b p s :
  blank_spaced b (p +:+ s) = true → blank_spaced false s = true.
Proof.
  revert b. induction p as [|c p IH]; intros b.
  - rewrite app_empty_l. apply blank_spaced_weaken.
  - rewrite app_cons, blank_spaced_cons.
    destruct (Ascii.eqb c TAB); [done|]. destruct (Ascii.eqb c " ").
    + intros [_ H]%andb_true_iff. by eapply IH.
    + apply IH.
Qed.

Lemma blank_spaced_prefix b s q :
  blank_spaced b (s +:+ q) = true → blank_spaced b s = true.
Proof.
  revert b. induction s as [|c s IH]; intros b; [done|].
  rewrite app_cons, !blank_spaced_cons.
  destruct (Ascii.eqb c TAB); [done|]. destruct (Ascii.eqb c " ").
  - intros [-> H]%andb_true_iff. by apply IH.
  - apply IH.
Qed.

Lemma blank_spaced_plain b s :
  blank_spaced b s = true →
  has_char TAB s = false ∧ includes s "  " = false.
Proof.
  revert b. induction s as [|c s IH]; intros b H; [done|].
  rewrite blank_spaced_cons in H.
  destruct (Ascii.eqb c TAB) eqn:Ht; [done|].
  assert (∃ b', blank_spaced b' s = true
                ∧ (Ascii.eqb c " " = true → b' = true)) as (b' & Hs & Hb').
  { destruct (Ascii.eqb c " ").
    - apply andb_true_iff in H as [_ H]. by exists true.
    - by exists false. }
  destruct (IH _ Hs) as [H1 H2]. split.
  - cbn [has_char]. by rewrite Ht, H1.
  - cbn [includes]. rewrite H2, orb_false_r.
    destruct (String.prefix "  " (String c s)) eqn:Hp; [|done].
    apply prefix_inv in Hp as [r Hr]. rewrite !app_cons in Hr.
    injection Hr as -> ->. rewrite (Hb' eq_refl) in Hs. done.
Qed.

(** X25.  The text [parsePDF] returns holds no tabulation, no two blanks
    in a row and no three line feeds in a row, and neither begins nor
    ends with white space. *)
Theorem clean_text_tidy (extracted : string) :
  has_char TAB (clean_text extracted) = false
  ∧ includes (clean_text extracted) "  " = false
  ∧ includes (clean_text extracted) three_line_feeds = false
  ∧ starts_clean (clean_text extracted) = true
  ∧ ends_clean (clean_text extracted) = true.
Proof.
  unfold clean_text.
  set (lines := squeeze_newlines 0 (crlf_to_lf extracted)).
  destruct (trim_part (collapse_blanks false lines)) as (p & q & Hpart).
  pose proof (collapse_blanks_spaced false lines) as Hblank.
  pose proof (collapse_blanks_runs false 0 lines
                (squeeze_newlines_runs 0 (crlf_to_lf extracted))) as Hruns.
  cbn [Nat.min] in Hruns. rewrite Hpart in Hblank, Hruns.
  apply blank_spaced_suffix, blank_spaced_prefix in Hblank.
  apply lf_runs_suffix, lf_runs_prefix in Hruns.
  destruct (blank_spaced_plain _ _ Hblank) as [Htab Hdouble].
  split_and!; [done|done|by eapply lf_runs_no_three|apply trim_clean..].
Qed.

(** *** Titles made from the address of a posting *)

Lemma split_parts sep s :
  Forall (fun part => has_char sep part = false) (split sep s).
Proof.
  induction s as [|c s IH]; [by repeat constructor|]. cbn [split].
  destruct (Ascii.eqb c sep) eqn:Hc; [by constructor|].
  destruct (split sep s) as [|x xs]; [by repeat constructor; cbn; rewrite Hc|].
  inversion IH as [|? ? Hx Hxs]; subst. constructor; [|done].
  cbn. by rewrite Hc, Hx.
Qed.

Lemma split_only_separators sep s :
  List.filter nonempty (split sep s) = []
  ↔ str_forall (fun c => Ascii.eqb c sep) s = true.
Proof.
  induction s as [|c s IH]; [done|]. cbn [split str_forall].
  destruct (Ascii.eqb c sep); [exact IH|].
  by destruct (split sep s).
Qed.

Lemma upper_char_hyphen c :
  Ascii.eqb (upper_char c) "-" = Ascii.eqb c "-".
Proof. by destruct c as [[] [] [] [] [] [] [] []]. Qed.

Lemma capitalize_hyphen w : has_char "-" (capitalize w) = has_char "-" w.
Proof. destruct w as [|c w]; [done|]. cbn. by rewrite upper_char_hyphen. Qed.

Lemma join_cons2 sep x y l :
  join sep (x :: y :: l) = x +:+ sep +:+ join sep (y :: l).
Proof. reflexivity. Qed.

Lemma has_char_join c sep l :
  has_char c sep = false →
  Forall (fun part => has_char c part = false) l →
  has_char c (join sep l) = false.
Proof.
  intros Hsep. induction l as [|x [|y l] IH]; [done| |].
  - by intros [Hx _]%Forall_cons.
  - intros [Hx Hl]%Forall_cons. rewrite join_cons2, !has_char_app.
    by rewrite Hx, Hsep, (IH Hl).
Qed.

Lemma join_empty sep l :
  Forall (fun part => nonempty part = true) l →
  join sep l = "" → l = [].
Proof.
  destruct l as [|x [|y l]]; [done| |].
  - intros [Hx _]%Forall_cons. by destruct x.
  - intros [Hx _]%Forall_cons. rewrite join_cons2. by destruct x.
Qed.

(** X26.  The title [slugToTitle] makes of the last segment of an address
    holds no hyphen, and it is empty only when the segment holds nothing
    but hyphens. *)
Theorem slugToTitle_words (slug : string) :
  has_char "-" (slugToTitle slug) = false
  ∧ (slugToTitle slug = ""
     ↔ str_forall (fun c => Ascii.eqb c "-") slug = true).
Proof.
  unfold slugToTitle. cbv zeta.
  set (parts := List.filter nonempty (split "-" slug)).
  set (meaningful := if Nat.ltb 2 (length parts) then drop_last2 parts
                     else parts).
  assert (Forall (fun part => has_char "-" part = false) parts) as Hparts.
  { apply List.Forall_forall. intros x [Hx _]%filter_In.
    by apply (proj1 (List.Forall_forall _ _) (split_parts "-" slug)). }
  assert (Forall (fun part => nonempty part = true) parts) as Hfull.
  { apply List.Forall_forall. by intros x [_ Hx]%filter_In. }
  assert (∀ P : string → Prop, Forall P parts → Forall P meaningful) as Hsub.
  { intros P HP. unfold meaningful, drop_last2.
    destruct (Nat.ltb 2 (length parts)); [by apply Forall_take|done]. }
  assert (meaningful = [] ↔ parts = []) as Hnil.
  { unfold meaningful, drop_last2.
    destruct (Nat.ltb_spec 2 (length parts)) as [Hlong|_]; [|done].
    split; [|by intros ->]. intros Hnil. apply (f_equal length) in Hnil.
    rewrite length_take in Hnil. cbn in Hnil. lia. }
  split.
  - apply has_char_join; [done|]. apply List.Forall_forall.
    intros x (w & <- & Hw)%in_map_iff. rewrite capitalize_hyphen.
    by apply (proj1 (List.Forall_forall _ _) (Hsub _ Hparts)).
  - rewrite <-split_only_separators. fold parts. rewrite <-Hnil. split.
    + intros Hempty. apply join_empty in Hempty.
      * by destruct meaningful.
      * apply List.Forall_forall. intros x (w & <- & Hw)%in_map_iff.
        pose proof (proj1 (List.Forall_forall _ _) (Hsub _ Hfull) _ Hw).
        by destruct w.
    + by intros ->.
Qed.
